(** * Mock-interview tool: request admission, retry and session lifecycle

    A shallow embedding of the TypeScript sources
    - [lib/gemini-utils]   (rate limiting, quota ledger, retry, fallback),
    - [components/interview/InterviewSession] (dialogue turns),
    - [components/interview/InterviewSetup] (the setup form),
    - [lib/webrtc-utils]   (the video recorder),
    - [lib/db-service]     (storing a recording, saving sessions),
    - [pages/Interview]    (the page),
    and the properties of the specification checked against them.

    Asynchronous code is modelled by explicit state passing: a promise is
    the value it settles with ([Resolved] or [Rejected]); everything the
    environment decides (HTTP replies, the clock, [Math.random], the remote
    store) is read from an oracle record, so every statement quantifies
    over all environments. A [string] holds the UTF-8 encoding of a
    JavaScript string. A handler of a React component is given the render
    whose closure it is, apart from the component as it is now. *)

From Equations Require Import Equations.
From Equations.Prop Require Import Logic.
From Stdlib Require Import Ascii String.
From Stdlib Require Import SpecFloat.
From stdpp Require Import gmap strings list.
From stdpp Require Import sorting.

Open Scope string_scope.
Open Scope list_scope.
Open Scope nat_scope.

(** ** JavaScript values used by the sources *)

Module Js.

(** How a promise settles. *)
Inductive Settled (A : Type) : Type :=
| Resolved (v : A)
| Rejected (err : string).
Arguments Resolved {A} v.
Arguments Rejected {A} err.

(** White space removed by [String.prototype.trim]: the code points of
    WhiteSpace and LineTerminator. A [string] is the UTF-8 encoding of the
    JavaScript string, so a white-space character takes one, two or three
    bytes:
    - one byte: TAB, LF, VT, FF, CR (9 to 13) and SPACE (32);
    - two bytes: U+00A0 (C2 A0);
    - three bytes: U+1680 (E1 9A 80), U+2000 to U+200A (E2 80 80 to
      E2 80 8A), U+2028 and U+2029 (E2 80 A8, E2 80 A9), U+202F (E2 80 AF),
      U+205F (E2 81 9F), U+3000 (E3 80 80) and U+FEFF (EF BB BF). *)
Definition is_space (c : ascii) : bool :=
  let n := nat_of_ascii c in
  (Nat.leb 9 n && Nat.leb n 13) || Nat.eqb n 32.

Definition is_space2 (a b : ascii) : bool :=
  Nat.eqb (nat_of_ascii a) 194 && Nat.eqb (nat_of_ascii b) 160.

Definition is_space3 (a b c : ascii) : bool :=
  let x := nat_of_ascii a in
  let y := nat_of_ascii b in
  let z := nat_of_ascii c in
  (Nat.eqb x 225 && Nat.eqb y 154 && Nat.eqb z 128) ||
  (Nat.eqb x 226 && Nat.eqb y 128 &&
     ((Nat.leb 128 z && Nat.leb z 138) || Nat.eqb z 168 || Nat.eqb z 169 ||
      Nat.eqb z 175)) ||
  (Nat.eqb x 226 && Nat.eqb y 129 && Nat.eqb z 159) ||
  (Nat.eqb x 227 && Nat.eqb y 128 && Nat.eqb z 128) ||
  (Nat.eqb x 239 && Nat.eqb y 187 && Nat.eqb z 191).

(** [trimStart] drops the white-space characters the string starts
    with. *)
Fixpoint trimStart (s : string) : string :=
  match s with
  | String a s1 =>
      if is_space a then trimStart s1
      else
        match s1 with
        | String b s2 =>
            if is_space2 a b then trimStart s2
            else
              match s2 with
              | String c s3 => if is_space3 a b c then trimStart s3 else s
              | EmptyString => s
              end
        | EmptyString => s
        end
  | EmptyString => EmptyString
  end.

(** [trimEnd] drops the white space that ends the string: the string is
    cut where what is left consists of white space only. *)
Fixpoint trimEnd (s : string) : string :=
  match s with
  | String c s' =>
      if bool_decide (trimStart s = EmptyString) then EmptyString
      else String c (trimEnd s')
  | EmptyString => EmptyString
  end.

Definition trim (s : string) : string := trimEnd (trimStart s).

(** [toLowerCase] on the letters A to Z. The other characters are left as
    they are: none of them is lowered to a letter of "software" or "done",
    the two words looked for in a lowered text. *)
Definition lower (c : ascii) : ascii :=
  let n := nat_of_ascii c in
  if Nat.leb 65 n && Nat.leb n 90 then ascii_of_nat (n + 32) else c.

Fixpoint toLowerCase (s : string) : string :=
  match s with
  | String c s' => String (lower c) (toLowerCase s')
  | EmptyString => EmptyString
  end.

(** [hay.includes(needle)] on strings. *)
Fixpoint includes (needle hay : string) : bool :=
  String.prefix needle hay ||
  match hay with
  | String _ hay' => includes needle hay'
  | EmptyString => false
  end.

(** [xs.includes(x)] on arrays of strings. *)
Definition arrayIncludes (x : string) (xs : list string) : bool :=
  bool_decide (x ∈ xs).

(** [xs.some(p)]. *)
Definition some {A} (p : A → bool) (xs : list A) : bool := existsb p xs.

(** [a || d] on a possibly undefined string: [undefined] and the empty
    string are falsy. *)
Definition orElse (a : option string) (d : string) : string :=
  match a with
  | Some s => if bool_decide (s = EmptyString) then d else s
  | None => d
  end.

(** A value as [JSON.parse] builds it. A number is a double (a
    [spec_float]; the parser yields no NaN), an object lists its own
    properties, each key once. *)
#[local] Unset Elimination Schemes.
Inductive Json :=
| JNull
| JBool (b : bool)
| JNumber (x : spec_float)
| JString (s : string)
| JArray (items : list Json)
| JObject (properties : list (string * Json)).
#[local] Set Elimination Schemes.

(** The number [0] and an array of strings. *)
Definition zero : Json := JNumber (S754_zero false).
Definition texts (l : list string) : Json := JArray (map JString l).

(** [v.name] for a name that no prototype defines, [None] being
    [undefined]: only an object can have the property. ([null.name]
    throws; the caller sees to it.) *)
Definition property (name : string) (v : Json) : option Json :=
  match v with
  | JObject properties => snd <$> find (λ p, bool_decide (p.1 = name)) properties
  | _ => None
  end.

(** What counts as true: everything but [null], [false], zero and the
    empty string. *)
Definition truthy (v : Json) : bool :=
  match v with
  | JNull => false
  | JBool b => b
  | JNumber (S754_zero _) | JNumber S754_nan => false
  | JNumber _ => true
  | JString s => negb (bool_decide (s = EmptyString))
  | JArray _ | JObject _ => true
  end.

(** [a || d] on a possibly undefined value. *)
Definition orValue (a : option Json) (d : Json) : Json :=
  match a with
  | Some v => if truthy v then v else d
  | None => d
  end.

(** A [Blob]: its bytes and its media type. [new Blob(parts, { type })]
    concatenates the parts. *)
Record Blob := { bytes : list N; mime : string }.

Definition newBlob (parts : list Blob) (type : string) : Blob :=
  {| bytes := concat (map bytes parts); mime := type |}.

End Js.

Import Js.

(** ** The LLM gateway ([gemini-utils]) *)

Module Gemini.

(** *** Configuration: the constants of [RATE_LIMIT] *)

Definition requestsPerMinute : nat := 12.
Definition maxRetries : nat := 1.
Definition baseRetryDelay : Z := 2000.
Definition dailyQuota : N := 1500.
Definition maxQueueSize : nat := 3.
Definition minInterval : Z := 5000.
Definition quotaRetryDelay : Z := 33000.

(** *** The environment *)

(** What one [fetch] of the generation endpoint comes to. [NetworkFailure]
    is a rejected [fetch] or a body that cannot be read; [Reply status c]
    is a received answer, where [c] is
    [data.candidates[0].content.parts[0].text] when the body has that
    shape. *)
Inductive Response :=
| NetworkFailure
| Reply (status : Z) (candidate : option string).

(** [response.ok] *)
Definition ok (status : Z) : bool :=
  bool_decide (200 ≤ status ≤ 299)%Z.

(** The answers of the environment: the calendar day and the time in
    milliseconds at the k-th reading of the clock, the outcome of the k-th
    [fetch], the k-th draw of [Math.random] (used modulo the number of
    candidates), [JSON.parse] on a feedback text ([None] when it throws),
    and the build-time credential (the empty string when there is
    none). *)
Record Oracle := {
  today_at : nat → string;
  now_at : nat → Z;
  response_at : nat → Response;
  random_at : nat → nat;
  parse_json : string → option Json;
  env_key : string
}.

(** The browser as the gateway sees it: the usage ledger kept in
    [localStorage] under [usageKey] (the JSON object it encodes when it can
    be read, a day without an entry being absent), the credential kept in
    [sessionStorage], and what has been observed so far: clock readings,
    network requests, random draws, delays waited for and toasts shown. *)
Record World := mkWorld {
  usage : gmap string N;
  sessionKey : option string;
  reads : nat;
  fetches : nat;
  draws : nat;
  slept : list Z;
  toasts : list string
}.

Definition set_usage (u : gmap string N) (w : World) : World :=
  mkWorld u (sessionKey w) (reads w) (fetches w) (draws w) (slept w) (toasts w).
Definition set_sessionKey (k : option string) (w : World) : World :=
  mkWorld (usage w) k (reads w) (fetches w) (draws w) (slept w) (toasts w).
Definition tick (w : World) : World :=
  mkWorld (usage w) (sessionKey w) (S (reads w)) (fetches w) (draws w) (slept w) (toasts w).
Definition sent (w : World) : World :=
  mkWorld (usage w) (sessionKey w) (reads w) (S (fetches w)) (draws w) (slept w) (toasts w).
Definition drawn (w : World) : World :=
  mkWorld (usage w) (sessionKey w) (reads w) (fetches w) (S (draws w)) (slept w) (toasts w).
Definition sleep (d : Z) (w : World) : World :=
  mkWorld (usage w) (sessionKey w) (reads w) (fetches w) (draws w) (slept w ++ [d]) (toasts w).
Definition toast (title : string) (w : World) : World :=
  mkWorld (usage w) (sessionKey w) (reads w) (fetches w) (draws w) (slept w) (toasts w ++ [title]).

(** Today's count in the ledger, [usage[today] || 0]. *)
Definition count (day : string) (w : World) : N := default 0%N (usage w !! day).

(** One pass through the body of a [makeRequest]: the value it returns, or
    the delay after which it calls itself again with [retries + 1]. *)
Inductive Pass (A : Type) : Type :=
| Return (v : A)
| Again (delay : Z).
Arguments Return {A} v.
Arguments Again {A} delay.

Section WithOracle.

Variable oracle : Oracle.

(** [fetch(endpoint)]: one network request. *)
Definition fetch (w : World) : Response * World :=
  (response_at oracle (fetches w), sent w).

(** [Math.floor(Math.random() * n)] *)
Definition randomIndex (n : nat) (w : World) : nat * World :=
  (random_at oracle (draws w) mod n, drawn w).

(** *** [trackApiUsage] *)

(** The advisory is shown from 90% of the quota on:
    [usage[today] >= dailyQuota * 0.9]. *)
Definition nearQuota (c : N) : bool := bool_decide (dailyQuota * 9 ≤ c * 10)%N.

Definition trackApiUsage (w : World) : N * World :=
  let today := today_at oracle (reads w) in
  let w := tick w in
  let c := (count today w + 1)%N in
  let w := set_usage (<[today := c]> (usage w)) w in
  let w := if nearQuota c then toast "API Quota Warning" w else w in
  (c, w).

(** *** [getDefaultQuestion] *)

Definition fixedQuestion : string :=
  "Can you share an example of a project you're proud of?".

Definition defaultQuestions (role : string) : list string :=
  [ "Can you describe a challenging " +:+ role +:+ " problem you've solved recently?";
    "What is your approach to debugging complex issues in " +:+ role +:+ "?";
    "How do you ensure quality in your " +:+ role +:+ " projects?";
    "Tell me about a time you had to learn a new technology quickly for " +:+ role +:+ ".";
    "How do you handle disagreements in a " +:+ role +:+ " team?";
    "Describe your experience with responsive design in " +:+ role +:+ ".";
    "How do you approach compatibility issues in your " +:+ role +:+ " projects?";
    "Explain your process for optimizing performance in " +:+ role +:+ ".";
    "What strategies do you use for testing in " +:+ role +:+ "?";
    "How do you stay updated with the latest trends in " +:+ role +:+ "?" ].

Definition roleOf (jobDescription : string) : string :=
  if includes "software" (toLowerCase jobDescription)
  then "software engineering" else "general".

Definition availableQuestions (jobDescription : string) (previousQuestions : list string)
  : list string :=
  filter (λ q, ¬ arrayIncludes q previousQuestions)
         (defaultQuestions (roleOf jobDescription)).

Definition getDefaultQuestion (jobDescription : string) (previousQuestions : list string)
    (w : World) : string * World :=
  let available := availableQuestions jobDescription previousQuestions in
  let '(i, w) := randomIndex (length available) w in
  (orElse (available !! i) fixedQuestion, w).


(** The texts [getDefaultQuestion] can return for a job description and
    the questions already asked: a question of the pool that has not been
    asked, or the fixed sentence once the whole pool has been asked. *)
Definition Fallback (jobDescription : string) (previousQuestions : list string)
    (q : string) : Prop :=
  (q ∈ defaultQuestions (roleOf jobDescription) ∧ q ∉ previousQuestions) ∨
  ((∀ x, x ∈ defaultQuestions (roleOf jobDescription) → x ∈ previousQuestions) ∧
   q = fixedQuestion).

(** *** [generateInterviewQuestion]: the request body [makeRequest] *)

Definition fallbackQuestion (jobDescription : string) (previousQuestions : list string)
    (w : World) : Pass string * World :=
  let '(q, w) := getDefaultQuestion jobDescription previousQuestions w in
  (Return q, w).

Definition questionPass (jobDescription : string) (previousQuestions : list string)
    (retries : nat) (w : World) : Pass string * World :=
  let '(c, w) := trackApiUsage w in
  if bool_decide (dailyQuota ≤ c)%N then
    fallbackQuestion jobDescription previousQuestions (toast "API Quota Exhausted" w)
  else
    match fetch w with
    | (NetworkFailure, w) =>
        (* the rejection is caught *)
        fallbackQuestion jobDescription previousQuestions w
    | (Reply status candidate, w) =>
        if negb (ok status) then
          if bool_decide (status = 429)%Z then
            let w := toast "Rate Limit Reached" w in
            if bool_decide (retries < maxRetries)%nat then (Again quotaRetryDelay, w)
            else fallbackQuestion jobDescription previousQuestions w
          else if bool_decide (retries < maxRetries)%nat then
            (Again (baseRetryDelay * 2 ^ Z.of_nat retries)%Z, w)
          else
            fallbackQuestion jobDescription previousQuestions
              (toast "Error Generating Question" w)
        else
          match candidate with
          | Some text => (Return (trim text), w)
          | None => fallbackQuestion jobDescription previousQuestions w
          end
    end.

Equations? makeRequest (jobDescription : string) (previousQuestions : list string)
    (retries : nat) (w : World) : string * World by wf (maxRetries - retries) lt :=
  makeRequest jd pq retries w with inspect (questionPass jd pq retries w) => {
    | exist _ (Return v, w') _ := (v, w');
    | exist _ (Again delay, w') H := makeRequest jd pq (S retries) (sleep delay w') }.
Proof.
  (* a pass asks for another one only under [retries < maxRetries] *)
  enough (retries < maxRetries)%nat by lia.
  revert H. unfold questionPass, fallbackQuestion.
  destruct (trackApiUsage w) as [c w1].
  repeat (case_bool_decide || case_match || destruct (getDefaultQuestion _ _ _));
    intros; simplify_eq; done.
Qed.

(** *** [generateInterviewFeedback]: the request body [makeRequest] *)

(** The structure a feedback request returns. Its fields are what the
    reply held, whatever their type, or the values put in their place. *)
Record Feedback := {
  strengths : Json;
  improvements : Json;
  overallScore : Json
}.

Record QA := { question : string; answer : string }.

Definition getDefaultFeedback : Feedback :=
  {| strengths := texts ["Unable to generate detailed feedback"];
     improvements := texts ["Please try again with more detailed answers"];
     overallScore := zero |}.

Definition noAnswersFeedback : Feedback :=
  {| strengths := texts ["No answers provided"];
     improvements := texts ["Please provide answers to the interview questions"];
     overallScore := zero |}.

(** [text.replace(/```json|```/g, '')]; [skip] characters of a fence that
    has been recognised are still to be dropped. *)
Fixpoint stripFences (skip : nat) (s : string) : string :=
  match s with
  | EmptyString => EmptyString
  | String c s' =>
      match skip with
      | S k => stripFences k s'
      | O =>
          if String.prefix "```json" s then stripFences 6 s'
          else if String.prefix "```" s then stripFences 2 s'
          else String c (stripFences 0 s')
      end
  end.

Definition parseFeedback (feedbackText : string) : Feedback :=
  let cleanedText := trim (stripFences 0 feedbackText) in
  match parse_json oracle cleanedText with
  | Some JNull =>
      (* reading a property of [null] throws *)
      getDefaultFeedback
  | Some parsedFeedback =>
      {| strengths :=
           orValue (property "strengths" parsedFeedback) (texts ["Response unclear"]);
         improvements :=
           orValue (property "improvements" parsedFeedback)
                   (texts ["Please provide more detailed answers"]);
         overallScore := orValue (property "overallScore" parsedFeedback) zero |}
  | None => getDefaultFeedback
  end.

Definition feedbackPass (retries : nat) (w : World) : Pass Feedback * World :=
  let '(c, w) := trackApiUsage w in
  if bool_decide (dailyQuota ≤ c)%N then
    (Return getDefaultFeedback, toast "API Quota Exhausted" w)
  else
    match fetch w with
    | (NetworkFailure, w) => (Return getDefaultFeedback, w)
    | (Reply status candidate, w) =>
        if negb (ok status) then
          if bool_decide (status = 429)%Z then
            (Return getDefaultFeedback, toast "Rate Limit Reached" w)
          else if bool_decide (retries < maxRetries)%nat then
            (Again (baseRetryDelay * 2 ^ Z.of_nat retries)%Z, w)
          else
            (Return getDefaultFeedback, toast "Error Generating Feedback" w)
        else
          match candidate with
          | Some text => (Return (parseFeedback (trim text)), w)
          | None => (Return getDefaultFeedback, w)
          end
    end.

Equations? makeFeedbackRequest (retries : nat) (w : World) : Feedback * World
    by wf (maxRetries - retries) lt :=
  makeFeedbackRequest retries w with inspect (feedbackPass retries w) => {
    | exist _ (Return v, w') _ := (v, w');
    | exist _ (Again delay, w') H := makeFeedbackRequest (S retries) (sleep delay w') }.
Proof.
  enough (retries < maxRetries)%nat by lia.
  revert H. unfold feedbackPass.
  destruct (trackApiUsage w) as [c w1].
  repeat (case_bool_decide || case_match); intros; simplify_eq; done.
Qed.

(** *** The request queue *)

(** What a gateway promise resolves with. *)
Inductive Value :=
| Text (question : string)
| Evaluation (feedback : Feedback).

(** The closure [() => makeRequest()] handed to [queueRequest]. The prompt
    and the generation options only shape the body of the request, which
    the oracle answers whatever it says; the closure keeps what the
    fallback needs. *)
Inductive Job :=
| QuestionJob (jobDescription : string) (previousQuestions : list string)
| FeedbackJob (jobDescription : string) (transcript : list QA).

(** An entry [{ resolve, reject, fn, retries }]; [promise] names the promise
    that [resolve] and [reject] settle. *)
Record Entry := {
  promise : nat;
  fn : Job;
  retries : nat
}.

(** Callbacks registered with [setTimeout] by [processQueue]. *)
Inductive Timer :=
| Throttled (delay : Z)    (* release the lock, then processQueue *)
| ProcessLater (delay : Z) (* processQueue *).

(** The module state: the credential, the mutable fields of [RATE_LIMIT],
    and the event loop around them: requests that were started and whose
    promise has not settled yet (with the value they settle with),
    pending timers, the promises that have settled, the number of promises
    created, and the browser. [ledgerFault] is what the first statement
    of [trackApiUsage], [JSON.parse(localStorage.getItem(usageKey) || '{}')],
    throws, if it throws: the storage cannot be read, or the text kept
    there is not JSON. When it is [None] the text is the JSON of the object
    [usage (world g)]. Only [trackApiUsage] writes that entry, after this
    statement, and it writes JSON: the field never changes. *)
Record Gateway := mkGateway {
  apiKey : string;
  requestQueue : list Entry;
  inProgress : Z;
  lastRequestTime : Z;
  queueLock : bool;
  inFlight : list (nat * Settled Value);
  timers : list Timer;
  settled : gmap nat (Settled Value);
  promises : nat;
  world : World;
  ledgerFault : option string
}.

Definition set_apiKey (k : string) (g : Gateway) : Gateway :=
  mkGateway k (requestQueue g) (inProgress g) (lastRequestTime g) (queueLock g)
            (inFlight g) (timers g) (settled g) (promises g) (world g)
            (ledgerFault g).
Definition set_requestQueue (q : list Entry) (g : Gateway) : Gateway :=
  mkGateway (apiKey g) q (inProgress g) (lastRequestTime g) (queueLock g)
            (inFlight g) (timers g) (settled g) (promises g) (world g)
            (ledgerFault g).
Definition set_inProgress (n : Z) (g : Gateway) : Gateway :=
  mkGateway (apiKey g) (requestQueue g) n (lastRequestTime g) (queueLock g)
            (inFlight g) (timers g) (settled g) (promises g) (world g)
            (ledgerFault g).
Definition set_lastRequestTime (t : Z) (g : Gateway) : Gateway :=
  mkGateway (apiKey g) (requestQueue g) (inProgress g) t (queueLock g)
            (inFlight g) (timers g) (settled g) (promises g) (world g)
            (ledgerFault g).
Definition set_queueLock (b : bool) (g : Gateway) : Gateway :=
  mkGateway (apiKey g) (requestQueue g) (inProgress g) (lastRequestTime g) b
            (inFlight g) (timers g) (settled g) (promises g) (world g)
            (ledgerFault g).
Definition set_inFlight (l : list (nat * Settled Value)) (g : Gateway) : Gateway :=
  mkGateway (apiKey g) (requestQueue g) (inProgress g) (lastRequestTime g) (queueLock g)
            l (timers g) (settled g) (promises g) (world g)
            (ledgerFault g).
Definition set_timers (l : list Timer) (g : Gateway) : Gateway :=
  mkGateway (apiKey g) (requestQueue g) (inProgress g) (lastRequestTime g) (queueLock g)
            (inFlight g) l (settled g) (promises g) (world g)
            (ledgerFault g).
Definition set_settled (m : gmap nat (Settled Value)) (g : Gateway) : Gateway :=
  mkGateway (apiKey g) (requestQueue g) (inProgress g) (lastRequestTime g) (queueLock g)
            (inFlight g) (timers g) m (promises g) (world g)
            (ledgerFault g).
Definition set_promises (n : nat) (g : Gateway) : Gateway :=
  mkGateway (apiKey g) (requestQueue g) (inProgress g) (lastRequestTime g) (queueLock g)
            (inFlight g) (timers g) (settled g) n (world g)
            (ledgerFault g).
Definition set_world (w : World) (g : Gateway) : Gateway :=
  mkGateway (apiKey g) (requestQueue g) (inProgress g) (lastRequestTime g) (queueLock g)
            (inFlight g) (timers g) (settled g) (promises g) w
            (ledgerFault g).

(** [makeRequest()] on a ledger that can be read: the request body runs
    and its promise resolves with what it returns. Between the start of a
    request and the moment its promise settles no other request body runs
    (the lock is held), so the body is run as one step. *)
Definition runJob (job : Job) (w : World) : Settled Value * World :=
  match job with
  | QuestionJob jd pq =>
      let '(q, w) := makeRequest jd pq 0 w in (Resolved (Text q), w)
  | FeedbackJob _ _ =>
      let '(f, w) := makeFeedbackRequest 0 w in (Resolved (Evaluation f), w)
  end.

(** [request.fn()], that is [makeRequest()]. Its first statement,
    [trackApiUsage()], stands before the [try]: when the ledger cannot be
    read, what is thrown there rejects the promise of the request, nothing
    having been counted, sent or shown. The retry
    [return makeRequest(retries + 1)] is not awaited either, but it reads
    the ledger that the first pass has just written. *)
Definition startJob (fault : option string) (job : Job) (w : World)
  : Settled Value * World :=
  match fault with
  | None => runJob job w
  | Some error => (Rejected error, w)
  end.

(** [processQueue]. The request it starts runs here to its end (see
    [startJob]); the callbacks of its promise are run by [settle]. *)
Definition processQueue (g : Gateway) : Gateway :=
  if queueLock g || bool_decide (length (requestQueue g) = 0)
     || bool_decide (Z.of_nat requestsPerMinute ≤ inProgress g)%Z
  then g
  else
    let g := set_queueLock true g in
    let now := now_at oracle (reads (world g)) in
    let g := set_world (tick (world g)) g in
    let elapsed := (now - lastRequestTime g)%Z in
    if bool_decide (elapsed < minInterval)%Z && bool_decide (0 < inProgress g)%Z then
      set_timers (timers g ++ [Throttled (minInterval - elapsed)]) g
    else
      match requestQueue g with
      | [] => set_queueLock false g
      | request :: rest =>
          let g := set_requestQueue rest g in
          let g := set_inProgress (inProgress g + 1) g in
          let g := set_lastRequestTime now g in
          let '(v, w) := startJob (ledgerFault g) (fn request) (world g) in
          set_inFlight (inFlight g ++ [(promise request, v)]) (set_world w g)
      end.

(** The promise a gateway operation hands back: already settled, or the
    promise of a queue entry. *)
Inductive Promise :=
| Now (s : Settled Value)
| Later (id : nat).

Definition overloaded : string := "Request queue overloaded".
Definition keyMissing : string := "Gemini API key not set".

(** [queueRequest] *)
Definition queueRequest (job : Job) (retries : nat) (g : Gateway) : Promise * Gateway :=
  if bool_decide (maxQueueSize ≤ length (requestQueue g))%nat then
    (Now (Rejected overloaded), g)
  else
    let id := promises g in
    let g := set_promises (S id) g in
    let g := set_requestQueue
               (requestQueue g ++ [{| promise := id; fn := job; retries := retries |}]) g in
    (Later id, processQueue g).

(** *** The credential *)

Definition initApiKey (g : Gateway) : Gateway :=
  if bool_decide (env_key oracle ≠ EmptyString) then set_apiKey (env_key oracle) g
  else
    match sessionKey (world g) with
    | Some storedKey =>
        if bool_decide (storedKey ≠ EmptyString) then set_apiKey storedKey g else g
    | None => g
    end.

Definition setGeminiApiKey (key : string) (g : Gateway) : bool * Gateway :=
  if bool_decide (key ≠ EmptyString) && bool_decide (trim key ≠ EmptyString) then
    (true, set_world (set_sessionKey (Some (trim key)) (world g))
             (set_apiKey (trim key) g))
  else (false, g).

(** *** The two operations *)

Definition generateInterviewQuestion (jobDescription : string)
    (previousQuestions previousAnswers : list string) (g : Gateway)
  : Promise * Gateway :=
  let g := if bool_decide (apiKey g = EmptyString) then initApiKey g else g in
  if bool_decide (apiKey g = EmptyString) then
    (Now (Rejected keyMissing), set_world (toast "API Key Missing" (world g)) g)
  else
    queueRequest (QuestionJob jobDescription previousQuestions) 0 g.

Definition hasValidAnswers (transcript : list QA) : bool :=
  some (λ item, bool_decide (0 < String.length (trim (answer item)))%nat) transcript.

Definition generateInterviewFeedback (jobDescription : string) (transcript : list QA)
    (g : Gateway) : Promise * Gateway :=
  let g := if bool_decide (apiKey g = EmptyString) then initApiKey g else g in
  if bool_decide (apiKey g = EmptyString) then
    (Now (Resolved (Evaluation getDefaultFeedback)),
     set_world (toast "API Key Missing" (world g)) g)
  else if negb (hasValidAnswers transcript) then
    (Now (Resolved (Evaluation noAnswersFeedback)), g)
  else
    queueRequest (FeedbackJob jobDescription transcript) 0 g.

(** *** The event loop *)

(** The [i]-th started request finishes: its [then]/[catch] callback
    settles the promise and [finally] releases the lock and schedules
    [processQueue]. *)
Definition settle (i : nat) (g : Gateway) : Gateway :=
  match inFlight g !! i with
  | Some (id, v) =>
      let g := set_inFlight (delete i (inFlight g)) g in
      let g := set_settled (<[id := v]> (settled g)) g in
      let g := set_inProgress (inProgress g - 1) g in
      let g := set_queueLock false g in
      set_timers (timers g ++ [ProcessLater 2000]) g
  | None => g
  end.

(** The [i]-th pending timer fires. *)
Definition fire (i : nat) (g : Gateway) : Gateway :=
  match timers g !! i with
  | Some t =>
      let g := set_timers (delete i (timers g)) g in
      match t with
      | Throttled _ => processQueue (set_queueLock false g)
      | ProcessLater _ => processQueue g
      end
  | None => g
  end.

(** What can happen to the gateway: a caller invokes an operation, a
    started request finishes, a timer fires. *)
Inductive Event :=
| CallQuestion (jobDescription : string) (previousQuestions previousAnswers : list string)
| CallFeedback (jobDescription : string) (transcript : list QA)
| SetKey (key : string)
| Settle (i : nat)
| Fire (i : nat).

Definition step (e : Event) (g : Gateway) : Gateway :=
  match e with
  | CallQuestion jd pq pa => snd (generateInterviewQuestion jd pq pa g)
  | CallFeedback jd tr => snd (generateInterviewFeedback jd tr g)
  | SetKey k => snd (setGeminiApiKey k g)
  | Settle i => settle i g
  | Fire i => fire i g
  end.

Definition exec (events : list Event) (g : Gateway) : Gateway :=
  foldl (λ g e, step e g) g events.

(** *** Notions used to state the properties *)

(** The gateway when the module has been loaded in a browser [w]; [fault]
    is what reading the ledger in that browser throws, if it throws. *)
Definition load (fault : option string) (w : World) : Gateway :=
  initApiKey (mkGateway (env_key oracle) [] 0 0 false [] [] ∅ 0 w fault).

(** The gateway when the module has been loaded in a browser [w] whose
    ledger can be read. *)
Definition boot (w : World) : Gateway := load None w.

(** The states the gateway can be in when the ledger can be read:
    [history] has happened since the module was loaded. *)
Definition after (history : list Event) (w : World) : Gateway :=
  exec history (boot w).

(** From now on the clock shows [day], and the ledger count of that day has
    reached the daily quota. *)
Definition QuotaReached (day : string) (w : World) : Prop :=
  (∀ k, reads w ≤ k → today_at oracle k = day) ∧ (dailyQuota ≤ count day w)%N.

(** The event loop turns [n] times: the request in flight finishes, the
    oldest timer fires. *)
Definition drain (n : nat) : list Event :=
  concat (replicate n [Settle 0; Fire 0]).

(** What holds of the queue in every state of the gateway: [inProgress]
    counts the requests in flight, of which there is at most one, the lock
    is held exactly while a request is in flight, no throttling timer is
    pending, and the promises of the entries are among those created so
    far. *)
Record Steady (g : Gateway) : Prop := {
  inv_inProgress : inProgress g = Z.of_nat (length (inFlight g));
  inv_single : length (inFlight g) ≤ 1;
  inv_lock : queueLock g = bool_decide (inFlight g ≠ []);
  inv_timers : ∀ t, t ∈ timers g → ∃ d, t = ProcessLater d;
  inv_queue_ids : ∀ e, e ∈ requestQueue g → promise e < promises g;
  inv_flight_ids : ∀ p, p ∈ inFlight g → p.1 < promises g;
  inv_settled_ids : ∀ i, is_Some (settled g !! i) → i < promises g
}.

(** Moreover a waiting entry will be looked at again: a request is in
    flight or a timer is pending. *)
Definition Inv (g : Gateway) : Prop :=
  Steady g ∧ (requestQueue g ≠ [] → inFlight g ≠ [] ∨ timers g ≠ []).

(** A promise [id] is followed through the gateway: [OfWorld] holds of the
    browser, the entries of the promise carry a job satisfying [OfJob], and
    the promise is in flight or settled only with a value satisfying
    [OfValue]. *)
Definition Tracked (OfWorld : World → Prop) (id : nat) (OfJob : Job → Prop)
    (OfValue : Settled Value → Prop) (g : Gateway) : Prop :=
  OfWorld (world g) ∧
  id < promises g ∧
  (∀ e, e ∈ requestQueue g → promise e = id → OfJob (fn e)) ∧
  (∀ v, (id, v) ∈ inFlight g → OfValue v) ∧
  (∀ v, settled g !! id = Some v → OfValue v).

(** Where the promise [id] stands: settled, in flight, or waiting with
    fewer than [n] entries before it. *)
Definition Pending (id : nat) (n : nat) (g : Gateway) : Prop :=
  is_Some (settled g !! id) ∨
  (∃ v, (id, v) ∈ inFlight g) ∨
  (∃ j e, j < n ∧ requestQueue g !! j = Some e ∧ promise e = id).

(** [processQueue] either leaves the gateway as it is, or arms a throttling
    timer, or starts the oldest entry. *)
Inductive ProcessQueue (g : Gateway) : Gateway → Prop :=
| pq_skip :
    queueLock g = true ∨ requestQueue g = [] ∨
      (Z.of_nat requestsPerMinute ≤ inProgress g)%Z →
    ProcessQueue g g
| pq_throttle d :
    queueLock g = false → (0 < inProgress g)%Z →
    ProcessQueue g
      (mkGateway (apiKey g) (requestQueue g) (inProgress g) (lastRequestTime g) true
         (inFlight g) (timers g ++ [Throttled d]) (settled g) (promises g)
         (tick (world g)) (ledgerFault g))
| pq_start request rest v w' :
    queueLock g = false →
    requestQueue g = request :: rest →
    (inProgress g < Z.of_nat requestsPerMinute)%Z →
    startJob (ledgerFault g) (fn request) (tick (world g)) = (v, w') →
    ProcessQueue g
      (mkGateway (apiKey g) rest (inProgress g + 1)
         (now_at oracle (reads (world g))) true
         (inFlight g ++ [(promise request, v)]) (timers g) (settled g) (promises g) w'
         (ledgerFault g)).


(** The credential a call finds: [apiKey], after [initApiKey] when it was
    empty. *)
Definition credential (g : Gateway) : string :=
  apiKey (if bool_decide (apiKey g = EmptyString) then initApiKey g else g).

End WithOracle.

End Gemini.

(** ** The dialogue component ([InterviewSession]) *)

Module InterviewSession.

Import Gemini.

(** [SessionType] of [pages/Interview]; an optional field is an [option]. *)
Record SessionType := {
  sessionId : string;
  role : option string;
  skillLevel : option string;
  jobDescription : option string;
  recording : option (list Blob);
  recordingUrl : option string;
  transcript : option (list QA);
  feedback : option Feedback;
  isCompleted : option bool
}.

(** A conversation turn [{ role, content }]; the field [role] is called
    [speaker] here, [role] being a field of [SessionType]. *)
Record Turn := { speaker : string; content : string }.

Definition assistantTurn (text : string) : Turn :=
  {| speaker := "assistant"; content := text |}.
Definition userTurn (text : string) : Turn :=
  {| speaker := "user"; content := text |}.

(** The state of the component: the [session] prop (owned by the page; the
    component receives [setSession] and never calls it), the [useState]
    cells, the refs [lastSpeechRef] and [responseTimeoutRef], and the texts
    handed to the speech synthesiser. *)
Record View := mkView {
  session : option SessionType;
  conversation : list Turn;
  currentQuestion : string;
  userResponse : string;
  aiResponse : string;
  isListening : bool;
  isProcessing : bool;
  waitingForResponse : bool;
  voiceEnabled : bool;
  synthesis : bool;
  lastSpeech : string;
  responseTimeout : bool;
  spoken : list string
}.

Definition setConversation (f : list Turn → list Turn) (v : View) : View :=
  mkView (session v) (f (conversation v)) (currentQuestion v) (userResponse v)
         (aiResponse v) (isListening v) (isProcessing v) (waitingForResponse v)
         (voiceEnabled v) (synthesis v) (lastSpeech v) (responseTimeout v) (spoken v).
Definition setCurrentQuestion (q : string) (v : View) : View :=
  mkView (session v) (conversation v) q (userResponse v)
         (aiResponse v) (isListening v) (isProcessing v) (waitingForResponse v)
         (voiceEnabled v) (synthesis v) (lastSpeech v) (responseTimeout v) (spoken v).
Definition setUserResponse (t : string) (v : View) : View :=
  mkView (session v) (conversation v) (currentQuestion v) t
         (aiResponse v) (isListening v) (isProcessing v) (waitingForResponse v)
         (voiceEnabled v) (synthesis v) (lastSpeech v) (responseTimeout v) (spoken v).
Definition setAiResponse (t : string) (v : View) : View :=
  mkView (session v) (conversation v) (currentQuestion v) (userResponse v)
         t (isListening v) (isProcessing v) (waitingForResponse v)
         (voiceEnabled v) (synthesis v) (lastSpeech v) (responseTimeout v) (spoken v).
Definition setIsListening (b : bool) (v : View) : View :=
  mkView (session v) (conversation v) (currentQuestion v) (userResponse v)
         (aiResponse v) b (isProcessing v) (waitingForResponse v)
         (voiceEnabled v) (synthesis v) (lastSpeech v) (responseTimeout v) (spoken v).
Definition setIsProcessing (b : bool) (v : View) : View :=
  mkView (session v) (conversation v) (currentQuestion v) (userResponse v)
         (aiResponse v) (isListening v) b (waitingForResponse v)
         (voiceEnabled v) (synthesis v) (lastSpeech v) (responseTimeout v) (spoken v).
Definition setWaitingForResponse (b : bool) (v : View) : View :=
  mkView (session v) (conversation v) (currentQuestion v) (userResponse v)
         (aiResponse v) (isListening v) (isProcessing v) b
         (voiceEnabled v) (synthesis v) (lastSpeech v) (responseTimeout v) (spoken v).
Definition setLastSpeech (t : string) (v : View) : View :=
  mkView (session v) (conversation v) (currentQuestion v) (userResponse v)
         (aiResponse v) (isListening v) (isProcessing v) (waitingForResponse v)
         (voiceEnabled v) (synthesis v) t (responseTimeout v) (spoken v).
Definition setResponseTimeout (b : bool) (v : View) : View :=
  mkView (session v) (conversation v) (currentQuestion v) (userResponse v)
         (aiResponse v) (isListening v) (isProcessing v) (waitingForResponse v)
         (voiceEnabled v) (synthesis v) (lastSpeech v) b (spoken v).
Definition setSpoken (l : list string) (v : View) : View :=
  mkView (session v) (conversation v) (currentQuestion v) (userResponse v)
         (aiResponse v) (isListening v) (isProcessing v) (waitingForResponse v)
         (voiceEnabled v) (synthesis v) (lastSpeech v) (responseTimeout v) l.

Definition speakText (text : string) (v : View) : View :=
  if voiceEnabled v && synthesis v then setSpoken (spoken v ++ [text]) v else v.

Definition greeting (s : option SessionType) : string :=
  match s ≫= role with
  | Some r =>
      if bool_decide (r = EmptyString) then "Hi! I'm your AI interviewer. How are you today?"
      else "Hi! I'm your AI interviewer for the " +:+ r +:+ " position. How are you today?"
  | None => "Hi! I'm your AI interviewer. How are you today?"
  end.

Definition startInterview (v : View) : View :=
  let g := greeting (session v) in
  speakText g (setConversation (λ _, [assistantTurn g]) (setCurrentQuestion g v)).

(** The call [generateAIResponse] makes:
    [generateInterviewQuestion('', conversation.map(msg => msg.content), [])]. *)
Definition generateAIResponse_call (conversation : list Turn) : Event :=
  CallQuestion EmptyString (map content conversation) [].

(** [generateAIResponse] after the gateway promise has settled with
    [reply]: an empty or blank answer is turned into an error. *)
Definition generateAIResponse (reply : Settled string) : Settled string :=
  match reply with
  | Resolved response =>
      if bool_decide (response = EmptyString) || bool_decide (trim response = EmptyString)
      then Rejected "Empty response from API"
      else Resolved response
  | Rejected e => Rejected e
  end.

Definition didNotCatch : string :=
  "I didn't quite catch that. Could you please rephrase or share more details?".
Definition thankYou : string :=
  "Thank you for the interview! I'll provide feedback shortly.".
Definition needMoreTime : string :=
  "It seems you need more time. Here's another question: Can you share an example of a project you're proud of?".

(** The assistant's text is shown, appended to the conversation and
    spoken. *)
Definition respond (text : string) (v : View) : View :=
  let v := setAiResponse text v in
  let v := setConversation (λ prev, prev ++ [assistantTurn text]) v in
  let v := setCurrentQuestion text v in
  speakText text v.

(** [handleUserSpeech] up to its [await]. [seen] is the [conversation] of
    the render whose closure is running. *)
Definition handleUserSpeech_start (seen : list Turn) (text : string) (v : View)
  : View * Event :=
  let v := setUserResponse text v in
  let v := setIsListening false v in
  let v := setResponseTimeout false v in
  let updatedConversation := seen ++ [userTurn text] in
  let v := setConversation (λ _, updatedConversation) v in
  let v := setWaitingForResponse false v in
  let v := setIsProcessing true v in
  (v, generateAIResponse_call updatedConversation).

(** [handleUserSpeech] from its [await] on, [reply] being what the gateway
    promise settled with. *)
Definition handleUserSpeech_resume (seen : list Turn) (text : string)
    (reply : Settled string) (v : View) : View :=
  let v :=
    match generateAIResponse reply with
    | Resolved aiResponseText => respond aiResponseText v
    | Rejected _ =>
        if negb (some (λ msg, bool_decide (content msg = didNotCatch)) seen) then
          let fallbackResponse :=
            if includes "done" (toLowerCase text) then thankYou else didNotCatch in
          respond fallbackResponse v
        else v
    end in
  setIsProcessing false v.

(** The function wrapped by [debounce]: what runs when the debounced call
    is delivered. It returns the gateway call it issued, if any. *)
Definition debouncedHandleUserSpeech (seen : list Turn) (text : string) (v : View)
  : View * option Event :=
  if bool_decide (text = lastSpeech v) then (v, None)
  else
    let v := setLastSpeech text v in
    let '(v, call) := handleUserSpeech_start seen text v in
    (v, Some call).

(** One recognised utterance from delivery to the end of the turn. *)
Definition utterance (seen : list Turn) (text : string) (reply : Settled string)
    (v : View) : View :=
  match debouncedHandleUserSpeech seen text v with
  | (v, Some _) => handleUserSpeech_resume seen text reply v
  | (v, None) => v
  end.

(** *** The handlers registered when the component mounts

    A handler reads the state cells through the closure of the render
    that created it; refs ([lastSpeechRef], [speechSynthesisRef]) and the
    setters reach the component as it is now. In the functions below [c]
    is the render whose closures run, of which [conversation],
    [voiceEnabled], [waitingForResponse] and [isListening] are read, and
    [v] is the component as it is now. ([handleUserSpeech_resume] above is
    the case of a render whose [voiceEnabled] is the current one.) *)

Definition speakTextIn (c : View) (text : string) (v : View) : View :=
  if voiceEnabled c && synthesis v then setSpoken (spoken v ++ [text]) v else v.

Definition respondIn (c : View) (text : string) (v : View) : View :=
  let v := setAiResponse text v in
  let v := setConversation (λ prev, prev ++ [assistantTurn text]) v in
  let v := setCurrentQuestion text v in
  speakTextIn c text v.

(** [handleUserSpeech] from its [await] on. *)
Definition handleUserSpeechIn (c : View) (text : string) (reply : Settled string)
    (v : View) : View :=
  let v :=
    match generateAIResponse reply with
    | Resolved aiResponseText => respondIn c aiResponseText v
    | Rejected _ =>
        if negb (some (λ msg, bool_decide (content msg = didNotCatch)) (conversation c))
        then
          let fallbackResponse :=
            if includes "done" (toLowerCase text) then thankYou else didNotCatch in
          respondIn c fallbackResponse v
        else v
    end in
  setIsProcessing false v.

(** [debouncedHandleUserSpeech]: one recognised utterance from the delivery
    of the debounced call to the end of the turn, and the gateway call
    issued for it, if any. *)
Definition turnIn (c : View) (text : string) (reply : Settled string) (v : View)
  : View * option Event :=
  match debouncedHandleUserSpeech (conversation c) text v with
  | (v, Some call) => (handleUserSpeechIn c text reply v, Some call)
  | (v, None) => (v, None)
  end.

(** [handleNoResponse], [reply] being what the gateway promise settles
    with. *)
Definition handleNoResponseIn (c : View) (reply : Settled string) (v : View) : View :=
  let v := setWaitingForResponse false v in
  let v := setIsProcessing true v in
  let v :=
    match generateAIResponse reply with
    | Resolved aiResponseText => respondIn c aiResponseText v
    | Rejected _ =>
        if negb (some (λ msg, bool_decide (content msg = needMoreTime)) (conversation c))
        then respondIn c needMoreTime v
        else v
    end in
  setIsProcessing false v.

(** The callback of the timer armed by [startResponseTimeout]:
    [if (waitingForResponse && !isListening) handleNoResponse()]. *)
Definition timeoutIn (c : View) (reply : Settled string) (v : View) : View :=
  if waitingForResponse c && negb (isListening c) then handleNoResponseIn c reply v
  else v.

(** The first render: the cells hold the initial values given to
    [useState], the refs are empty. *)
Definition firstRender (s : option SessionType) : View :=
  mkView s [] EmptyString EmptyString EmptyString false false false true false
         EmptyString false [].

(** The effect [useEffect(..., [])] runs once, after the first render:
    [initializeSpeechSynthesis()], where [supported] says whether the
    browser has [speechSynthesis], then [startInterview()]. *)
Definition mount (supported : bool) (s : option SessionType) : View :=
  let v := firstRender s in
  startInterview
    (mkView (session v) (conversation v) (currentQuestion v) (userResponse v)
            (aiResponse v) (isListening v) (isProcessing v) (waitingForResponse v)
            (voiceEnabled v) supported (lastSpeech v) (responseTimeout v) (spoken v)).

(** What that effect registers are closures of the first render, and they
    stay registered: the callback given to [onResult] by [setupMedia], the
    handler [onend] of the utterance, and the timer callback of the
    [startResponseTimeout] that this handler calls. *)
Definition onResult (s : option SessionType) (text : string) (reply : Settled string)
    (v : View) : View * option Event :=
  turnIn (firstRender s) text reply v.

Definition onend (v : View) : View :=
  let v := setIsProcessing false v in
  let v := setWaitingForResponse true v in
  setResponseTimeout true v.

Definition onTimeout (s : option SessionType) (reply : Settled string) (v : View)
  : View :=
  timeoutIn (firstRender s) reply v.

(** What happens to the mounted component: an utterance is recognised and
    its turn runs to its end, the synthesiser finishes speaking, the
    fifteen-second timer fires. *)
Inductive Moment :=
| Heard (text : string) (reply : Settled string)
| SpeechEnded
| TimerFired (reply : Settled string).

Definition moment (s : option SessionType) (m : Moment) (v : View) : View :=
  match m with
  | Heard text reply => (onResult s text reply v).1
  | SpeechEnded => onend v
  | TimerFired reply => onTimeout s reply v
  end.

(** The component after the moments [ms] have passed since it was
    mounted. *)
Definition dialogue (supported : bool) (s : option SessionType) (ms : list Moment)
  : View :=
  foldl (λ v m, moment s m v) (mount supported s) ms.

(** What the conversation of the mounted component holds: the greeting,
    or one exchange, whose assistant turn is a canned answer or the text
    the gateway resolved with. *)
Definition OneExchange (s : option SessionType) (ms : list Moment) (v : View) : Prop :=
  conversation v = [assistantTurn (greeting s)] ∨
  ∃ text reply said,
    Heard text reply ∈ ms ∧
    conversation v = [userTurn text; assistantTurn said] ∧
    (said = thankYou ∨ said = didNotCatch ∨ reply = Resolved said).

End InterviewSession.

(** ** Storing a recording ([db-service]) *)

Module DbService.

(** The remote store and the page as [storeRecording] meets them: whether
    Firebase is configured and [storage] is not null, the host name of the
    page, what [uploadBytes], [getDownloadURL], [getDoc] (does the session
    document exist) and [setDoc] settle with, whether the five-second timer
    fires before the upload promise settles, and the origin and the
    identifier that [URL.createObjectURL] puts in the URL of a blob. *)
Record Remote := {
  isFirebaseConfigured : bool;
  storage : bool;
  hostname : string;
  uploadBytes : string → Blob → Settled unit;
  getDownloadURL : string → Settled string;
  uploadTimesOut : bool;
  getDoc : string → Settled bool;
  setDoc : string → string → Settled unit;
  origin : string;
  objectId : Blob → string
}.

Section WithRemote.

Variable remote : Remote.

(** [URL.createObjectURL]: a URL of the [blob:] scheme. *)
Definition createObjectURL (b : Blob) : string :=
  "blob:" +:+ origin remote +:+ "/" +:+ objectId remote b.

Definition recordingPath (sessionId : string) : string :=
  "recordings/" +:+ sessionId +:+ ".webm".

(** Upload, then ask for the download URL. *)
Definition upload (sessionId : string) (videoBlob : Blob) : Settled string :=
  match uploadBytes remote (recordingPath sessionId) videoBlob with
  | Resolved _ => getDownloadURL remote (recordingPath sessionId)
  | Rejected e => Rejected e
  end.

(** [Promise.race] of the upload against the five-second timer. *)
Definition uploadOrTimeout (sessionId : string) (videoBlob : Blob) : Settled string :=
  if uploadTimesOut remote then Rejected "Upload timeout - possible CORS issue"
  else upload sessionId videoBlob.

(** The production flow: upload, then record the URL in the session
    document when there is one. *)
Definition uploadAndRecord (sessionId : string) (videoBlob : Blob) : Settled string :=
  match upload sessionId videoBlob with
  | Resolved downloadURL =>
      match getDoc remote sessionId with
      | Resolved true =>
          match setDoc remote sessionId downloadURL with
          | Resolved _ => Resolved downloadURL
          | Rejected e => Rejected e
          end
      | Resolved false => Resolved downloadURL
      | Rejected e => Rejected e
      end
  | Rejected e => Rejected e
  end.

Definition isLocalhost : bool :=
  bool_decide (hostname remote = "localhost") || bool_decide (hostname remote = "127.0.0.1").

(** The [try] block of [storeRecording]; the second component lists the
    toasts shown. *)
Definition storeRecording_try (sessionId : string) (recordingBlobs : list Blob)
  : Settled string * list string :=
  if bool_decide (length recordingBlobs = 0)%nat then
    (Rejected "No recording data provided", [])
  else
    let videoBlob := newBlob recordingBlobs "video/webm" in
    if negb (isFirebaseConfigured remote) || negb (storage remote) then
      (Resolved (createObjectURL videoBlob), [])
    else if isLocalhost then
      match uploadOrTimeout sessionId videoBlob with
      | Resolved result => (Resolved result, [])
      | Rejected _ => (Resolved (createObjectURL videoBlob), ["Local Development"])
      end
    else
      match uploadAndRecord sessionId videoBlob with
      | Resolved downloadURL => (Resolved downloadURL, [])
      | Rejected _ => (Resolved (createObjectURL videoBlob), ["Storage Error"])
      end.

(** [storeRecording]: the [try] block and the outer [catch]. *)
Definition storeRecording (sessionId : string) (recordingBlobs : list Blob)
  : Settled string * list string :=
  match storeRecording_try sessionId recordingBlobs with
  | (Resolved url, shown) => (Resolved url, shown)
  | (Rejected _, shown) =>
      let videoBlob := newBlob recordingBlobs "video/webm" in
      (Resolved (createObjectURL videoBlob), shown ++ ["Recording Saved Locally"])
  end.

End WithRemote.

End DbService.

(** ** The gateway, continued ([gemini-utils])

    The credential as the setup form reads and checks it, and the notions
    used to state what the queue, the ledger and the request bodies do. *)

Module Gateway.

Import Gemini.

(** [getGeminiApiKey]:
    [apiKey || sessionStorage.getItem('gemini_api_key') || ''] *)
Definition getGeminiApiKey (g : Gateway) : string :=
  if bool_decide (apiKey g ≠ EmptyString) then apiKey g
  else orElse (sessionKey (world g)) EmptyString.

(** [hasGeminiApiKey]: [!!getGeminiApiKey()] *)
Definition hasGeminiApiKey (g : Gateway) : bool :=
  bool_decide (getGeminiApiKey g ≠ EmptyString).

(** What the validation request of a key comes to: the [fetch] is
    rejected, or an answer with [status] arrives, whose body is JSON or is
    not (then [response.json()] is rejected). *)
Inductive Probe :=
| ProbeFailed
| ProbeReply (status : Z) (jsonBody : bool).

(** [validateApiKey]. The request goes to the endpoint directly: it is not
    queued and [trackApiUsage] is not called. *)
Definition validateApiKey (endpoint : string → Probe) (key : string) (w : World)
  : bool * World :=
  let w := sent w in
  match endpoint key with
  | ProbeFailed => (false, toast "Validation Error" w)
  | ProbeReply status jsonBody =>
      if negb (ok status) then
        if negb jsonBody then (false, toast "Validation Error" w)
        else if bool_decide (status = 429)%Z then (false, toast "API Quota Exhausted" w)
        else if bool_decide (status = 401)%Z then (false, toast "Invalid API Key" w)
        else (false, w)
      else (true, w)
  end.

Section WithOracle.

Variable oracle : Oracle.

(** The canned value of a request body: a fallback question, the default
    feedback. *)
Definition Canned (job : Job) (v : Settled Value) : Prop :=
  match job with
  | QuestionJob jd pq => ∃ q, v = Resolved (Text q) ∧ Fallback jd pq q
  | FeedbackJob _ _ => v = Resolved (Evaluation getDefaultFeedback)
  end.


(** The promises in the order of their creation: those numbered below [k]
    have settled, the others are in flight or wait, in this order. *)
Definition Ordered (g : Gateway) : Prop :=
  ∃ k, k ≤ promises g ∧ (∀ i, is_Some (settled g !! i) ↔ i < k) ∧
       map fst (inFlight g) ++ map promise (requestQueue g) = seq k (promises g - k).

(** What one pass of a request body does to the ledger while the clock
    shows [day]: it counts one, and it sends a request only if the new
    count is below the quota. *)
Definition Counted (day : string) (w w' : World) : Prop :=
  (∀ k, reads w' ≤ k → today_at oracle k = day) ∧
  count day w' = (count day w + 1)%N ∧
  (∀ d, d ≠ day → count d w' = count d w) ∧
  (fetches w' = fetches w ∨
   fetches w' = S (fetches w) ∧ (count day w' < dailyQuota)%N).

(** What a whole request body does: one count for the first pass and one
    for each wait, of which there are at most [left]. *)
Definition Metered (day : string) (left : nat) (w w' : World) : Prop :=
  ∃ waits, slept w' = slept w ++ waits ∧ length waits ≤ left ∧
    (∀ k, reads w' ≤ k → today_at oracle k = day) ∧
    count day w' = (count day w + 1 + N.of_nat (length waits))%N ∧
    (∀ d, d ≠ day → count d w' = count d w) ∧
    fetches w ≤ fetches w' ∧ fetches w' ≤ fetches w + 1 + length waits ∧
    (N.of_nat (fetches w') + N.min (count day w) (dailyQuota - 1) ≤
     N.of_nat (fetches w) + N.min (count day w') (dailyQuota - 1))%N.

(** The ledger and the requests sent since the browser was [w0], while the
    clock shows [day]. *)
Definition Capped (day : string) (w0 w : World) : Prop :=
  (∀ k, reads w ≤ k → today_at oracle k = day) ∧
  fetches w0 ≤ fetches w ∧
  (count day w0 ≤ count day w)%N ∧
  (N.of_nat (fetches w) + N.min (count day w0) (dailyQuota - 1) ≤
   N.of_nat (fetches w0) + N.min (count day w) (dailyQuota - 1))%N.

End WithOracle.

End Gateway.

(** ** The setup form ([InterviewSetup]) *)

Module InterviewSetup.

Import Gemini Gateway.

(** The [useState] cells of the form. *)
Record Form := mkForm {
  selectedRole : string;
  customRole : string;
  skillLevel : string;
  jobDescription : string;
  geminiApiKey : string;
  needsApiKey : bool;
  isValidating : bool
}.

Definition setNeedsApiKey (b : bool) (f : Form) : Form :=
  mkForm (selectedRole f) (customRole f) (skillLevel f) (jobDescription f)
         (geminiApiKey f) b (isValidating f).
Definition setIsValidating (b : bool) (f : Form) : Form :=
  mkForm (selectedRole f) (customRole f) (skillLevel f) (jobDescription f)
         (geminiApiKey f) (needsApiKey f) b.

(** [selectedRole === "Other" ? customRole : selectedRole] *)
Definition chosenRole (f : Form) : string :=
  if bool_decide (selectedRole f = "Other") then customRole f else selectedRole f.

(** The end of [handleStart], once the credential is settled: the role is
    checked and [onStart(role, skillLevel, jobDescription)] is called. The
    third component is that call, when it is made. *)
Definition handleStart_role (f : Form) (g : Gateway)
  : Form * Gateway * option (string * string * string) :=
  let role := chosenRole f in
  if bool_decide (trim role = EmptyString) then
    (f, set_world (toast "Role Required" (world g)) g, None)
  else (f, g, Some (role, skillLevel f, jobDescription f)).

(** [handleStart] *)
Definition handleStart (endpoint : string → Probe) (f : Form) (g : Gateway)
  : Form * Gateway * option (string * string * string) :=
  if needsApiKey f && bool_decide (trim (geminiApiKey f) ≠ EmptyString) then
    let f := setIsValidating true f in
    let '(isValid, w) := validateApiKey endpoint (trim (geminiApiKey f)) (world g) in
    let g := set_world w g in
    let f := setIsValidating false f in
    if negb isValid then (f, g, None)
    else
      let '(success, g) := setGeminiApiKey (trim (geminiApiKey f)) g in
      if success then
        handleStart_role (setNeedsApiKey false f)
                         (set_world (toast "API Key Saved" (world g)) g)
      else (f, set_world (toast "Error Saving API Key" (world g)) g, None)
  else if needsApiKey f then
    (f, set_world (toast "API Key Required" (world g)) g, None)
  else handleStart_role f g.

End InterviewSetup.

(** ** Recording the candidate ([webrtc-utils]) *)

Module WebRtc.

(** [VideoRecorder]: [mediaRecorder] is [None] when it is null and says
    otherwise whether the [state] of the recorder is "recording"; [stream]
    says whether a stream is held. *)
Record VideoRecorder := mkVideoRecorder {
  mediaRecorder : option bool;
  recordedChunks : list Blob;
  stream : bool
}.

(** [new VideoRecorder()] *)
Definition newVideoRecorder : VideoRecorder := mkVideoRecorder None [] false.

(** [initialize(stream)]; [constructed] says whether one of the three
    [new MediaRecorder(stream, options)] succeeds. When none does the
    method throws ([Rejected]), the stream and the chunks being set
    already. *)
Definition initialize (constructed : bool) (r : VideoRecorder)
  : Settled unit * VideoRecorder :=
  if constructed then (Resolved (), mkVideoRecorder (Some false) [] true)
  else (Rejected "Your browser doesn't support the required codecs for recording.",
        mkVideoRecorder (mediaRecorder r) [] true).

(** The handler of [dataavailable]; [data] is [event.data]. *)
Definition ondataavailable (data : option Blob) (r : VideoRecorder) : VideoRecorder :=
  match data with
  | Some blob =>
      if bool_decide (0 < length (bytes blob)) then
        mkVideoRecorder (mediaRecorder r) (recordedChunks r ++ [blob]) (stream r)
      else r
  | None => r
  end.

(** [start()]; [failure] is what [mediaRecorder.start(1000)] throws, if it
    throws. The chunks have been emptied by then. *)
Definition start (failure : option string) (r : VideoRecorder)
  : Settled unit * VideoRecorder :=
  match mediaRecorder r with
  | None | Some true => (Resolved (), r)
  | Some false =>
      match failure with
      | None => (Resolved (), mkVideoRecorder (Some true) [] (stream r))
      | Some e => (Rejected e, mkVideoRecorder (Some false) [] (stream r))
      end
  end.

(** [stop()]: the promise resolves with the chunks, at once when nothing
    is being recorded, else when the recorder has delivered its last data
    ([final]) and stopped. *)
Definition stop (final : option Blob) (r : VideoRecorder) : list Blob * VideoRecorder :=
  match mediaRecorder r with
  | Some true =>
      let r := ondataavailable final r in
      let r := mkVideoRecorder (Some false) (recordedChunks r) (stream r) in
      (recordedChunks r, r)
  | _ => (recordedChunks r, r)
  end.

Definition getRecordedChunks (r : VideoRecorder) : list Blob := recordedChunks r.

(** [createVideoBlob()]; [None] is [null]. *)
Definition createVideoBlob (r : VideoRecorder) : option Blob :=
  if bool_decide (length (recordedChunks r) = 0) then None
  else Some (newBlob (recordedChunks r) "video/webm").

Definition cleanup (r : VideoRecorder) : VideoRecorder := mkVideoRecorder None [] false.

(** What can happen to a recorder: a method is called, the media recorder
    delivers data (at any time: nothing is assumed of the browser), or it
    becomes inactive by itself. *)
Inductive Happening :=
| Initialize (constructed : bool)
| Start (failure : option string)
| DataAvailable (data : option Blob)
| Stop (final : option Blob)
| Inactive
| Cleanup.

Definition happen (h : Happening) (r : VideoRecorder) : VideoRecorder :=
  match h with
  | Initialize c => (initialize c r).2
  | Start f => (start f r).2
  | DataAvailable d => ondataavailable d r
  | Stop f => (stop f r).2
  | Inactive =>
      match mediaRecorder r with
      | Some _ => mkVideoRecorder (Some false) (recordedChunks r) (stream r)
      | None => r
      end
  | Cleanup => cleanup r
  end.

(** The recorder after [hs] has happened to a new one. *)
Definition record (hs : list Happening) : VideoRecorder :=
  foldl (λ r h, happen h r) newVideoRecorder hs.

(** The data the handler keeps: [event.data && event.data.size > 0]. *)
Definition nonEmpty (data : option Blob) : option Blob :=
  match data with
  | Some blob => if bool_decide (0 < length (bytes blob)) then Some blob else None
  | None => None
  end.

End WebRtc.

(** ** Saving sessions ([db-service]) *)

Module SessionStore.

Import Gemini InterviewSession.

(** [{ ...session, sessionId }] *)
Definition withSessionId (id : string) (s : SessionType) : SessionType :=
  {| sessionId := id; role := role s; skillLevel := skillLevel s;
     jobDescription := jobDescription s; recording := recording s;
     recordingUrl := recordingUrl s; transcript := transcript s;
     feedback := feedback s; isCompleted := isCompleted s |}.

(** [StoredSession]: the fields of a session (the type leaves [recording]
    out: callers pass none) and the time of saving. *)
Record StoredSession := { data : SessionType; timestamp : Z }.

(** A JavaScript object with string keys, as [JSON.parse] gives it: the
    entries in insertion order (the keys are session identifiers, none of
    which is an array index). *)
Definition Obj (V : Type) : Type := list (string * V).

(** [o[k]] *)
Fixpoint get {V} (k : string) (o : Obj V) : option V :=
  match o with
  | [] => None
  | (k', v) :: o' => if bool_decide (k' = k) then Some v else get k o'
  end.

(** [o[k] = v]: an existing key keeps its place. *)
Fixpoint assign {V} (k : string) (v : V) (o : Obj V) : Obj V :=
  match o with
  | [] => [(k, v)]
  | (k', v') :: o' =>
      if bool_decide (k' = k) then (k, v) :: o' else (k', v') :: assign k v o'
  end.

(** [Object.values(o)] *)
Definition values {V} (o : Obj V) : list V := map snd o.

(** [xs.sort((a, b) => b.timestamp - a.timestamp)]: the sort is stable, so
    an element is put before the first one that is not newer. *)
Fixpoint insertByTimestamp (x : StoredSession) (l : list StoredSession)
  : list StoredSession :=
  match l with
  | [] => [x]
  | y :: l' =>
      if bool_decide (timestamp y - timestamp x ≤ 0)%Z then x :: y :: l'
      else y :: insertByTimestamp x l'
  end.

Definition sortByTimestamp (l : list StoredSession) : list StoredSession :=
  foldr insertByTimestamp [] l.

(** Newest first. *)
Definition newerFirst (a b : StoredSession) : Prop := (timestamp b ≤ timestamp a)%Z.

(** The remote database and the environment of the module: whether
    [isFirebaseConfigured && db] holds, what [setDoc], [getDoc] (the data of
    the document when it exists) and the ordered [getDocs] settle with, what
    marking every document as deleted settles with, the clock and
    [uuidv4]. *)
Record Firestore := {
  usable : bool;
  setDoc : string → StoredSession → Settled unit;
  getDoc : string → Settled (option StoredSession);
  getDocs : Settled (list StoredSession);
  markAllDeleted : Settled unit;
  dateNow : nat → Z;
  uuidv4 : nat → string
}.

(** The browser: the object kept in [localStorage] under
    ['interviewSessions'] (no entry when the key is absent), the number of
    clock readings and of identifiers generated. *)
Record Browser := mkBrowser {
  interviewSessions : Obj StoredSession;
  clockReads : nat;
  identifiers : nat
}.

Section WithFirestore.

Variable db : Firestore.

(** [Date.now()] *)
Definition now (b : Browser) : Z * Browser :=
  (dateNow db (clockReads b),
   mkBrowser (interviewSessions b) (S (clockReads b)) (identifiers b)).

(** [session.sessionId || uuidv4()] *)
Definition idOf (session : SessionType) (b : Browser) : string * Browser :=
  if bool_decide (sessionId session ≠ EmptyString) then (sessionId session, b)
  else (uuidv4 db (identifiers b),
        mkBrowser (interviewSessions b) (clockReads b) (S (identifiers b))).

(** [localSessions[sessionId] = sessionData], written back. *)
Definition storeLocally (id : string) (s : StoredSession) (b : Browser) : Browser :=
  mkBrowser (assign id s (interviewSessions b)) (clockReads b) (identifiers b).

(** [saveSession]: the [try] block, then the [catch] block, which reads the
    clock and the identifier again. Its promise is followed to its end. *)
Definition saveSession (session : SessionType) (b : Browser) : Settled unit * Browser :=
  let '(timestamp, b) := now b in
  let '(id, b) := idOf session b in
  let sessionData := {| data := withSessionId id session; timestamp := timestamp |} in
  if negb (usable db) then (Resolved (), storeLocally id sessionData b)
  else
    match setDoc db id sessionData with
    | Resolved _ => (Resolved (), b)
    | Rejected _ =>
        let '(timestamp, b) := now b in
        let '(id, b) := idOf session b in
        (Resolved (),
         storeLocally id {| data := withSessionId id session; timestamp := timestamp |} b)
    end.

(** [getSession]; [None] is [null]. *)
Definition getSession (id : string) (b : Browser) : Settled (option StoredSession) :=
  if negb (usable db) then Resolved (get id (interviewSessions b))
  else
    match getDoc db id with
    | Resolved found => Resolved found
    | Rejected _ => Resolved (get id (interviewSessions b))
    end.

(** The local list: every entry is a session with its identifier and its
    timestamp, so the filter keeps them all. *)
Definition localList (b : Browser) : list StoredSession :=
  sortByTimestamp (values (interviewSessions b)).

Definition getAllSessions (b : Browser) : Settled (list StoredSession) :=
  if negb (usable db) then Resolved (localList b)
  else
    match getDocs db with
    | Resolved sessions => Resolved sessions
    | Rejected _ => Resolved (localList b)
    end.



End WithFirestore.

End SessionStore.

(** ** The interview page ([pages/Interview]) *)

Module InterviewPage.

Import Gemini InterviewSession DbService SessionStore.

(** The state of the page: its [useState] cells, the toasts shown and the
    browser store. *)
Record Page := mkPage {
  activeTab : string;
  session : option SessionType;
  isRecording : bool;
  isProcessing : bool;
  shown : list string;
  browserStore : Browser
}.

Definition setActiveTab (t : string) (p : Page) : Page :=
  mkPage t (session p) (isRecording p) (isProcessing p) (shown p) (browserStore p).
Definition setSession (s : option SessionType) (p : Page) : Page :=
  mkPage (activeTab p) s (isRecording p) (isProcessing p) (shown p) (browserStore p).
Definition setIsProcessing (b : bool) (p : Page) : Page :=
  mkPage (activeTab p) (session p) (isRecording p) b (shown p) (browserStore p).
Definition toast (titles : list string) (p : Page) : Page :=
  mkPage (activeTab p) (session p) (isRecording p) (isProcessing p) (shown p ++ titles)
         (browserStore p).
Definition setBrowserStore (b : Browser) (p : Page) : Page :=
  mkPage (activeTab p) (session p) (isRecording p) (isProcessing p) (shown p) b.

Section WithBackend.

Variable remote : Remote.
Variable db : Firestore.

(** [startInterview]; the promise of [saveSession] is followed to its
    end, its [catch] only logs. *)
Definition startInterview (role skillLevel jobDescription : string) (p : Page) : Page :=
  match session p with
  | Some s =>
      let p := setSession (Some
                 {| sessionId := sessionId s; role := Some role;
                    skillLevel := Some skillLevel; jobDescription := Some jobDescription;
                    recording := recording s; recordingUrl := recordingUrl s;
                    transcript := transcript s; feedback := feedback s;
                    isCompleted := Some false |}) p in
      let p := setActiveTab "session" p in
      let p := toast ["Interview Started"] p in
      let '(_, b) :=
        saveSession db
          {| sessionId := sessionId s; role := Some role;
             skillLevel := Some skillLevel; jobDescription := Some jobDescription;
             recording := None; recordingUrl := None;
             transcript := Some []; feedback := None;
             isCompleted := Some false |} (browserStore p) in
      setBrowserStore b p
  | None => p
  end.

(** [completeInterview]. Nothing in its [try] block throws outside the two
    handlers below, so the outer [catch] is not met. *)
Definition completeInterview (feedback : option Feedback) (p : Page) : Page :=
  match session p with
  | Some s =>
      let p := setIsProcessing true p in
      let '(url, p) :=
        match recording s with
        | Some (blob :: blobs) =>
            match storeRecording remote (sessionId s) (blob :: blobs) with
            | (Resolved url, titles) => (url, toast titles p)
            | (Rejected _, titles) => (EmptyString, toast (titles ++ ["Storage Note"]) p)
            end
        | _ => (EmptyString, p)
        end in
      let updatedSession :=
        {| sessionId := sessionId s; role := role s; skillLevel := skillLevel s;
           jobDescription := jobDescription s; recording := recording s;
           recordingUrl := Some url; transcript := transcript s;
           feedback := feedback; isCompleted := Some true |} in
      let p := setSession (Some updatedSession) p in
      let '(saved, b) :=
        saveSession db
          {| sessionId := sessionId updatedSession; role := role updatedSession;
             skillLevel := skillLevel updatedSession;
             jobDescription := jobDescription updatedSession;
             recording := None; recordingUrl := recordingUrl updatedSession;
             transcript := transcript updatedSession;
             feedback := InterviewSession.feedback updatedSession;
             isCompleted := Some true |} (browserStore p) in
      let p := setBrowserStore b p in
      let p := match saved with
               | Resolved _ => p
               | Rejected _ => toast ["Save Warning"] p
               end in
      let p := setActiveTab "feedback" p in
      let p := toast ["Interview Completed"] p in
      setIsProcessing false p
  | None => p
  end.

End WithBackend.

End InterviewPage.

(** ** Concrete situations *)

Module Scenarios.

Import Gemini InterviewSession DbService.

Definition day : string := "2025-06-01".

(** An endpoint that answers every request. *)
Definition answering : Oracle :=
  {| today_at := λ _, day;
     now_at := λ k, (1000 * Z.of_nat k)%Z;
     response_at := λ _, Reply 200 (Some "  Tell me about closures.  ");
     random_at := λ _, 3;
     parse_json := λ _, None;
     env_key := "test-key" |}.

(** An endpoint that answers every request with the status 429. *)
Definition limited : Oracle :=
  {| today_at := λ _, day;
     now_at := λ k, (1000 * Z.of_nat k)%Z;
     response_at := λ _, Reply 429 None;
     random_at := λ _, 3;
     parse_json := λ _, None;
     env_key := "test-key" |}.

(** An endpoint that fails with the status 500 first and answers 429
    afterwards. *)
Definition flaky : Oracle :=
  {| today_at := λ _, day;
     now_at := λ k, (1000 * Z.of_nat k)%Z;
     response_at := λ k, if bool_decide (k = 0) then Reply 500 None else Reply 429 None;
     random_at := λ _, 3;
     parse_json := λ _, None;
     env_key := "test-key" |}.

(** No credential at build time. *)
Definition keyless : Oracle :=
  {| today_at := λ _, day;
     now_at := λ k, (1000 * Z.of_nat k)%Z;
     response_at := λ _, Reply 200 (Some "Tell me about closures.");
     random_at := λ _, 3;
     parse_json := λ _, None;
     env_key := EmptyString |}.

(** A browser whose ledger shows [n] requests today and which stores no
    credential. *)
Definition browser (n : N) : World :=
  mkWorld {[ day := n ]} None 0 0 0 [] [].


(** Four calls in a row: the first is started, three wait. *)
Definition fourCalls : list Event :=
  [CallQuestion EmptyString [] []; CallQuestion EmptyString [] []; CallQuestion EmptyString [] [];
   CallQuestion EmptyString [] []].

(** U+00A0 NO-BREAK SPACE and U+2003 EM SPACE, in UTF-8. *)
Definition noBreakSpace : string :=
  String (ascii_of_nat 194) (String (ascii_of_nat 160) EmptyString).
Definition emSpace : string :=
  String (ascii_of_nat 226) (String (ascii_of_nat 128)
    (String (ascii_of_nat 131) EmptyString)).

Definition blankTranscript : list QA :=
  [ {| question := "Why this role?"; answer := "   " |};
    {| question := "Tell me about a project."; answer := EmptyString |};
    {| question := "Any questions for us?";
       answer := noBreakSpace +:+ " " +:+ emSpace |} ].

Definition answeredTranscript : list QA :=
  [ {| question := "Why this role?"; answer := "I like compilers." |} ].

(** A session as the page creates it, and a component that has greeted. *)
Definition freshSession : SessionType :=
  {| sessionId := "s-1"; role := Some "Software Engineer";
     skillLevel := Some "Intermediate"; jobDescription := Some EmptyString;
     recording := Some []; recordingUrl := None; transcript := Some [];
     feedback := None; isCompleted := Some false |}.

Definition greeted : View :=
  startInterview
    (mkView (Some freshSession) [] EmptyString EmptyString EmptyString false false false true true EmptyString false []).

(** A remote store that cannot be reached, seen from a deployed page. *)
Definition unreachable : Remote :=
  {| isFirebaseConfigured := true;
     storage := true;
     hostname := "interview.example.org";
     uploadBytes := λ _ _, Rejected "storage/retry-limit-exceeded";
     getDownloadURL := λ path, Resolved ("https://firebasestorage.googleapis.com/" +:+ path);
     uploadTimesOut := false;
     getDoc := λ _, Resolved true;
     setDoc := λ _ _, Resolved ();
     origin := "https://interview.example.org";
     objectId := λ _, "6f1c2d9e" |}.

(** A remote store that works, seen from a deployed page. *)
Definition reachable : Remote :=
  {| isFirebaseConfigured := true;
     storage := true;
     hostname := "interview.example.org";
     uploadBytes := λ _ _, Resolved ();
     getDownloadURL := λ path, Resolved ("https://firebasestorage.googleapis.com/" +:+ path);
     uploadTimesOut := false;
     getDoc := λ _, Resolved true;
     setDoc := λ _ _, Resolved ();
     origin := "https://interview.example.org";
     objectId := λ _, "6f1c2d9e" |}.

(** A remote store that takes the upload while its database refuses to be
    read, seen from a deployed page. *)
Definition unrecorded : Remote :=
  {| isFirebaseConfigured := true;
     storage := true;
     hostname := "interview.example.org";
     uploadBytes := λ _ _, Resolved ();
     getDownloadURL := λ path, Resolved ("https://firebasestorage.googleapis.com/" +:+ path);
     uploadTimesOut := false;
     getDoc := λ _, Rejected "permission-denied";
     setDoc := λ _ _, Resolved ();
     origin := "https://interview.example.org";
     objectId := λ _, "6f1c2d9e" |}.

(** A remote store that works, seen from a page served by localhost, the
    upload taking more than five seconds. *)
Definition slow : Remote :=
  {| isFirebaseConfigured := true;
     storage := true;
     hostname := "localhost";
     uploadBytes := λ _ _, Resolved ();
     getDownloadURL := λ path, Resolved ("https://firebasestorage.googleapis.com/" +:+ path);
     uploadTimesOut := true;
     getDoc := λ _, Resolved true;
     setDoc := λ _ _, Resolved ();
     origin := "http://localhost:8080";
     objectId := λ _, "6f1c2d9e" |}.

Definition fragments : list Blob :=
  [ {| bytes := [26%N; 69%N]; mime := "video/webm" |};
    {| bytes := [223%N; 163%N]; mime := "video/webm" |} ].

End Scenarios.

(** ** More concrete situations *)

Module Examples.

Import Gemini Gateway InterviewSession InterviewSetup WebRtc SessionStore InterviewPage.

(** Two calls, and the event loop until both have settled. *)
Definition twoTurns : list Event :=
  [CallQuestion EmptyString [] []; CallQuestion EmptyString [] [];
   Settle 0; Fire 0; Settle 0].

(** An endpoint that accepts every key. *)
Definition accepting : string → Probe := λ _, ProbeReply 200 true.

(** The setup form after the candidate has typed a key. *)
Definition typedKey : Form :=
  mkForm "Software Engineer" EmptyString "Intermediate" EmptyString
         ("  key-123 " +:+ Scenarios.noBreakSpace) true false.

(** No remote database: the sessions stay in the browser. *)
Definition offline : Firestore :=
  {| usable := false;
     setDoc := λ _ _, Rejected "unavailable";
     getDoc := λ _, Rejected "unavailable";
     getDocs := Rejected "unavailable";
     markAllDeleted := Rejected "unavailable";
     dateNow := λ k, (1700000000000 + 1000 * Z.of_nat k)%Z;
     uuidv4 := λ k, "generated-" +:+ String (ascii_of_nat (48 + k)) EmptyString |}.

(** A remote database that refuses every write and finds nothing. *)
Definition readOnly : Firestore :=
  {| usable := true;
     setDoc := λ _ _, Rejected "permission-denied";
     getDoc := λ _, Resolved None;
     getDocs := Resolved [];
     markAllDeleted := Resolved ();
     dateNow := λ k, (1700000000000 + 1000 * Z.of_nat k)%Z;
     uuidv4 := λ k, "generated-" +:+ String (ascii_of_nat (48 + k)) EmptyString |}.

Definition emptyBrowser : Browser := mkBrowser [] 0 0.

(** The page once its session has been created. *)
Definition freshPage : Page :=
  mkPage "setup" (Some Scenarios.freshSession) false false [] emptyBrowser.

Definition chunk : Blob := {| bytes := [26%N; 69%N]; mime := "video/webm" |}.
Definition emptyChunk : Blob := {| bytes := []; mime := "video/webm" |}.

End Examples.

(** * Properties of the gateway *)

Module GeminiFacts.

Import Gemini.

(** ** Unfolding [makeRequest] *)

Lemma makeRequest_return oracle jd pq retries w v w' :
  questionPass oracle jd pq retries w = (Return v, w') →
  makeRequest oracle jd pq retries w = (v, w').
Proof.
  intros H. rewrite makeRequest_equation_1.
  generalize (inspect (questionPass oracle jd pq retries w)).
  intros [[p w1] e].
  assert (p = Return v ∧ w1 = w') as [-> ->] by (split; congruence).
  reflexivity.
Qed.

Lemma makeRequest_again oracle jd pq retries w d w' :
  questionPass oracle jd pq retries w = (Again d, w') →
  makeRequest oracle jd pq retries w = makeRequest oracle jd pq (S retries) (sleep d w').
Proof.
  intros H. rewrite makeRequest_equation_1.
  generalize (inspect (questionPass oracle jd pq retries w)).
  intros [[p w1] e].
  assert (p = Again d ∧ w1 = w') as [-> ->] by (split; congruence).
  reflexivity.
Qed.

Lemma makeFeedbackRequest_return oracle retries w v w' :
  feedbackPass oracle retries w = (Return v, w') →
  makeFeedbackRequest oracle retries w = (v, w').
Proof.
  intros H. rewrite makeFeedbackRequest_equation_1.
  generalize (inspect (feedbackPass oracle retries w)).
  intros [[p w1] e].
  assert (p = Return v ∧ w1 = w') as [-> ->] by (split; congruence).
  reflexivity.
Qed.

Lemma makeFeedbackRequest_again oracle retries w d w' :
  feedbackPass oracle retries w = (Again d, w') →
  makeFeedbackRequest oracle retries w = makeFeedbackRequest oracle (S retries) (sleep d w').
Proof.
  intros H. rewrite makeFeedbackRequest_equation_1.
  generalize (inspect (feedbackPass oracle retries w)).
  intros [[p w1] e].
  assert (p = Again d ∧ w1 = w') as [-> ->] by (split; congruence).
  reflexivity.
Qed.

(** ** The usage ledger *)

(** What [trackApiUsage] does: it reads the clock once, adds one to the
    count of that day and returns the new count; it sends nothing. *)
Lemma trackApiUsage_spec oracle w c w' :
  trackApiUsage oracle w = (c, w') →
  let today := today_at oracle (reads w) in
  c = (count today w + 1)%N ∧
  count today w' = c ∧
  (∀ day, day ≠ today → count day w' = count day w) ∧
  reads w' = S (reads w) ∧
  fetches w' = fetches w ∧
  draws w' = draws w ∧
  slept w' = slept w ∧
  sessionKey w' = sessionKey w.
Proof.
  unfold trackApiUsage. intros [= <- <-]. simpl.
  set (today := today_at oracle (reads w)).
  assert (count today (tick w) = count today w) as -> by done.
  destruct (nearQuota _); simpl; unfold count; simpl;
    rewrite lookup_insert_eq; repeat split; try done;
    intros day Hne; by rewrite lookup_insert_ne.
Qed.

(** ** The fallback question *)

Lemma defaultQuestions_nonempty role q : q ∈ defaultQuestions role → q ≠ EmptyString.
Proof.
  unfold defaultQuestions. intros H.
  repeat (apply elem_of_cons in H as [-> | H]; [simpl; discriminate |]).
  by apply elem_of_nil in H.
Qed.

Lemma arrayIncludes_spec x xs : arrayIncludes x xs ↔ x ∈ xs.
Proof. unfold arrayIncludes. by rewrite bool_decide_spec. Qed.

Lemma getDefaultQuestion_spec oracle jd pq w q w' :
  getDefaultQuestion oracle jd pq w = (q, w') →
  Fallback jd pq q ∧
  usage w' = usage w ∧ reads w' = reads w ∧ fetches w' = fetches w ∧
  slept w' = slept w ∧ toasts w' = toasts w ∧ sessionKey w' = sessionKey w.
Proof.
  unfold getDefaultQuestion, randomIndex. intros [= <- <-].
  split; [| done].
  unfold Fallback, availableQuestions.
  set (pool := defaultQuestions (roleOf jd)).
  set (available := filter _ pool).
  destruct (available !! (random_at oracle (draws w) mod length available)) as [q|] eqn:Hq.
  - apply list_elem_of_lookup_2 in Hq.
    apply list_elem_of_filter in Hq as [Hnew Hpool].
    simpl. rewrite bool_decide_eq_false_2 by by eapply defaultQuestions_nonempty.
    left. split; [done |]. by rewrite <- arrayIncludes_spec.
  - simpl. right. split; [| done].
    apply lookup_ge_None in Hq.
    assert (available = []) as Hnil.
    { destruct available as [| a l]; [done |]. exfalso.
      pose proof (Nat.mod_upper_bound (random_at oracle (draws w)) (length (a :: l))) as Hlt.
      simpl in *. lia. }
    intros x Hx. destruct (decide (x ∈ pq)) as [|Hnot]; [done |]. exfalso.
    assert (x ∈ available) as Hin.
    { apply list_elem_of_filter. split; [| done]. by rewrite arrayIncludes_spec. }
    rewrite Hnil in Hin. by apply elem_of_nil in Hin.
Qed.

(** ** The queue *)

Global Opaque makeRequest makeFeedbackRequest.
Global Arguments runJob : simpl never.
Global Arguments startJob : simpl never.

Ltac setters :=
  cbv [set_apiKey set_requestQueue set_inProgress set_lastRequestTime set_queueLock
       set_inFlight set_timers set_settled set_promises set_world
       apiKey requestQueue inProgress lastRequestTime queueLock
       inFlight timers settled promises world ledgerFault] in *.

Section Machine.

Variable oracle : Oracle.

Lemma processQueue_cases g : ProcessQueue oracle g (processQueue oracle g).
Proof.
  destruct g as [k q ip lrt lock fl tm st pr w rd].
  unfold processQueue. setters.
  destruct lock; simpl; [by constructor; auto |].
  case_bool_decide as Hlen; simpl.
  { constructor. right. left. by destruct q. }
  case_bool_decide as Hrpm; simpl; [by constructor; auto |].
  case_bool_decide as Hel; simpl; [case_bool_decide as Hin; simpl |].
  - by apply (pq_throttle oracle (mkGateway k q ip lrt false fl tm st pr w rd)).
  - destruct q as [| request rest]; [done |].
    destruct (startJob oracle rd (fn request) (tick w)) as [v w'] eqn:Hrun.
    apply (pq_start oracle (mkGateway k (request :: rest) ip lrt false fl tm st pr w rd));
      simpl; [done | done | lia | done].
  - destruct q as [| request rest]; [done |].
    destruct (startJob oracle rd (fn request) (tick w)) as [v w'] eqn:Hrun.
    apply (pq_start oracle (mkGateway k (request :: rest) ip lrt false fl tm st pr w rd));
      simpl; [done | done | lia | done].
Qed.

Lemma Steady_idle g :
  Steady g → queueLock g = false → inFlight g = [] ∧ inProgress g = 0%Z.
Proof.
  intros [Hip _ Hl _ _ _ _] Hlock.
  rewrite Hlock in Hl. symmetry in Hl. apply bool_decide_eq_false in Hl.
  assert (inFlight g = []) as Hnil by (destruct (inFlight g); [done | by exfalso; apply Hl]).
  by rewrite Hip, Hnil.
Qed.

Lemma Steady_busy g :
  Steady g → queueLock g = true → ∃ p, inFlight g = [p].
Proof.
  intros [_ Hs Hl _ _ _ _] Hlock.
  rewrite Hlock in Hl. symmetry in Hl. apply bool_decide_eq_true in Hl.
  destruct (inFlight g) as [| p [| p' l]]; [done | eauto | simpl in Hs; lia].
Qed.

(** When the lock is free and an entry waits, [processQueue] starts it. *)
Lemma processQueue_starts g request rest :
  Steady g → queueLock g = false → requestQueue g = request :: rest →
  ∃ v w', startJob oracle (ledgerFault g) (fn request) (tick (world g)) = (v, w') ∧
    processQueue oracle g =
      mkGateway (apiKey g) rest 1
         (now_at oracle (reads (world g))) true
         [(promise request, v)] (timers g) (settled g) (promises g) w'
         (ledgerFault g).
Proof.
  intros HI Hlock Hq.
  destruct (Steady_idle g HI Hlock) as [Hnil Hip].
  destruct (processQueue_cases g) as [Hskip | d _ Hpos | request' rest' v w' _ Hq' _ Hrun].
  - exfalso. destruct Hskip as [? | [? | ?]]; [congruence | congruence |].
    unfold requestsPerMinute in *. lia.
  - lia.
  - rewrite Hq in Hq'. simplify_eq. rewrite Hnil, Hip. eauto.
Qed.

(** While the lock is held [processQueue] does nothing. *)
Lemma processQueue_locked g : queueLock g = true → processQueue oracle g = g.
Proof. intros H. unfold processQueue. by rewrite H. Qed.

Lemma processQueue_empty g : requestQueue g = [] → processQueue oracle g = g.
Proof.
  intros H. unfold processQueue. rewrite H. simpl.
  by rewrite orb_true_r.
Qed.

Lemma Inv_processQueue g : Steady g → Inv (processQueue oracle g).
Proof.
  intros HI. destruct (queueLock g) eqn:Hlock.
  - rewrite processQueue_locked by done. split; [done |].
    intros _. left. destruct (Steady_busy g HI Hlock) as [p ->]. done.
  - destruct (requestQueue g) as [| request rest] eqn:Hq.
    + rewrite processQueue_empty by done. split; [done |]. by rewrite Hq.
    + destruct (processQueue_starts g request rest HI Hlock Hq) as (v & w' & Hrun & ->).
      destruct HI as [_ Hsingle Hl Htim Hqi Hfi Hsi].
      split; [split |]; simpl; try done.
      * intros e He. apply Hqi. rewrite Hq. by right.
      * intros p Hp. apply list_elem_of_singleton in Hp as ->. simpl.
        apply Hqi. rewrite Hq. by left.
      * intros _. by left.
Qed.

Lemma Steady_push g job retries :
  Steady g →
  Steady (set_requestQueue
            (requestQueue (set_promises (S (promises g)) g) ++
               [{| promise := promises g; fn := job; retries := retries |}])
            (set_promises (S (promises g)) g)).
Proof.
  intros [Hip Hsingle Hl Htim Hqi Hfi Hsi].
  destruct g as [k q ip lrt lock fl tm st pr w rd]. setters.
  split; simpl; try done.
  - intros e He. apply elem_of_app in He as [He | He].
    + apply Hqi in He. lia.
    + apply list_elem_of_singleton in He as ->. simpl. lia.
  - intros p Hp. apply Hfi in Hp. lia.
  - intros i Hi. apply Hsi in Hi. lia.
Qed.

Lemma Inv_queueRequest g job retries :
  Inv g → Inv (snd (queueRequest oracle job retries g)).
Proof.
  intros HI. unfold queueRequest. case_bool_decide; [done |]. simpl.
  apply Inv_processQueue, Steady_push, HI.
Qed.

Lemma Inv_world g w : Inv g → Inv (set_world w g).
Proof. destruct g. intros [[] ?]. by split; [split |]. Qed.

Lemma Inv_apiKey g k : Inv g → Inv (set_apiKey k g).
Proof. destruct g. intros [[] ?]. by split; [split |]. Qed.

Lemma Inv_initApiKey g : Inv g → Inv (initApiKey oracle g).
Proof.
  intros HI. unfold initApiKey.
  repeat (case_bool_decide || case_match); auto using Inv_apiKey.
Qed.

Lemma Inv_settle i g : Inv g → Inv (settle i g).
Proof.
  intros [HS Hprog]. unfold settle.
  destruct (inFlight g !! i) as [[id v] |] eqn:Hi; [| done].
  destruct HS as [Hip Hsingle Hl Htim Hqi Hfi Hsi].
  destruct g as [k q ip lrt lock fl tm st pr w rd]. setters. simpl in *.
  destruct fl as [| p [| p' fl]]; [done | | simpl in Hsingle; lia].
  destruct i; [| done]. simpl in Hi. simplify_eq. simpl.
  split; [split |]; simpl.
  - lia.
  - lia.
  - done.
  - intros t Ht. apply elem_of_app in Ht as [Ht | Ht]; [by apply Htim |].
    apply list_elem_of_singleton in Ht. eauto.
  - done.
  - intros p Hp. by apply elem_of_nil in Hp.
  - intros j Hj. destruct (decide (j = id)) as [-> |].
    + apply (Hfi (id, v)). by left.
    + rewrite lookup_insert_ne in Hj by done. by apply Hsi.
  - intros _. right. by destruct tm.
Qed.

Lemma Steady_drop_timer i g :
  Steady g → Steady (set_timers (delete i (timers g)) g).
Proof.
  intros [Hip Hsingle Hl Htim Hqi Hfi Hsi].
  destruct g as [k q ip lrt lock fl tm st pr w rd]. setters. simpl in *.
  split; simpl; try done.
  intros t Ht. apply Htim. by eapply list_elem_of_delete_inv.
Qed.

Lemma Inv_fire i g : Inv g → Inv (fire oracle i g).
Proof.
  intros [HS Hprog]. unfold fire.
  destruct (timers g !! i) as [t |] eqn:Hi; [| done].
  destruct (inv_timers g HS t) as [d ->]; [by eapply list_elem_of_lookup_2 |].
  by apply Inv_processQueue, Steady_drop_timer.
Qed.

Lemma Inv_generateInterviewQuestion jd pq pa g :
  Inv g → Inv (snd (generateInterviewQuestion oracle jd pq pa g)).
Proof.
  intros HI. unfold generateInterviewQuestion.
  set (g1 := if bool_decide (apiKey g = EmptyString) then initApiKey oracle g else g).
  assert (Inv g1) by (unfold g1; case_bool_decide; auto using Inv_initApiKey).
  case_bool_decide; simpl; auto using Inv_world, Inv_queueRequest.
Qed.

Lemma Inv_generateInterviewFeedback jd tr g :
  Inv g → Inv (snd (generateInterviewFeedback oracle jd tr g)).
Proof.
  intros HI. unfold generateInterviewFeedback.
  set (g1 := if bool_decide (apiKey g = EmptyString) then initApiKey oracle g else g).
  assert (Inv g1) by (unfold g1; case_bool_decide; auto using Inv_initApiKey).
  case_bool_decide; simpl; [by auto using Inv_world |].
  destruct (hasValidAnswers tr); simpl; auto using Inv_queueRequest.
Qed.

Lemma Inv_setGeminiApiKey key g : Inv g → Inv (snd (setGeminiApiKey key g)).
Proof.
  intros HI. unfold setGeminiApiKey.
  destruct (_ && _); simpl; auto using Inv_world, Inv_apiKey.
Qed.

Lemma Inv_step e g : Inv g → Inv (step oracle e g).
Proof.
  destruct e; simpl;
    auto using Inv_generateInterviewQuestion, Inv_generateInterviewFeedback,
      Inv_setGeminiApiKey, Inv_settle, Inv_fire.
Qed.

Lemma exec_app events events' g :
  exec oracle (events ++ events') g = exec oracle events' (exec oracle events g).
Proof. unfold exec. apply foldl_app. Qed.

Lemma Inv_exec events g : Inv g → Inv (exec oracle events g).
Proof.
  revert g. induction events as [| e events IH]; intros g HI; [done |].
  simpl. apply IH, Inv_step, HI.
Qed.

Lemma Inv_load fault w : Inv (load oracle fault w).
Proof.
  apply Inv_initApiKey. split; [split |]; simpl; try done.
  { lia. }
  all: try (intros ? H; by apply elem_of_nil in H).
  intros i [v Hi]. by rewrite lookup_empty in Hi.
Qed.

Lemma Inv_boot w : Inv (boot oracle w).
Proof. apply Inv_load. Qed.

Lemma Inv_after history w : Inv (after oracle history w).
Proof. apply Inv_exec, Inv_boot. Qed.

(** ** The ledger entry is left as it is *)

Lemma ledgerFault_processQueue g :
  ledgerFault (processQueue oracle g) = ledgerFault g.
Proof. by destruct (processQueue_cases g). Qed.

Lemma ledgerFault_initApiKey g :
  ledgerFault (initApiKey oracle g) = ledgerFault g.
Proof.
  unfold initApiKey. repeat (case_bool_decide || case_match); by destruct g.
Qed.

Lemma ledgerFault_queueRequest job retries g :
  ledgerFault (snd (queueRequest oracle job retries g)) = ledgerFault g.
Proof.
  unfold queueRequest. case_bool_decide; [done |]. simpl.
  rewrite ledgerFault_processQueue. by destruct g.
Qed.

Lemma ledgerFault_step e g :
  ledgerFault (step oracle e g) = ledgerFault g.
Proof.
  destruct e as [jd pq pa | jd tr | key | i | i]; simpl.
  - unfold generateInterviewQuestion.
    repeat (case_bool_decide; simpl);
      rewrite ?ledgerFault_queueRequest, ?ledgerFault_initApiKey; done.
  - unfold generateInterviewFeedback.
    repeat (case_bool_decide; simpl); try destruct (hasValidAnswers tr); simpl;
      rewrite ?ledgerFault_queueRequest, ?ledgerFault_initApiKey; done.
  - unfold setGeminiApiKey. by destruct (_ && _).
  - unfold settle. by destruct (inFlight g !! i) as [[id v] |].
  - unfold fire. destruct (timers g !! i) as [[] |]; [| | done];
      by rewrite ledgerFault_processQueue.
Qed.

Lemma ledgerFault_exec events g :
  ledgerFault (exec oracle events g) = ledgerFault g.
Proof.
  revert g. induction events as [| e events IH]; intros g; [done |].
  simpl. by rewrite IH, ledgerFault_step.
Qed.

Lemma ledgerFault_load fault w :
  ledgerFault (load oracle fault w) = fault.
Proof. unfold load. by rewrite ledgerFault_initApiKey. Qed.

Lemma ledgerFault_after history w :
  ledgerFault (after oracle history w) = None.
Proof. unfold after, boot. by rewrite ledgerFault_exec, ledgerFault_load. Qed.

(** With a ledger that can be read, a request that starts runs its
    body. *)
Lemma startJob_readable job w : startJob oracle None job w = runJob oracle job w.
Proof. reflexivity. Qed.

(** ** Following one promise *)

Section Tracking.

Variable OfWorld : World → Prop.
Variable id : nat.
Variable OfJob : Job → Prop.
Variable OfValue : Settled Value → Prop.
Variable fault : option string.

Hypothesis world_tick : ∀ w, OfWorld w → OfWorld (tick w).
Hypothesis world_toast : ∀ t w, OfWorld w → OfWorld (toast t w).
Hypothesis world_key : ∀ k w, OfWorld w → OfWorld (set_sessionKey k w).
Hypothesis world_run :
  ∀ job w v w', OfWorld w → startJob oracle fault job w = (v, w') → OfWorld w'.
Hypothesis job_value :
  ∀ job w v w',
    OfWorld w → OfJob job → startJob oracle fault job w = (v, w') → OfValue v.

Local Abbreviation Followed := (Tracked OfWorld id OfJob OfValue).

(** What holds of the browser is kept by every event. *)
Lemma OfWorld_processQueue g :
  ledgerFault g = fault →
  OfWorld (world g) → OfWorld (world (processQueue oracle g)).
Proof.
  intros Hrd HW.
  destruct (processQueue_cases g)
    as [| d Hlock Hpos | request rest v w' Hlock Hqueue Hrpm Hrun]; simpl; auto.
  rewrite Hrd in Hrun. eapply world_run; [| done]. auto.
Qed.

Lemma OfWorld_queueRequest job retries g :
  ledgerFault g = fault →
  OfWorld (world g) → OfWorld (world (snd (queueRequest oracle job retries g))).
Proof.
  intros Hrd HW. unfold queueRequest. case_bool_decide; [done |]. simpl.
  apply OfWorld_processQueue; by destruct g.
Qed.

Lemma world_initApiKey g : world (initApiKey oracle g) = world g.
Proof.
  unfold initApiKey. repeat (case_bool_decide || case_match); by destruct g.
Qed.

Lemma OfWorld_step e g :
  ledgerFault g = fault →
  OfWorld (world g) → OfWorld (world (step oracle e g)).
Proof.
  intros Hrd HW. destruct e as [jd pq pa | jd tr | key | i | i]; simpl.
  - unfold generateInterviewQuestion.
    set (g1 := if bool_decide (apiKey g = EmptyString) then initApiKey oracle g else g).
    assert (OfWorld (world g1) ∧ ledgerFault g1 = fault) as [H1 Hrd1]
      by (unfold g1; case_bool_decide;
          by rewrite ?world_initApiKey, ?ledgerFault_initApiKey).
    case_bool_decide; simpl; [| by apply OfWorld_queueRequest].
    destruct g1. simpl in *. by apply world_toast.
  - unfold generateInterviewFeedback.
    set (g1 := if bool_decide (apiKey g = EmptyString) then initApiKey oracle g else g).
    assert (OfWorld (world g1) ∧ ledgerFault g1 = fault) as [H1 Hrd1]
      by (unfold g1; case_bool_decide;
          by rewrite ?world_initApiKey, ?ledgerFault_initApiKey).
    case_bool_decide; simpl; [destruct g1; simpl in *; by apply world_toast |].
    destruct (hasValidAnswers tr); simpl; [by apply OfWorld_queueRequest | done].
  - unfold setGeminiApiKey. destruct (_ && _); simpl; [| done].
    destruct g. simpl in *. by apply world_key.
  - unfold settle. destruct (inFlight g !! i) as [[id' v] |]; [| done]. by destruct g.
  - unfold fire. destruct (timers g !! i) as [[] |]; [| | done];
      apply OfWorld_processQueue; by destruct g.
Qed.

Lemma OfWorld_exec events g :
  ledgerFault g = fault →
  OfWorld (world g) → OfWorld (world (exec oracle events g)).
Proof.
  revert g. induction events as [| e events IH]; intros g Hrd HW; [done |].
  simpl. apply IH; [by rewrite ledgerFault_step | by apply OfWorld_step].
Qed.

Lemma Tracked_processQueue g :
  ledgerFault g = fault → Followed g → Followed (processQueue oracle g).
Proof.
  intros Hrd (HW & Hid & Hq & Hf & Hs).
  destruct (processQueue_cases g)
    as [| d Hlock Hpos | request rest v w' Hlock Hqueue Hrpm Hrun].
  - done.
  - repeat split; simpl; auto.
  - rewrite Hrd in Hrun. repeat split; simpl; auto.
    + eapply world_run; [| done]. auto.
    + intros e He. apply Hq. rewrite Hqueue. by right.
    + intros v' Hv'. apply elem_of_app in Hv' as [Hv' | Hv']; [by apply Hf |].
      apply list_elem_of_singleton in Hv'. simplify_eq.
      eapply job_value; [| | done]; [auto |].
      apply Hq; [| done]. rewrite Hqueue. by left.
Qed.

Lemma Tracked_queueRequest job retries g :
  ledgerFault g = fault →
  Followed g → Followed (snd (queueRequest oracle job retries g)).
Proof.
  intros Hrd HT. unfold queueRequest. case_bool_decide; [done |]. simpl.
  apply Tracked_processQueue; [by destruct g |].
  destruct HT as (HW & Hid & Hq & Hf & Hs).
  destruct g as [k q ip lrt lock fl tm st pr w rd]. setters. simpl in *.
  repeat split; simpl; auto.
  intros e He Hp. apply elem_of_app in He as [He | He]; [by apply Hq |].
  apply list_elem_of_singleton in He as ->. simpl in Hp. lia.
Qed.

Lemma Tracked_world g w : Followed g → OfWorld w → Followed (set_world w g).
Proof. destruct g. intros (HW & Hid & Hq & Hf & Hs) ?. by repeat split. Qed.

Lemma Tracked_apiKey g k : Followed g → Followed (set_apiKey k g).
Proof. destruct g. intros (HW & Hid & Hq & Hf & Hs). by repeat split. Qed.

Lemma Tracked_initApiKey g : Followed g → Followed (initApiKey oracle g).
Proof.
  intros HT. unfold initApiKey.
  repeat (case_bool_decide || case_match); auto using Tracked_apiKey.
Qed.

Lemma Tracked_settle i g : Followed g → Followed (settle i g).
Proof.
  intros (HW & Hid & Hq & Hf & Hs). unfold settle.
  destruct (inFlight g !! i) as [[id' v] |] eqn:Hi; [| done].
  destruct g as [k q ip lrt lock fl tm st pr w rd]. setters. simpl in *.
  repeat split; simpl; auto.
  - intros v' Hv'. apply Hf. by eapply list_elem_of_delete_inv.
  - intros v' Hv'. destruct (decide (id' = id)) as [-> |].
    + rewrite lookup_insert_eq in Hv'. simplify_eq.
      apply Hf. by eapply list_elem_of_lookup_2.
    + rewrite lookup_insert_ne in Hv' by done. by apply Hs.
Qed.

Lemma Tracked_fire i g :
  ledgerFault g = fault → Followed g → Followed (fire oracle i g).
Proof.
  intros Hrd HT. unfold fire.
  destruct (timers g !! i) as [t |] eqn:Hi; [| done].
  assert (∀ b, Followed (set_queueLock b (set_timers (delete i (timers g)) g))) as H.
  { intros b. destruct HT as (HW & Hid & Hq & Hf & Hs).
    destruct g. by repeat split. }
  assert (Followed (set_timers (delete i (timers g)) g)) as H'.
  { destruct HT as (HW & Hid & Hq & Hf & Hs). destruct g. by repeat split. }
  destruct t; apply Tracked_processQueue; try done; by destruct g.
Qed.

Lemma Tracked_step e g :
  ledgerFault g = fault → Followed g → Followed (step oracle e g).
Proof.
  intros Hrd HT. destruct e as [jd pq pa | jd tr | key | i | i]; simpl.
  - unfold generateInterviewQuestion.
    set (g1 := if bool_decide (apiKey g = EmptyString) then initApiKey oracle g else g).
    assert (Followed g1 ∧ ledgerFault g1 = fault) as [H1 Hrd1]
      by (unfold g1; case_bool_decide;
          rewrite ?ledgerFault_initApiKey; auto using Tracked_initApiKey).
    case_bool_decide; simpl; [| by apply Tracked_queueRequest].
    apply Tracked_world; [done |]. apply world_toast, H1.
  - unfold generateInterviewFeedback.
    set (g1 := if bool_decide (apiKey g = EmptyString) then initApiKey oracle g else g).
    assert (Followed g1 ∧ ledgerFault g1 = fault) as [H1 Hrd1]
      by (unfold g1; case_bool_decide;
          rewrite ?ledgerFault_initApiKey; auto using Tracked_initApiKey).
    case_bool_decide; simpl.
    { apply Tracked_world; [done |]. apply world_toast, H1. }
    destruct (hasValidAnswers tr); simpl; [by apply Tracked_queueRequest | done].
  - unfold setGeminiApiKey. destruct (_ && _); simpl; [| done].
    apply Tracked_world; [by apply Tracked_apiKey |].
    destruct HT as (HW & _). destruct g. simpl in *. by apply world_key.
  - by apply Tracked_settle.
  - by apply Tracked_fire.
Qed.

Lemma Tracked_exec events g :
  ledgerFault g = fault → Followed g → Followed (exec oracle events g).
Proof.
  revert g. induction events as [| e events IH]; intros g Hrd HT; [done |].
  simpl. apply IH; [by rewrite ledgerFault_step | by apply Tracked_step].
Qed.

(** A call that is accepted creates the promise that is followed. *)
Lemma Tracked_enqueued job retries g g' :
  ledgerFault g = fault →
  Inv g → OfWorld (world g) → OfJob job →
  queueRequest oracle job retries g = (Later id, g') →
  Followed g'.
Proof.
  intros Hrd [HS _] HW HJ. unfold queueRequest.
  case_bool_decide; [done |]. intros [= Hid <-].
  apply Tracked_processQueue; [by destruct g |].
  destruct HS as [_ _ _ _ Hqi Hfi Hsi].
  destruct g as [k q ip lrt lock fl tm st pr w rd]. setters. simpl in *.
  repeat split; simpl; auto.
  - lia.
  - intros e He Hp. apply elem_of_app in He as [He | He].
    + apply Hqi in He. lia.
    + by apply list_elem_of_singleton in He as ->.
  - intros v Hv. apply Hfi in Hv. simpl in Hv. lia.
  - intros v Hv. assert (id < pr); [| lia]. apply Hsi. by exists v.
Qed.

End Tracking.

(** ** The queue drains *)

Lemma settled_step e g i :
  is_Some (settled g !! i) → is_Some (settled (step oracle e g) !! i).
Proof.
  intros Hi.
  assert (∀ g', ProcessQueue oracle g g' → settled g' = settled g) as Hpq
    by (intros g' []; done).
  assert (∀ g, settled (processQueue oracle g) = settled g) as Hp.
  { intros g0. by destruct (processQueue_cases g0). }
  assert (∀ g, settled (initApiKey oracle g) = settled g) as Hinit.
  { intros g0. unfold initApiKey. repeat (case_bool_decide || case_match); by destruct g0. }
  assert (∀ job r g, settled (snd (queueRequest oracle job r g)) = settled g) as Hqr.
  { intros job r g0. unfold queueRequest. case_bool_decide; [done |]. simpl.
    rewrite Hp. by destruct g0. }
  destruct e as [jd pq pa | jd tr | key | j | j]; simpl.
  - unfold generateInterviewQuestion.
    case_bool_decide; repeat (case_bool_decide; simpl); rewrite ?Hqr, ?Hinit; done.
  - unfold generateInterviewFeedback.
    case_bool_decide; repeat (case_bool_decide; simpl);
      try destruct (hasValidAnswers tr); simpl; rewrite ?Hqr, ?Hinit; done.
  - unfold setGeminiApiKey. by destruct (_ && _).
  - unfold settle. destruct (inFlight g !! j) as [[id v] |]; [| done].
    simpl. destruct (decide (id = i)) as [-> |].
    + rewrite lookup_insert_eq. eauto.
    + by rewrite lookup_insert_ne.
  - unfold fire. destruct (timers g !! j) as [[] |]; [| | done]; by rewrite Hp.
Qed.

Lemma settled_exec events g i :
  is_Some (settled g !! i) → is_Some (settled (exec oracle events g) !! i).
Proof.
  revert g. induction events as [| e events IH]; intros g H; [done |].
  simpl. by apply IH, settled_step.
Qed.

(** One turn of the event loop: what was in flight is settled and the
    oldest waiting entry is started. *)
Lemma turn_advances g e rest :
  Inv g → requestQueue g = e :: rest →
  let g' := exec oracle [Settle 0; Fire 0] g in
  requestQueue g' = rest ∧
  (∃ v, inFlight g' = [(promise e, v)]) ∧
  (∀ p, p ∈ inFlight g → is_Some (settled g' !! p.1)).
Proof.
  intros HI Hq. simpl.
  assert (Inv (settle 0 g)) as HI1 by by apply Inv_settle.
  assert (queueLock (settle 0 g) = false ∧ requestQueue (settle 0 g) = e :: rest ∧
          timers (settle 0 g) ≠ [] ∧
          ∀ p, p ∈ inFlight g → is_Some (settled (settle 0 g) !! p.1)) as (Hl & Hq1 & Ht & Hs).
  { destruct HI as [HS Hprog]. unfold settle.
    destruct (queueLock g) eqn:Hlock.
    - destruct (Steady_busy g HS Hlock) as [[i v] Hf]. rewrite Hf. simpl.
      repeat split; [done | by destruct (timers g) |].
      intros p Hp. apply list_elem_of_singleton in Hp as ->. simpl.
      rewrite lookup_insert_eq. eauto.
    - destruct (Steady_idle g HS Hlock) as [Hf _]. rewrite Hf. simpl.
      repeat split; [done | done | |].
      + destruct Hprog as [|]; [by rewrite Hq | by rewrite Hf in * | done].
      + intros p Hp. by apply elem_of_nil in Hp. }
  set (g1 := settle 0 g) in *.
  unfold fire. destruct (timers g1) as [| t tm] eqn:Htm; [done |]. simpl.
  destruct HI1 as [HS1 _].
  destruct (inv_timers g1 HS1 t) as [d ->]; [rewrite Htm; by left |].
  pose proof (Steady_drop_timer 0 g1 HS1) as HS2. rewrite Htm in HS2. simpl in HS2.
  destruct (processQueue_starts (set_timers tm g1) e rest HS2) as (v & w' & Hrun & ->).
  { by destruct g1. }
  { by destruct g1. }
  simpl. split; [done |]. split; [eauto |].
  intros p Hp. destruct g1. by apply Hs.
Qed.

Lemma drain_settles id n g :
  Inv g → Pending id n g → is_Some (settled (exec oracle (drain (S n)) g) !! id).
Proof.
  revert g. induction n as [| n IH]; intros g HI HP.
  - destruct HP as [Hs | [[v Hf] | (j & e & Hj & _)]]; [| | lia].
    + by apply settled_exec.
    + unfold drain. simpl. apply (settled_step (Fire 0)).
      destruct HI as [HS _]. unfold settle.
      destruct (inFlight g) as [| p [| p' l]] eqn:Hfl.
      * by apply elem_of_nil in Hf.
      * apply list_elem_of_singleton in Hf as <-. simpl.
        rewrite lookup_insert_eq. eauto.
      * pose proof (inv_single g HS) as Hlen. rewrite Hfl in Hlen. simpl in Hlen. lia.
  - change (drain (S (S n))) with ([Settle 0; Fire 0] ++ drain (S n)).
    rewrite exec_app.
    destruct HP as [Hs | [[v Hf] | (j & e & Hj & Hlook & Hid)]].
    + by apply settled_exec, settled_exec.
    + apply settled_exec.
      destruct (requestQueue g) as [| e rest] eqn:Hq.
      * simpl. apply (settled_step (Fire 0)).
        destruct HI as [HS _]. unfold settle.
        destruct (inFlight g) as [| p [| p' l]] eqn:Hfl.
        -- by apply elem_of_nil in Hf.
        -- apply list_elem_of_singleton in Hf as <-. simpl.
           rewrite lookup_insert_eq. eauto.
        -- pose proof (inv_single g HS) as Hlen. rewrite Hfl in Hlen. simpl in Hlen. lia.
      * destruct (turn_advances g e rest HI Hq) as (_ & _ & Hs).
        by apply (Hs (id, v)).
    + destruct (requestQueue g) as [| e0 rest] eqn:Hq; [done |].
      destruct (turn_advances g e0 rest HI Hq) as (Hq' & [v Hf'] & Hs).
      apply IH; [by apply Inv_exec |].
      destruct j as [| j]; simpl in Hlook.
      * simplify_eq. right. left. exists v. rewrite Hf'. by left.
      * right. right. exists j, e. rewrite Hq'. split; [lia | done].
Qed.

End Machine.

(** ** Request bodies *)

Global Arguments getDefaultQuestion : simpl never.
Global Arguments trackApiUsage : simpl never.
Section Passes.
Variable oracle : Oracle.

(** ** One pass of a request body *)

(** A pass of the question body leaves the delays alone and sends at most
    one request; it asks for another pass only after a reply that is not a
    success, while retries remain; what it returns is the trimmed text of a
    successful reply or a fallback question. *)
Lemma questionPass_cases jd pq retries w p w' :
  questionPass oracle jd pq retries w = (p, w') →
  slept w' = slept w ∧
  match p with
  | Again d =>
      retries < maxRetries ∧ fetches w' = S (fetches w) ∧
      ∃ s c, response_at oracle (fetches w) = Reply s c ∧ ok s = false ∧
        d = if bool_decide (s = 429)%Z then quotaRetryDelay
            else (baseRetryDelay * 2 ^ Z.of_nat retries)%Z
  | Return v =>
      (Fallback jd pq v ∧ fetches w' ≤ S (fetches w) ∧ fetches w ≤ fetches w') ∨
      (∃ s text, response_at oracle (fetches w) = Reply s (Some text) ∧
         ok s = true ∧ v = trim text ∧ fetches w' = S (fetches w))
  end.
Proof.
  unfold questionPass, fallbackQuestion, fetch.
  destruct (trackApiUsage oracle w) as [n w1] eqn:Htrack.
  apply trackApiUsage_spec in Htrack as (_ & _ & _ & _ & Hf & _ & Hs & _).
  rewrite <- Hf, <- Hs.
  assert (∀ t w2 v w3, getDefaultQuestion oracle jd pq w2 = (v, w3) →
            slept w2 = slept w1 → fetches w2 ≤ S (fetches w1) → fetches w1 ≤ fetches w2 →
            slept w3 = slept w1 ∧
            (Fallback jd pq v ∧ fetches w3 ≤ S (fetches w1) ∧ fetches w1 ≤ fetches w3 ∨ t)) as Hfb.
  { intros t w2 v w3 Hq ? ? ?. apply getDefaultQuestion_spec in Hq as (? & _ & _ & Hf3 & Hs3 & _).
    rewrite Hf3, Hs3. auto. }
  case_bool_decide.
  { destruct (getDefaultQuestion _ _ _ _) as [v w3] eqn:Hq. intros [= <- <-].
    eapply Hfb; [done | done | simpl; lia | simpl; lia]. }
  destruct (response_at oracle (fetches w1)) as [| s c] eqn:Hr.
  { destruct (getDefaultQuestion _ _ _ _) as [v w3] eqn:Hq. intros [= <- <-].
    eapply Hfb; [done | done | simpl; lia | simpl; lia]. }
  destruct (ok s) eqn:Hok; cbn [negb].
  - destruct c as [text |].
    + intros [= <- <-]. split; [done |]. right. by exists s, text.
    + destruct (getDefaultQuestion _ _ _ _) as [v w3] eqn:Hq. intros [= <- <-].
      eapply Hfb; [done | done | simpl; lia | simpl; lia].
  - case_bool_decide as H429; case_bool_decide as Hretry.
    + intros [= <- <-]. simpl. repeat split; [done |].
      exists s, c. by rewrite bool_decide_eq_true_2.
    + destruct (getDefaultQuestion _ _ _ _) as [v w3] eqn:Hq. intros [= <- <-].
      eapply Hfb; [done | done | simpl; lia | simpl; lia].
    + intros [= <- <-]. simpl. repeat split; [done |].
      exists s, c. by rewrite bool_decide_eq_false_2.
    + destruct (getDefaultQuestion _ _ _ _) as [v w3] eqn:Hq. intros [= <- <-].
      eapply Hfb; [done | done | simpl; lia | simpl; lia].
Qed.

(** A pass of the feedback body. A reply 429 ends it at once. *)
Lemma feedbackPass_cases retries w p w' :
  feedbackPass oracle retries w = (p, w') →
  slept w' = slept w ∧ fetches w ≤ fetches w' ∧ fetches w' ≤ S (fetches w) ∧
  match p with
  | Again d =>
      retries < maxRetries ∧
      ∃ s c, response_at oracle (fetches w) = Reply s c ∧ ok s = false ∧ s ≠ 429%Z ∧
        d = (baseRetryDelay * 2 ^ Z.of_nat retries)%Z
  | Return v =>
      v = getDefaultFeedback ∨
      (∃ s text, response_at oracle (fetches w) = Reply s (Some text) ∧
         ok s = true ∧ v = parseFeedback oracle (trim text))
  end.
Proof.
  unfold feedbackPass, fetch.
  destruct (trackApiUsage oracle w) as [n w1] eqn:Htrack.
  apply trackApiUsage_spec in Htrack as (_ & _ & _ & _ & Hf & _ & Hs & _).
  rewrite <- Hf, <- Hs.
  case_bool_decide; [intros [= <- <-]; simpl; auto with lia |].
  destruct (response_at oracle (fetches w1)) as [| s c] eqn:Hr;
    [intros [= <- <-]; simpl; auto with lia |].
  destruct (ok s) eqn:Hok; cbn [negb].
  - destruct c as [text |]; intros [= <- <-]; simpl; repeat split; auto with lia.
    right. by exists s, text.
  - case_bool_decide as H429; [intros [= <- <-]; simpl; auto with lia |].
    case_bool_decide as Hretry; intros [= <- <-]; simpl; repeat split; auto with lia.
    by exists s, c.
Qed.

(** Induction along the passes of [makeRequest]. *)
Lemma makeRequest_passes jd pq (P : nat → World → string * World → Prop) :
  (∀ retries w v w',
     questionPass oracle jd pq retries w = (Return v, w') → P retries w (v, w')) →
  (∀ retries w d w',
     questionPass oracle jd pq retries w = (Again d, w') →
     P (S retries) (sleep d w') (makeRequest oracle jd pq (S retries) (sleep d w')) →
     P retries w (makeRequest oracle jd pq (S retries) (sleep d w'))) →
  ∀ retries w, P retries w (makeRequest oracle jd pq retries w).
Proof.
  intros HR HA retries.
  remember (maxRetries - retries) as n eqn:Hn. revert retries Hn.
  induction n as [n IH] using lt_wf_ind. intros retries Hn w.
  destruct (questionPass oracle jd pq retries w) as [[v | d] w'] eqn:Hpass.
  - rewrite (makeRequest_return _ _ _ _ _ _ _ Hpass). by apply HR.
  - rewrite (makeRequest_again _ _ _ _ _ _ _ Hpass). apply HA; [done |].
    apply questionPass_cases in Hpass as (_ & Hlt & _).
    apply (IH (maxRetries - S retries)); [lia | done].
Qed.

Lemma makeFeedbackRequest_passes (P : nat → World → Feedback * World → Prop) :
  (∀ retries w v w',
     feedbackPass oracle retries w = (Return v, w') → P retries w (v, w')) →
  (∀ retries w d w',
     feedbackPass oracle retries w = (Again d, w') →
     P (S retries) (sleep d w') (makeFeedbackRequest oracle (S retries) (sleep d w')) →
     P retries w (makeFeedbackRequest oracle (S retries) (sleep d w'))) →
  ∀ retries w, P retries w (makeFeedbackRequest oracle retries w).
Proof.
  intros HR HA retries.
  remember (maxRetries - retries) as n eqn:Hn. revert retries Hn.
  induction n as [n IH] using lt_wf_ind. intros retries Hn w.
  destruct (feedbackPass oracle retries w) as [[v | d] w'] eqn:Hpass.
  - rewrite (makeFeedbackRequest_return _ _ _ _ _ Hpass). by apply HR.
  - rewrite (makeFeedbackRequest_again _ _ _ _ _ Hpass). apply HA; [done |].
    apply feedbackPass_cases in Hpass as (_ & _ & _ & Hlt & _).
    apply (IH (maxRetries - S retries)); [lia | done].
Qed.

(** Whatever the replies, a question request sends at most
    [maxRetries + 1] requests, waits at most [maxRetries] times, and
    returns the text of a successful reply or a fallback question. *)
Lemma makeRequest_bounds jd pq retries w q w' :
  makeRequest oracle jd pq retries w = (q, w') →
  fetches w ≤ fetches w' ∧
  fetches w' ≤ fetches w + S (maxRetries - retries) ∧
  length (slept w') ≤ length (slept w) + (maxRetries - retries) ∧
  (Fallback jd pq q ∨
   ∃ k s text, response_at oracle k = Reply s (Some text) ∧ ok s = true ∧ q = trim text).
Proof.
  revert q w'.
  apply (makeRequest_passes jd pq (λ retries w r, ∀ q w', r = (q, w') →
    fetches w ≤ fetches w' ∧
    fetches w' ≤ fetches w + S (maxRetries - retries) ∧
    length (slept w') ≤ length (slept w) + (maxRetries - retries) ∧
    (Fallback jd pq q ∨
     ∃ k s text, response_at oracle k = Reply s (Some text) ∧ ok s = true ∧ q = trim text)));
    clear retries w.
  - intros retries w v w' Hpass q w'' [= <- <-].
    apply questionPass_cases in Hpass as (Hs & [(? & ? & ?) | (s & text & ? & ? & ? & ?)]).
    + rewrite Hs. repeat split; [lia | lia | lia | by left].
    + rewrite Hs. repeat split; [lia | lia | lia |]. right. by exists (fetches w), s, text.
  - intros retries w d w' Hpass IH q w'' Hrun.
    apply questionPass_cases in Hpass as (Hs & Hlt & Hf & _).
    apply IH in Hrun as (? & ? & Hlen & ?).
    simpl in *. rewrite length_app, Hs in Hlen. simpl in Hlen.
    repeat split; [lia | lia | lia | done].
Qed.

Lemma makeFeedbackRequest_bounds retries w f w' :
  makeFeedbackRequest oracle retries w = (f, w') →
  fetches w ≤ fetches w' ∧
  fetches w' ≤ fetches w + S (maxRetries - retries) ∧
  length (slept w') ≤ length (slept w) + (maxRetries - retries).
Proof.
  revert f w'.
  apply (makeFeedbackRequest_passes (λ retries w r, ∀ f w', r = (f, w') →
    fetches w ≤ fetches w' ∧
    fetches w' ≤ fetches w + S (maxRetries - retries) ∧
    length (slept w') ≤ length (slept w) + (maxRetries - retries)));
    clear retries w.
  - intros retries w v w' Hpass f w'' [= <- <-].
    apply feedbackPass_cases in Hpass as (Hs & ? & ? & _).
    rewrite Hs. repeat split; lia.
  - intros retries w d w' Hpass IH f w'' Hrun.
    apply feedbackPass_cases in Hpass as (Hs & ? & ? & Hlt & _).
    apply IH in Hrun as (? & ? & Hlen).
    simpl in *. rewrite length_app, Hs in Hlen. simpl in Hlen.
    repeat split; lia.
Qed.

(** ** Once the quota is reached *)

Lemma QuotaReached_ext day w w' :
  usage w' = usage w → reads w ≤ reads w' →
  QuotaReached oracle day w → QuotaReached oracle day w'.
Proof.
  intros Hu Hr [Hclock Hcount]. split.
  - intros k Hk. apply Hclock. lia.
  - unfold count in *. by rewrite Hu.
Qed.

Lemma QuotaReached_trackApiUsage day w c w1 :
  QuotaReached oracle day w → trackApiUsage oracle w = (c, w1) →
  (dailyQuota ≤ c)%N ∧ QuotaReached oracle day w1 ∧
  fetches w1 = fetches w ∧ slept w1 = slept w.
Proof.
  intros [Hclock Hcount] Htrack.
  apply trackApiUsage_spec in Htrack as (Hc & Hc' & _ & Hr & Hf & _ & Hs & _).
  rewrite (Hclock (reads w)) in Hc, Hc' by lia.
  repeat split; [lia | | lia | done | done].
  intros k Hk. apply Hclock. lia.
Qed.

Lemma QuotaReached_questionPass day jd pq retries w p w' :
  QuotaReached oracle day w → questionPass oracle jd pq retries w = (p, w') →
  (∃ q, p = Return q ∧ Fallback jd pq q) ∧
  QuotaReached oracle day w' ∧ fetches w' = fetches w ∧ slept w' = slept w.
Proof.
  intros HQ. unfold questionPass, fallbackQuestion.
  destruct (trackApiUsage oracle w) as [c w1] eqn:Htrack.
  destruct (QuotaReached_trackApiUsage _ _ _ _ HQ Htrack) as (Hc & HQ1 & Hf & Hs).
  rewrite bool_decide_eq_true_2 by done.
  destruct (getDefaultQuestion _ _ _ _) as [q w2] eqn:Hq. intros [= <- <-].
  apply getDefaultQuestion_spec in Hq as (Hfb & Hu & Hr & Hf2 & Hs2 & _).
  simpl in Hu, Hr, Hf2, Hs2.
  repeat split; [by exists q | | | congruence | congruence].
  - intros k Hk. apply HQ1. lia.
  - destruct HQ1 as [_ Hcount]. unfold count in *. by rewrite Hu.
Qed.

Lemma QuotaReached_feedbackPass day retries w p w' :
  QuotaReached oracle day w → feedbackPass oracle retries w = (p, w') →
  p = Return getDefaultFeedback ∧
  QuotaReached oracle day w' ∧ fetches w' = fetches w ∧ slept w' = slept w.
Proof.
  intros HQ. unfold feedbackPass.
  destruct (trackApiUsage oracle w) as [c w1] eqn:Htrack.
  destruct (QuotaReached_trackApiUsage _ _ _ _ HQ Htrack) as (Hc & HQ1 & Hf & Hs).
  rewrite bool_decide_eq_true_2 by done. intros [= <- <-].
  repeat split; [| | done | done].
  - intros k Hk. by apply HQ1.
  - by destruct HQ1.
Qed.

(** Once the quota is reached a request body sends nothing and returns
    the fallback. *)
Lemma QuotaReached_runJob day job w v w' :
  QuotaReached oracle day w → runJob oracle job w = (v, w') →
  QuotaReached oracle day w' ∧ fetches w' = fetches w ∧ slept w' = slept w ∧
  match job with
  | QuestionJob jd pq => ∃ q, v = Resolved (Text q) ∧ Fallback jd pq q
  | FeedbackJob _ _ => v = Resolved (Evaluation getDefaultFeedback)
  end.
Proof.
  intros HQ. unfold runJob. destruct job as [jd pq | jd tr].
  - destruct (questionPass oracle jd pq 0 w) as [p w1] eqn:Hpass.
    destruct (QuotaReached_questionPass _ _ _ _ _ _ _ HQ Hpass)
      as ((q & -> & Hfb) & HQ1 & Hf & Hs).
    rewrite (makeRequest_return _ _ _ _ _ _ _ Hpass). intros [= <- <-]. eauto 10.
  - destruct (feedbackPass oracle 0 w) as [p w1] eqn:Hpass.
    destruct (QuotaReached_feedbackPass _ _ _ _ _ HQ Hpass) as (-> & HQ1 & Hf & Hs).
    rewrite (makeFeedbackRequest_return _ _ _ _ _ Hpass). by intros [= <- <-].
Qed.

Lemma Pending_mono id n m g : n ≤ m → Pending id n g → Pending id m g.
Proof.
  intros Hle [? | [? | (j & e & ? & ? & ?)]]; [by left | by right; left |].
  right. right. exists j, e. split; [lia | done].
Qed.

(** A request that is accepted waits in the queue or is in flight. *)
Lemma queueRequest_pending job retries g id g' :
  queueRequest oracle job retries g = (Later id, g') →
  id = promises g ∧ length (requestQueue g) < maxQueueSize ∧
  Pending id maxQueueSize g'.
Proof.
  unfold queueRequest. case_bool_decide as Hfull; [done |]. intros [= <- <-].
  split; [done |]. split; [lia |].
  set (entry := {| promise := promises g; fn := job; retries := retries |}).
  set (pushed := set_requestQueue _ _).
  assert (requestQueue pushed = requestQueue g ++ [entry]) as Hq by by destruct g.
  assert (inFlight pushed = inFlight g) as Hf by by destruct g.
  assert (requestQueue pushed !! length (requestQueue g) = Some entry) as Hlook.
  { rewrite Hq. by apply list_lookup_middle. }
  right.
  destruct (processQueue_cases oracle pushed)
    as [| d Hlock Hpos | request rest v w' Hlock Hqueue Hrpm Hrun].
  - right. exists (length (requestQueue g)), entry. split; [lia | done].
  - right. exists (length (requestQueue g)), entry. split; [simpl; lia | done].
  - simpl. rewrite Hqueue in Hlook.
    destruct (length (requestQueue g)) as [| n] eqn:Hlen; simpl in Hlook.
    + left. exists v. simplify_eq. apply elem_of_app. right. by left.
    + right. exists n, entry. split; [lia | done].
Qed.

End Passes.

(** ** The claims about the gateway *)

(** The browser once the quota is reached, with [n] requests sent. *)
Lemma frozen_tick oracle day n w :
  QuotaReached oracle day w ∧ fetches w = n →
  QuotaReached oracle day (tick w) ∧ fetches (tick w) = n.
Proof. intros [HQ Hf]. split; [| done]. eapply QuotaReached_ext; [| | done]; simpl; auto. Qed.

Lemma frozen_toast oracle day n t w :
  QuotaReached oracle day w ∧ fetches w = n →
  QuotaReached oracle day (toast t w) ∧ fetches (toast t w) = n.
Proof. intros [HQ Hf]. split; [| done]. eapply QuotaReached_ext; [| | done]; simpl; auto. Qed.

Lemma frozen_key oracle day n k w :
  QuotaReached oracle day w ∧ fetches w = n →
  QuotaReached oracle day (set_sessionKey k w) ∧ fetches (set_sessionKey k w) = n.
Proof. intros [HQ Hf]. split; [| done]. eapply QuotaReached_ext; [| | done]; simpl; auto. Qed.

Lemma frozen_run oracle day n job w v w' :
  QuotaReached oracle day w ∧ fetches w = n → runJob oracle job w = (v, w') →
  QuotaReached oracle day w' ∧ fetches w' = n.
Proof.
  intros [HQ Hf] Hrun.
  destruct (QuotaReached_runJob _ _ _ _ _ _ HQ Hrun) as (? & ? & _). split; [done | lia].
Qed.

Lemma call_cases oracle jd pq pa g :
  let g1 := if bool_decide (apiKey g = EmptyString) then initApiKey oracle g else g in
  world g1 = world g ∧ requestQueue g1 = requestQueue g ∧
  generateInterviewQuestion oracle jd pq pa g =
    if bool_decide (credential oracle g = EmptyString)
    then (Now (Rejected keyMissing), set_world (toast "API Key Missing" (world g)) g1)
    else queueRequest oracle (QuestionJob jd pq) 0 g1.
Proof.
  unfold generateInterviewQuestion, credential. simpl.
  set (g1 := if bool_decide (apiKey g = EmptyString) then initApiKey oracle g else g).
  assert (world g1 = world g ∧ requestQueue g1 = requestQueue g) as [Hw Hq].
  { unfold g1. case_bool_decide; [| done]. unfold initApiKey.
    repeat (case_bool_decide || case_match); by destruct g. }
  by rewrite Hw.
Qed.

(** Claim C1, as amended. On a day whose ledger count has reached the daily
    quota, whatever happens to the gateway afterwards, no network request
    is made and the quota stays reached. A call of
    [generateInterviewQuestion] made then is rejected when no credential is
    available or when the queue is full; otherwise its promise is settled
    once the queue has drained, and it is only ever settled with a fallback
    text of [getDefaultQuestion]: a question of the pool that has not been
    asked yet, or the fixed sentence when the whole pool has been asked. *)
Theorem C1_quota_reached_calls_fall_back
    (oracle : Oracle) (day : string) (history : list Event) (w0 : World)
    (jd : string) (pq pa : list string) (events : list Event) :
  let g := after oracle history w0 in
  let call := generateInterviewQuestion oracle jd pq pa g in
  QuotaReached oracle day (world g) →
  fetches (world (exec oracle events call.2)) = fetches (world g) ∧
  QuotaReached oracle day (world (exec oracle events call.2)) ∧
  match call.1 with
  | Now s =>
      (s = Rejected keyMissing ∧ credential oracle g = EmptyString) ∨
      (s = Rejected overloaded ∧ credential oracle g ≠ EmptyString ∧
       maxQueueSize ≤ length (requestQueue g))
  | Later id =>
      credential oracle g ≠ EmptyString ∧ length (requestQueue g) < maxQueueSize ∧
      is_Some (settled (exec oracle (drain (S maxQueueSize)) call.2) !! id) ∧
      ∀ v, settled (exec oracle events call.2) !! id = Some v →
           ∃ q, v = Resolved (Text q) ∧ Fallback jd pq q
  end.
Proof.
  intros g call HQ.
  assert (Inv g) as HI by apply Inv_after.
  assert (ledgerFault g = None) as Hrd by apply ledgerFault_after.
  clearbody g.
  set (OfWorld := λ w, QuotaReached oracle day w ∧ fetches w = fetches (world g)).
  assert (∀ w, OfWorld w → OfWorld (tick w)) as Htick
    by (intros w; apply frozen_tick).
  assert (∀ t w, OfWorld w → OfWorld (toast t w)) as Htoast
    by (intros t w; apply frozen_toast).
  assert (∀ k w, OfWorld w → OfWorld (set_sessionKey k w)) as Hkey
    by (intros k w; apply frozen_key).
  assert (∀ job w v w', OfWorld w → runJob oracle job w = (v, w') → OfWorld w') as Hrun
    by (intros job w v w'; apply frozen_run).
  assert (∀ job w v w', OfWorld w → job = QuestionJob jd pq →
            runJob oracle job w = (v, w') →
            ∃ q, v = Resolved (Text q) ∧ Fallback jd pq q) as Hvalue.
  { intros job w v w' [HQw _] -> Hr.
    by destruct (QuotaReached_runJob _ _ _ _ _ _ HQw Hr) as (_ & _ & _ & ?). }
  assert (OfWorld (world g)) as HW by done.
  assert (OfWorld (world (exec oracle events call.2))) as [HQ' Hf'].
  { apply (OfWorld_exec oracle OfWorld None Htick Htoast Hkey Hrun).
    - exact (eq_trans (ledgerFault_step oracle (CallQuestion jd pq pa) g) Hrd).
    - by apply (OfWorld_step oracle OfWorld None Htick Htoast Hkey Hrun
                  (CallQuestion jd pq pa)). }
  split; [done |]. split; [done |].
  clear HQ' Hf'. subst call.
  destruct (call_cases oracle jd pq pa g) as (Hw & Hq & ->).
  set (g1 := if bool_decide (apiKey g = EmptyString) then initApiKey oracle g else g) in *.
  assert (Inv g1) as HI1 by (unfold g1; case_bool_decide; auto using Inv_initApiKey).
  assert (ledgerFault g1 = None) as Hrd1
    by (unfold g1; case_bool_decide; by rewrite ?ledgerFault_initApiKey).
  clearbody g1.
  case_bool_decide as Hcred; [left; by split |].
  destruct (queueRequest oracle (QuestionJob jd pq) 0 g1) as [[s | id] g'] eqn:Hcall.
  - right. unfold queueRequest in Hcall. rewrite Hq in Hcall.
    case_bool_decide; [| done]. by simplify_eq.
  - destruct (queueRequest_pending oracle _ _ _ _ _ Hcall) as (Hid & Hlen & Hpend).
    rewrite Hq in Hlen. cbn [fst snd]. split; [done |]. split; [done |].
    assert (Inv g') as HI'.
    { pose proof (Inv_queueRequest oracle g1 (QuestionJob jd pq) 0 HI1) as H.
      by rewrite Hcall in H. }
    split; [by apply drain_settles |].
    assert (Tracked OfWorld id (λ job, job = QuestionJob jd pq)
              (λ v, ∃ q, v = Resolved (Text q) ∧ Fallback jd pq q)
              (exec oracle events g')) as (_ & _ & _ & _ & Hs); [| done].
    assert (ledgerFault g' = None) as Hrd'.
    { pose proof (ledgerFault_queueRequest oracle (QuestionJob jd pq) 0 g1) as H.
      rewrite Hcall in H. simpl in H. congruence. }
    apply (Tracked_exec oracle OfWorld id _ _ None Htick Htoast Hkey Hrun Hvalue);
      [done |].
    apply (Tracked_enqueued oracle OfWorld id _ _ None Htick Hrun Hvalue
             (QuestionJob jd pq) 0 g1 g' Hrd1 HI1); [by rewrite Hw | done | done].
Qed.

(** A pass made when the count of the day is one below the quota, or more,
    returns the fallback and sends nothing. *)
Lemma questionPass_at_quota oracle day jd pq retries w p w' :
  today_at oracle (reads w) = day → (dailyQuota ≤ count day w + 1)%N →
  questionPass oracle jd pq retries w = (p, w') →
  (∃ q, p = Return q ∧ Fallback jd pq q) ∧
  fetches w' = fetches w ∧ slept w' = slept w ∧ count day w' = (count day w + 1)%N.
Proof.
  intros Hday Hcount. unfold questionPass, fallbackQuestion.
  destruct (trackApiUsage oracle w) as [c w1] eqn:Htrack.
  apply trackApiUsage_spec in Htrack as (Hc & Hc' & _ & Hr & Hf & _ & Hs & _).
  rewrite Hday in Hc, Hc'.
  rewrite bool_decide_eq_true_2 by lia.
  destruct (getDefaultQuestion _ _ _ _) as [q w2] eqn:Hq. intros [= <- <-].
  apply getDefaultQuestion_spec in Hq as (Hfb & Hu & _ & Hf2 & Hs2 & _).
  simpl in Hu, Hf2, Hs2.
  repeat split; [by exists q | congruence | congruence |].
  unfold count in *. rewrite Hu. lia.
Qed.

(** A pass made further below the quota sends a request. *)
Lemma questionPass_below_quota oracle jd pq retries w p w' :
  (count (today_at oracle (reads w)) w + 1 < dailyQuota)%N →
  questionPass oracle jd pq retries w = (p, w') →
  fetches w' = S (fetches w).
Proof.
  intros Hcount. unfold questionPass, fallbackQuestion, fetch.
  destruct (trackApiUsage oracle w) as [c w1] eqn:Htrack.
  apply trackApiUsage_spec in Htrack as (Hc & _ & _ & _ & Hf & _).
  rewrite bool_decide_eq_false_2 by lia. rewrite <- Hf.
  assert (∀ w2 q w3, getDefaultQuestion oracle jd pq w2 = (q, w3) →
            fetches w3 = fetches w2) as Hfb.
  { intros w2 q w3 Hq. by apply getDefaultQuestion_spec in Hq as (_ & _ & _ & ? & _). }
  repeat (case_match || case_bool_decide); intros; simplify_eq; try done;
    match goal with H : getDefaultQuestion _ _ _ _ = _ |- _ => apply Hfb in H end;
    by simpl in *.
Qed.

(** On a gateway at rest a call with a credential is started at once. *)
Lemma call_at_rest oracle jd pq pa g :
  Inv g → ledgerFault g = None →
  credential oracle g ≠ EmptyString → requestQueue g = [] → queueLock g = false →
  ∃ q w',
    makeRequest oracle jd pq 0 (tick (world g)) = (q, w') ∧
    (generateInterviewQuestion oracle jd pq pa g).1 = Later (promises g) ∧
    inFlight (generateInterviewQuestion oracle jd pq pa g).2 =
      [(promises g, Resolved (Text q))] ∧
    world (generateInterviewQuestion oracle jd pq pa g).2 = w'.
Proof.
  intros HI Hrd Hcred Hqueue Hlock.
  destruct (call_cases oracle jd pq pa g) as (Hw & Hq & ->).
  set (g1 := if bool_decide (apiKey g = EmptyString) then initApiKey oracle g else g) in *.
  assert (Inv g1) as [HS1 _] by (unfold g1; case_bool_decide; auto using Inv_initApiKey).
  assert (queueLock g1 = false ∧ promises g1 = promises g ∧
          ledgerFault g1 = None) as (Hl1 & Hp1 & Hrd1).
  { unfold g1. case_bool_decide; [| done]. unfold initApiKey.
    repeat (case_bool_decide || case_match); by destruct g. }
  clearbody g1.
  rewrite bool_decide_eq_false_2 by done.
  unfold queueRequest.
  rewrite bool_decide_eq_false_2 by (rewrite Hq, Hqueue; unfold maxQueueSize; simpl; lia).
  pose proof (Steady_push g1 (QuestionJob jd pq) 0 HS1) as HS2.
  set (pushed := set_requestQueue _ _) in *.
  set (entry := {| promise := promises g1; fn := QuestionJob jd pq; retries := 0 |}).
  assert (requestQueue pushed = [entry]) as Hqp.
  { unfold pushed. destruct g1. simpl in *. by rewrite Hq, Hqueue. }
  assert (world pushed = world g ∧ queueLock pushed = false ∧
          ledgerFault pushed = None) as (Hwp & Hlp & Hrdp)
    by (unfold pushed; by destruct g1).
  destruct (processQueue_starts oracle pushed entry [] HS2 Hlp Hqp)
    as (v & w' & Hrun & ->).
  cbn [fst snd inFlight world promise entry].
  rewrite Hwp, Hrdp, startJob_readable in Hrun.
  unfold runJob in Hrun. cbn [fn entry] in Hrun.
  destruct (makeRequest oracle jd pq 0 (tick (world g))) as [q w''].
  simplify_eq. exists q, w'. by rewrite Hp1.
Qed.

(** Claim C2, as amended. On a gateway at rest that has a credential, a
    call made while today's count stands at [dailyQuota - 1] raises the
    count to [dailyQuota] and is started with a fallback text without any
    network request: the call at the threshold is already a pure fallback.
    A call made while the count is at most [dailyQuota - 2] does send a
    network request. *)
Theorem C2_threshold_call_is_fallback
    (oracle : Oracle) (day : string) (history : list Event) (w0 : World)
    (jd : string) (pq pa : list string) :
  let g := after oracle history w0 in
  let call := generateInterviewQuestion oracle jd pq pa g in
  credential oracle g ≠ EmptyString → requestQueue g = [] → queueLock g = false →
  (∀ k, reads (world g) ≤ k → today_at oracle k = day) →
  (count day (world g) = (dailyQuota - 1)%N →
     fetches (world call.2) = fetches (world g) ∧
     count day (world call.2) = dailyQuota ∧
     ∃ q, call.1 = Later (promises g) ∧
          inFlight call.2 = [(promises g, Resolved (Text q))] ∧
          Fallback jd pq q) ∧
  ((count day (world g) + 1 < dailyQuota)%N →
     fetches (world g) < fetches (world call.2)).
Proof.
  intros g call Hcred Hqueue Hlock Hclock.
  assert (Inv g) as HI by apply Inv_after.
  assert (ledgerFault g = None) as Hrd by apply ledgerFault_after.
  destruct (call_at_rest oracle jd pq pa g HI Hrd Hcred Hqueue Hlock)
    as (q & w' & Hrun & Hp & Hf & Hw).
  fold call in Hp, Hf, Hw. clearbody call g. rewrite Hw. clear Hw.
  assert (today_at oracle (reads (tick (world g))) = day) as Hday
    by (apply Hclock; simpl; lia).
  destruct (questionPass oracle jd pq 0 (tick (world g))) as [p w1] eqn:Hpass.
  split.
  - intros Hcount.
    destruct (questionPass_at_quota oracle day jd pq 0 _ p w1 Hday) as
      ((q' & -> & Hfb) & Hf1 & _ & Hc1); [| done |].
    { change (count day (tick (world g))) with (count day (world g)).
      rewrite Hcount. unfold dailyQuota. lia. }
    rewrite (makeRequest_return _ _ _ _ _ _ _ Hpass) in Hrun.
    injection Hrun as <- <-.
    split; [done |]. split; [| by exists q'].
    rewrite Hc1. change (count day (tick (world g))) with (count day (world g)).
    rewrite Hcount. unfold dailyQuota. lia.
  - intros Hcount.
    assert (fetches w1 = S (fetches (world g))) as Hf1.
    { eapply (questionPass_below_quota oracle jd pq 0 (tick (world g))); [| done].
      by rewrite Hday. }
    destruct p as [v | d].
    + rewrite (makeRequest_return _ _ _ _ _ _ _ Hpass) in Hrun.
      injection Hrun as <- <-. lia.
    + rewrite (makeRequest_again _ _ _ _ _ _ _ Hpass) in Hrun.
      apply makeRequest_bounds in Hrun as (Hle & _). simpl in Hle. lia.
Qed.


(** Claim C3, as amended. Let the first reply to a request body be the
    status 429, the quota not being reached. The question body waits the
    long fixed delay and calls itself once more: it waits exactly once,
    sends one or two requests in all, and returns a fallback question
    unless the retry is answered by a successful reply with a text. The
    feedback body returns the default feedback at once, without waiting and
    without a second request. *)
Theorem C3_quota_reply_retried_once_for_questions_only
    (oracle : Oracle) (jd : string) (pq : list string) (w : World)
    (candidate : option string) :
  (count (today_at oracle (reads w)) w + 1 < dailyQuota)%N →
  response_at oracle (fetches w) = Reply 429 candidate →
  (∃ w1, fetches w1 = S (fetches w) ∧ slept w1 = slept w ∧
     makeRequest oracle jd pq 0 w =
       makeRequest oracle jd pq 1 (sleep quotaRetryDelay w1)) ∧
  (∀ q w', makeRequest oracle jd pq 0 w = (q, w') →
     slept w' = slept w ++ [quotaRetryDelay] ∧
     S (fetches w) ≤ fetches w' ∧ fetches w' ≤ fetches w + 2 ∧
     ((∀ s text, response_at oracle (S (fetches w)) = Reply s (Some text) →
         ok s = false) →
      Fallback jd pq q)) ∧
  (∃ w', makeFeedbackRequest oracle 0 w = (getDefaultFeedback, w') ∧
     slept w' = slept w ∧ fetches w' = S (fetches w)).
Proof.
  intros Hcount Hreply.
  assert (∃ w1, questionPass oracle jd pq 0 w = (Again quotaRetryDelay, w1) ∧
            fetches w1 = S (fetches w) ∧ slept w1 = slept w) as (w1 & Hpass & Hf1 & Hs1).
  { destruct (questionPass oracle jd pq 0 w) as [p w1] eqn:Hpass.
    pose proof (questionPass_below_quota oracle jd pq 0 w p w1 Hcount Hpass) as Hf.
    pose proof (questionPass_cases oracle jd pq 0 w p w1 Hpass) as (Hs & Hp).
    exists w1. split; [| done].
    revert Hpass. unfold questionPass, fallbackQuestion, fetch.
    destruct (trackApiUsage oracle w) as [c w0] eqn:Htrack.
    apply trackApiUsage_spec in Htrack as (Hc & _ & _ & _ & Hf0 & _).
    rewrite bool_decide_eq_false_2 by lia. rewrite Hf0, Hreply.
    assert (ok 429 = false) as -> by (by vm_compute). cbn [negb].
    rewrite (bool_decide_eq_true_2 (429 = 429)%Z) by done.
    rewrite bool_decide_eq_true_2 by (unfold maxRetries; lia).
    by intros [= <- <-]. }
  split; [| split].
  - exists w1. repeat split; [done | done |].
    by apply makeRequest_again.
  - intros q w' Hrun.
    rewrite (makeRequest_again _ _ _ _ _ _ _ Hpass) in Hrun.
    destruct (questionPass oracle jd pq 1 (sleep quotaRetryDelay w1)) as [p w2] eqn:Hpass2.
    pose proof (questionPass_cases oracle jd pq 1 _ p w2 Hpass2) as (Hs2 & Hp2).
    destruct p as [v | d]; [| unfold maxRetries in Hp2; lia].
    rewrite (makeRequest_return _ _ _ _ _ _ _ Hpass2) in Hrun.
    injection Hrun as <- <-.
    simpl in Hs2, Hp2. rewrite Hs1 in Hs2. rewrite Hf1 in Hp2.
    split; [done |].
    destruct Hp2 as [(Hfb & ? & ?) | (s & text & Hr & Hok & -> & ?)].
    + repeat split; [lia | lia | done].
    + repeat split; [lia | lia |]. intros Hfail.
      rewrite (Hfail s text Hr) in Hok. done.
  - destruct (feedbackPass oracle 0 w) as [p w'] eqn:Hpass'.
    pose proof (feedbackPass_cases oracle 0 w p w' Hpass') as (Hs & _).
    assert (p = Return getDefaultFeedback ∧ fetches w' = S (fetches w)) as [-> Hf'].
    { revert Hpass'. unfold feedbackPass, fetch.
      destruct (trackApiUsage oracle w) as [c w0] eqn:Htrack.
      apply trackApiUsage_spec in Htrack as (Hc & _ & _ & _ & Hf0 & _).
      rewrite bool_decide_eq_false_2 by lia. rewrite Hf0, Hreply.
      assert (ok 429 = false) as -> by (by vm_compute). cbn [negb].
      rewrite (bool_decide_eq_true_2 (429 = 429)%Z) by done.
      intros [= <- <-]. split; [done |]. simpl. by rewrite Hf0. }
    exists w'. split; [by apply makeFeedbackRequest_return | done].
Qed.





(** Claim C5. When the queue holds [maxQueueSize] entries or more,
    [queueRequest] returns a promise rejected with "Request queue
    overloaded" and leaves the gateway as it was, so the request is never
    put in the queue nor started, whatever happens next. Below that bound
    the entry is put at the end of the queue before [processQueue] runs,
    and afterwards it waits in the queue or is in flight. *)
Theorem C5_queue_bound (oracle : Oracle) (job : Job) (retries : nat) (g : Gateway) :
  (maxQueueSize ≤ length (requestQueue g) →
   queueRequest oracle job retries g = (Now (Rejected overloaded), g) ∧
   ∀ events,
     exec oracle events (queueRequest oracle job retries g).2 = exec oracle events g) ∧
  (length (requestQueue g) < maxQueueSize →
   let entry := {| promise := promises g; fn := job; retries := retries |} in
   let pushed := set_requestQueue (requestQueue g ++ [entry])
                   (set_promises (S (promises g)) g) in
   queueRequest oracle job retries g = (Later (promises g), processQueue oracle pushed) ∧
   (entry ∈ requestQueue (queueRequest oracle job retries g).2 ∨
    ∃ v, (promises g, v) ∈ inFlight (queueRequest oracle job retries g).2)).
Proof.
  split.
  - intros Hfull. unfold queueRequest. by rewrite bool_decide_eq_true_2.
  - intros Hroom entry pushed.
    assert (queueRequest oracle job retries g =
              (Later (promises g), processQueue oracle pushed)) as ->.
    { unfold queueRequest. rewrite bool_decide_eq_false_2 by lia.
      reflexivity. }
    split; [done |]. cbn [snd].
    assert (requestQueue pushed = requestQueue g ++ [entry]) as Hq by by destruct g.
    clearbody pushed.
    destruct (processQueue_cases oracle pushed)
      as [| d Hlock Hpos | request rest v w' Hlock Hqueue Hrpm Hrun].
    + left. rewrite Hq. apply elem_of_app. right. by left.
    + left. simpl. rewrite Hq. apply elem_of_app. right. by left.
    + simpl. rewrite Hq in Hqueue.
      destruct (requestQueue g) as [| e q]; simpl in Hqueue.
      * right. exists v. simplify_eq. apply elem_of_app. right. by left.
      * left. simplify_eq. apply elem_of_app. right. by left.
Qed.

(** Claim C6. When every answer of the transcript is empty once trimmed
    (of the white space that [String.prototype.trim] removes, the no-break
    space and the other Unicode spaces included),
    [generateInterviewFeedback] resolves at once with a structure whose
    [overallScore] is the number 0; no network request is made and nothing
    is put in the queue or started. *)
Theorem C6_empty_answers_score_zero_without_network
    (oracle : Oracle) (jd : string) (transcript : list QA) (g : Gateway) :
  Forall (λ item, trim (answer item) = EmptyString) transcript →
  let call := generateInterviewFeedback oracle jd transcript g in
  (∃ f, call.1 = Now (Resolved (Evaluation f)) ∧ overallScore f = zero) ∧
  fetches (world call.2) = fetches (world g) ∧
  requestQueue call.2 = requestQueue g ∧
  inFlight call.2 = inFlight g.
Proof.
  intros Hempty call. subst call. unfold generateInterviewFeedback.
  set (g1 := if bool_decide (apiKey g = EmptyString) then initApiKey oracle g else g).
  assert (world g1 = world g ∧ requestQueue g1 = requestQueue g ∧
          inFlight g1 = inFlight g) as (Hw & Hq & Hf).
  { unfold g1. case_bool_decide; [| done]. unfold initApiKey.
    repeat (case_bool_decide || case_match); by destruct g. }
  clearbody g1.
  assert (hasValidAnswers transcript = false) as ->.
  { unfold hasValidAnswers, some. apply not_true_is_false. intros Hex.
    apply existsb_exists in Hex as (item & Hin & Hpos).
    apply bool_decide_eq_true in Hpos.
    rewrite Forall_forall in Hempty.
    rewrite (Hempty item) in Hpos; [simpl in Hpos; lia |].
    by apply list_elem_of_In. }
  case_bool_decide; cbn [negb fst snd].
  - split; [by exists getDefaultFeedback |]. destruct g1. simpl in *. by subst.
  - split; [by exists noAnswersFeedback |]. by rewrite Hw.
Qed.


Import Scenarios.

(** The scenario of C1: the ledger shows 1500 requests today. *)
Lemma quota_reached_today :
  QuotaReached answering day (world (after answering [] (browser 1500))).
Proof. split; [intros k _; reflexivity | vm_compute; discriminate]. Defined.

(** The amended C1 at work: the quota is reached, a call is made and its
    request finishes; nothing has been sent. *)
Lemma C1_witness :
  QuotaReached answering day (world (after answering [] (browser 1500))) ∧
  fetches (world (exec answering [Settle 0]
     (generateInterviewQuestion answering EmptyString [] []
        (after answering [] (browser 1500))).2)) = 0.
Proof.
  split; [exact quota_reached_today |].
  exact (proj1 (C1_quota_reached_calls_fall_back answering day [] (browser 1500)
                  EmptyString [] [] [Settle 0] quota_reached_today)).
Defined.

(** C1 as stated fails. With the quota reached and a credential, a call
    whose previous questions are the whole pool resolves with the fixed
    sentence, which is not in the pool; and without a credential the call
    is rejected. *)
Lemma C1_counterexample :
  let g := after answering [] (browser 1500) in
  let call := generateInterviewQuestion answering EmptyString (defaultQuestions "general") [] g in
  QuotaReached answering day (world g) ∧
  call.1 = Later 0 ∧
  settled (exec answering [Settle 0] call.2) !! 0 = Some (Resolved (Text fixedQuestion)) ∧
  (fixedQuestion ∉ defaultQuestions (roleOf EmptyString)) ∧
  QuotaReached keyless day (world (after keyless [] (browser 1500))) ∧
  (generateInterviewQuestion keyless EmptyString [] [] (after keyless [] (browser 1500))).1 =
    Now (Rejected keyMissing).
Proof.
  split; [exact quota_reached_today |].
  split; [by vm_compute |].
  split; [by vm_compute |].
  split; [rewrite <- arrayIncludes_spec; vm_compute; tauto |].
  split; [split; [intros k _; reflexivity | vm_compute; discriminate] |].
  by vm_compute.
Qed.

(** C2 as stated fails. With today's count at [dailyQuota - 1] and an
    endpoint that would answer, the next call sends no request and is
    started with a question of the pool. *)
Lemma C2_counterexample :
  let g := after answering [] (browser 1499) in
  let call := generateInterviewQuestion answering EmptyString [] [] g in
  count day (world g) = (dailyQuota - 1)%N ∧
  credential answering g = "test-key" ∧
  call.1 = Later 0 ∧
  fetches (world call.2) ≠ S (fetches (world g)) ∧
  fetches (world call.2) = 0 ∧
  inFlight call.2 =
    [(0, Resolved (Text
       "Tell me about a time you had to learn a new technology quickly for general."))].
Proof. by vm_compute. Qed.

(** The amended C2 at work. *)
Lemma C2_witness :
  let g := after answering [] (browser 1499) in
  let call := generateInterviewQuestion answering EmptyString [] [] g in
  count day (world g) = (dailyQuota - 1)%N ∧
  fetches (world call.2) = fetches (world g) ∧
  count day (world call.2) = dailyQuota.
Proof.
  intros g call.
  assert (count day (world g) = (dailyQuota - 1)%N) as Hcount by reflexivity.
  split; [exact Hcount |].
  pose proof (C2_threshold_call_is_fallback answering day [] (browser 1499) EmptyString [] []) as H.
  cbv zeta in H. fold g in H. fold call in H.
  destruct H as [Hthreshold _].
  - vm_compute. discriminate.
  - reflexivity.
  - reflexivity.
  - intros k _. reflexivity.
  - destruct (Hthreshold Hcount) as (Hf & Hc & _). by split.
Defined.

(** C3 as stated fails. The endpoint answering 429, a feedback call is
    started with the default feedback after one request and no wait, where
    a question call waits once and sends two. And a 429 that answers the
    retry made after another failure is not retried: the question body then
    waits only for the backoff of that failure. *)
Lemma C3_counterexample :
  let g := after limited [] (browser 10) in
  let call := generateInterviewFeedback limited EmptyString answeredTranscript g in
  response_at limited 0 = Reply 429 None ∧
  call.1 = Later 0 ∧
  inFlight call.2 = [(0, Resolved (Evaluation getDefaultFeedback))] ∧
  slept (world call.2) = [] ∧
  fetches (world call.2) = 1 ∧
  slept (world (generateInterviewQuestion limited EmptyString [] [] g).2) =
    [quotaRetryDelay] ∧
  fetches (world (generateInterviewQuestion limited EmptyString [] [] g).2) = 2 ∧
  response_at flaky 1 = Reply 429 None ∧
  slept (makeRequest flaky EmptyString [] 0 (browser 10)).2 = [baseRetryDelay] ∧
  fetches (makeRequest flaky EmptyString [] 0 (browser 10)).2 = 2.
Proof. by vm_compute. Qed.

(** The amended C3 at work. *)
Lemma C3_witness :
  ∃ q w',
    makeRequest limited EmptyString [] 0 (browser 10) = (q, w') ∧
    slept w' = [quotaRetryDelay] ∧ Fallback EmptyString [] q.
Proof.
  destruct (makeRequest limited EmptyString [] 0 (browser 10)) as [q w'] eqn:Hrun.
  exists q, w'. split; [reflexivity |].
  destruct (C3_quota_reply_retried_once_for_questions_only limited EmptyString [] (browser 10) None)
    as (_ & Hquestion & _).
  - vm_compute. reflexivity.
  - reflexivity.
  - destruct (Hquestion q w' Hrun) as (Hs & _ & _ & Hfb).
    split; [exact Hs |]. apply Hfb. intros s text [=].
Defined.



(** C5 at work, with the queue full and with the queue empty. *)
Lemma C5_witness :
  let g := after answering fourCalls (browser 0) in
  queueRequest answering (QuestionJob EmptyString []) 0 g = (Now (Rejected overloaded), g) ∧
  queueRequest answering (QuestionJob EmptyString []) 0 (boot answering (browser 0)) =
    (Later 0, processQueue answering
       (set_requestQueue [{| promise := 0; fn := QuestionJob EmptyString []; retries := 0 |}]
          (set_promises 1 (boot answering (browser 0))))).
Proof.
  intros g. split.
  - apply (C5_queue_bound answering (QuestionJob EmptyString []) 0 g). vm_compute. lia.
  - apply (C5_queue_bound answering (QuestionJob EmptyString []) 0 (boot answering (browser 0))).
    vm_compute. lia.
Defined.

(** C6 at work: the answers are empty or made of spaces, one of them of a
    no-break space and an em space. *)
Lemma C6_witness :
  fetches (world (generateInterviewFeedback answering EmptyString blankTranscript
                    (boot answering (browser 0))).2) = 0 ∧
  ∃ f, (generateInterviewFeedback answering EmptyString blankTranscript
          (boot answering (browser 0))).1 = Now (Resolved (Evaluation f)) ∧
       overallScore f = zero.
Proof.
  destruct (C6_empty_answers_score_zero_without_network answering EmptyString blankTranscript
              (boot answering (browser 0))) as (Hf & Hn & _).
  - repeat constructor.
  - split; [exact Hn | exact Hf].
Defined.

End GeminiFacts.

(** * Properties of the dialogue component *)

Module InterviewSessionFacts.

Import Gemini InterviewSession.

Lemma handleUserSpeech_resume_fields seen text reply v :
  session (handleUserSpeech_resume seen text reply v) = session v ∧
  lastSpeech (handleUserSpeech_resume seen text reply v) = lastSpeech v.
Proof.
  unfold handleUserSpeech_resume, respond, speakText.
  destruct (generateAIResponse reply); [| destruct (negb _)]; simpl;
    try destruct (_ && _); done.
Qed.

Lemma utterance_fields seen text reply v :
  session (utterance seen text reply v) = session v ∧
  lastSpeech (utterance seen text reply v) = text.
Proof.
  unfold utterance, debouncedHandleUserSpeech.
  case_bool_decide as Hsame; [by subst |].
  destruct (handleUserSpeech_start seen text (setLastSpeech text v)) as [v1 call] eqn:Hs.
  destruct (handleUserSpeech_resume_fields seen text reply v1) as [-> ->].
  unfold handleUserSpeech_start in Hs. by injection Hs as <- _.
Qed.

(** Claim C9. An utterance equal to the last one processed is ignored: the
    component state, and with it the conversation, is unchanged and no
    gateway call is issued. In particular, after any utterance [text] has
    been delivered, delivering [text] again changes nothing. *)
Theorem C9_repeated_utterance_is_ignored
    (seen seen' : list Turn) (text : string) (reply reply' : Settled string) (v : View) :
  debouncedHandleUserSpeech seen (lastSpeech v) v = (v, None) ∧
  let v1 := utterance seen text reply v in
  debouncedHandleUserSpeech seen' text v1 = (v1, None) ∧
  utterance seen' text reply' v1 = v1 ∧
  conversation (utterance seen' text reply' v1) = conversation v1.
Proof.
  assert (∀ s v0, debouncedHandleUserSpeech s (lastSpeech v0) v0 = (v0, None)) as Hsame.
  { intros s v0. unfold debouncedHandleUserSpeech. by rewrite bool_decide_eq_true_2. }
  split; [apply Hsame |]. intros v1.
  destruct (utterance_fields seen text reply v) as [_ Hlast]. fold v1 in Hlast.
  assert (debouncedHandleUserSpeech seen' text v1 = (v1, None)) as Hignored
    by (rewrite <- Hlast at 1; apply Hsame).
  assert (utterance seen' text reply' v1 = v1) as Hsame'
    by (unfold utterance; by rewrite Hignored).
  by rewrite Hsame'.
Qed.

(** The closures of the first render see an empty conversation: the
    handler registered with [onResult] starts the conversation anew with
    the utterance, and the call it issues carries the utterance only. *)
Lemma onResult_start s text reply v :
  text ≠ lastSpeech v →
  onResult s text reply v =
    (handleUserSpeechIn (firstRender s) text reply
       (setIsProcessing true (setWaitingForResponse false
          (setConversation (λ _, [userTurn text])
             (setResponseTimeout false (setIsListening false
                (setUserResponse text (setLastSpeech text v))))))),
     Some (CallQuestion EmptyString [text] [])).
Proof.
  intros Hnew. unfold onResult, turnIn, debouncedHandleUserSpeech.
  by rewrite bool_decide_eq_false_2.
Qed.

Lemma onResult_repeated s reply v : onResult s (lastSpeech v) reply v = (v, None).
Proof.
  unfold onResult, turnIn, debouncedHandleUserSpeech.
  by rewrite bool_decide_eq_true_2.
Qed.


Import Scenarios.

(** The component of the scenarios is the mounted one. *)
Lemma greeted_mounted : greeted = mount true (Some freshSession).
Proof. reflexivity. Qed.



End InterviewSessionFacts.

(** * Properties of the recording store *)

Module DbServiceFacts.

Import DbService.

Lemma createObjectURL_nonempty remote b : createObjectURL remote b ≠ EmptyString.
Proof. unfold createObjectURL. simpl. discriminate. Qed.

(** Claim C7, as amended. For a list of fragments that is not empty, the
    remote store handing out download URLs that are not empty,
    [storeRecording] resolves (it never rejects) with a reference that is
    not empty. The reference is the download URL exactly when every remote
    step succeeds: Firebase is configured and [storage] is set,
    [uploadBytes] of the concatenated blob to "recordings/<id>.webm" and
    [getDownloadURL] of that path resolve, and then, on localhost, they do
    so before the five-second timer fires, or, elsewhere, [getDoc] of the
    session resolves and, when the document exists, so does [setDoc] of the
    URL. Then no toast is shown. In every other case, a successful upload
    included, the reference is the object URL of the concatenated blob. *)
Theorem C7_storeRecording_returns_the_remote_url_only_if_every_remote_step_succeeds
    (remote : Remote) (sessionId : string) (recordingBlobs : list Blob) :
  recordingBlobs ≠ [] →
  (∀ path url, getDownloadURL remote path = Resolved url → url ≠ EmptyString) →
  let videoBlob :=
    {| bytes := concat (map bytes recordingBlobs); mime := "video/webm" |} in
  let path := "recordings/" +:+ sessionId +:+ ".webm" in
  let localhost := hostname remote = "localhost" ∨ hostname remote = "127.0.0.1" in
  let Stored (downloadURL : string) : Prop :=
    isFirebaseConfigured remote = true ∧ storage remote = true ∧
    uploadBytes remote path videoBlob = Resolved () ∧
    getDownloadURL remote path = Resolved downloadURL ∧
    ((localhost ∧ uploadTimesOut remote = false) ∨
     (¬ localhost ∧
      (getDoc remote sessionId = Resolved false ∨
       (getDoc remote sessionId = Resolved true ∧
        setDoc remote sessionId downloadURL = Resolved ())))) in
  ∃ url,
    (storeRecording remote sessionId recordingBlobs).1 = Resolved url ∧
    url ≠ EmptyString ∧
    (∀ downloadURL,
       Stored downloadURL →
       url = downloadURL ∧ (storeRecording remote sessionId recordingBlobs).2 = []) ∧
    ((∀ downloadURL, ¬ Stored downloadURL) →
     url = "blob:" +:+ origin remote +:+ "/" +:+ objectId remote videoBlob).
Proof.
  intros Hblobs Hurl videoBlob path localhost Stored.
  assert (isLocalhost remote = true ↔ localhost) as Hlocal.
  { unfold isLocalhost, localhost.
    rewrite orb_true_iff, !bool_decide_eq_true. done. }
  assert (∀ toasts,
            storeRecording remote sessionId recordingBlobs =
              (Resolved (createObjectURL remote videoBlob), toasts) →
            (∀ downloadURL, ¬ Stored downloadURL) →
            ∃ url,
              (storeRecording remote sessionId recordingBlobs).1 = Resolved url ∧
              url ≠ EmptyString ∧
              (∀ downloadURL,
                 Stored downloadURL →
                 url = downloadURL ∧
                 (storeRecording remote sessionId recordingBlobs).2 = []) ∧
              ((∀ downloadURL, ¬ Stored downloadURL) →
               url = "blob:" +:+ origin remote +:+ "/" +:+ objectId remote videoBlob))
    as Hblob.
  { intros toasts -> Hnone. eexists. split; [reflexivity |].
    split; [apply createObjectURL_nonempty |]. split; [| done].
    intros d Hd. by apply Hnone in Hd. }
  assert (∀ url,
            storeRecording remote sessionId recordingBlobs = (Resolved url, []) →
            Stored url →
            ∃ url,
              (storeRecording remote sessionId recordingBlobs).1 = Resolved url ∧
              url ≠ EmptyString ∧
              (∀ downloadURL,
                 Stored downloadURL →
                 url = downloadURL ∧
                 (storeRecording remote sessionId recordingBlobs).2 = []) ∧
              ((∀ downloadURL, ¬ Stored downloadURL) →
               url = "blob:" +:+ origin remote +:+ "/" +:+ objectId remote videoBlob))
    as Hremote.
  { intros url -> Hstored. exists url. split; [reflexivity |].
    split; [eapply Hurl; apply Hstored |]. split.
    - intros d Hd. split; [| reflexivity].
      destruct Hstored as (_ & _ & _ & Hget & _). destruct Hd as (_ & _ & _ & Hget' & _).
      congruence.
    - intros Hnone. by apply Hnone in Hstored. }
  revert Hblob Hremote.
  unfold storeRecording, storeRecording_try.
  rewrite bool_decide_eq_false_2 by (by destruct recordingBlobs).
  change (newBlob recordingBlobs "video/webm") with videoBlob.
  destruct (isFirebaseConfigured remote) eqn:Hconf; cbn [negb orb].
  2:{ intros Hblob _. eapply Hblob; [reflexivity |]. by intros d (? & _). }
  destruct (storage remote) eqn:Hstore; cbn [negb orb].
  2:{ intros Hblob _. eapply Hblob; [reflexivity |]. by intros d (_ & ? & _). }
  unfold uploadOrTimeout, uploadAndRecord, upload, recordingPath.
  change ("recordings/" +:+ sessionId +:+ ".webm") with path.
  destruct (isLocalhost remote) eqn:Hl.
  - assert localhost as Hyes by by apply Hlocal.
    destruct (uploadTimesOut remote) eqn:Htimer.
    { intros Hblob _. eapply Hblob; [reflexivity |].
      intros d (_ & _ & _ & _ & [[_ ?] | [? _]]); done. }
    destruct (uploadBytes remote path videoBlob) as [[] | e] eqn:Hup.
    2:{ intros Hblob _. eapply Hblob; [reflexivity |]. by intros d (_ & _ & ? & _). }
    destruct (getDownloadURL remote path) as [d | e] eqn:Hget.
    2:{ intros Hblob _. eapply Hblob; [reflexivity |].
        by intros d (_ & _ & _ & ? & _). }
    intros _ Hremote. apply (Hremote d); [reflexivity |].
    repeat split; try done. by left.
  - assert (¬ localhost) as Hno.
    { intros Hyes. apply Hlocal in Hyes. congruence. }
    destruct (uploadBytes remote path videoBlob) as [[] | e] eqn:Hup.
    2:{ intros Hblob _. eapply Hblob; [reflexivity |]. by intros d (_ & _ & ? & _). }
    destruct (getDownloadURL remote path) as [d | e] eqn:Hget.
    2:{ intros Hblob _. eapply Hblob; [reflexivity |].
        by intros d (_ & _ & _ & ? & _). }
    destruct (getDoc remote sessionId) as [[] | e] eqn:Hdoc.
    + destruct (setDoc remote sessionId d) as [[] | e] eqn:Hset.
      * intros _ Hremote. apply (Hremote d); [reflexivity |].
        repeat split; try done. right. split; [done |]. by right.
      * intros Hblob _. eapply Hblob; [reflexivity |].
        intros d' (_ & _ & _ & Hget' & [[? _] | [_ [? | [_ Hset']]]]); [done | done |].
        assert (d' = d) as -> by congruence. congruence.
    + intros _ Hremote. apply (Hremote d); [reflexivity |].
      repeat split; try done. right. split; [done |]. by left.
    + intros Hblob _. eapply Hblob; [reflexivity |].
      intros d' (_ & _ & _ & _ & [[? _] | [_ [? | [? _]]]]); done.
Qed.

(** Claim C10. With no fragment at all, the [try] block of
    [storeRecording] throws "No recording data provided", the outer handler
    catches it, and [storeRecording] resolves with the object URL of an
    empty blob. *)
Theorem C10_storeRecording_of_nothing_resolves (remote : Remote) (sessionId : string) :
  storeRecording remote sessionId [] =
    (Resolved (createObjectURL remote (newBlob [] "video/webm")),
     ["Recording Saved Locally"]) ∧
  (storeRecording_try remote sessionId []).1 = Rejected "No recording data provided" ∧
  bytes (newBlob [] "video/webm") = [] ∧
  createObjectURL remote (newBlob [] "video/webm") ≠ EmptyString.
Proof.
  repeat split; by try apply createObjectURL_nonempty.
Qed.

Import Scenarios.

(** C7 as stated fails. The upload succeeds and a download URL exists, and
    yet the object URL is returned: on a deployed page because the session
    document cannot be read, on localhost because the timer fires first. *)
Lemma C7_counterexample :
  let video := newBlob fragments "video/webm" in
  uploadBytes unrecorded "recordings/s-1.webm" video = Resolved () ∧
  getDownloadURL unrecorded "recordings/s-1.webm" =
    Resolved "https://firebasestorage.googleapis.com/recordings/s-1.webm" ∧
  storeRecording unrecorded "s-1" fragments =
    (Resolved "blob:https://interview.example.org/6f1c2d9e", ["Storage Error"]) ∧
  uploadBytes slow "recordings/s-1.webm" video = Resolved () ∧
  getDownloadURL slow "recordings/s-1.webm" =
    Resolved "https://firebasestorage.googleapis.com/recordings/s-1.webm" ∧
  storeRecording slow "s-1" fragments =
    (Resolved "blob:http://localhost:8080/6f1c2d9e", ["Local Development"]).
Proof. by vm_compute. Qed.

(** The amended C7 at work: every remote step succeeds and the download
    URL is returned; the store cannot be reached and the object URL is
    returned. *)
Lemma C7_witness :
  (storeRecording reachable "s-1" fragments).1 =
    Resolved "https://firebasestorage.googleapis.com/recordings/s-1.webm" ∧
  (storeRecording unreachable "s-1" fragments).1 =
    Resolved "blob:https://interview.example.org/6f1c2d9e".
Proof.
  split.
  - destruct (C7_storeRecording_returns_the_remote_url_only_if_every_remote_step_succeeds
                reachable "s-1" fragments) as (url & Hurl & _ & Hremote & _).
    + discriminate.
    + intros path url [= <-]. simpl. discriminate.
    + rewrite Hurl. f_equal.
      apply (Hremote "https://firebasestorage.googleapis.com/recordings/s-1.webm").
      repeat split. right. split; [| by right].
      intros [H | H]; discriminate H.
  - destruct (C7_storeRecording_returns_the_remote_url_only_if_every_remote_step_succeeds
                unreachable "s-1" fragments) as (url & Hurl & _ & _ & Hlocal).
    + discriminate.
    + intros path url [= <-]. simpl. discriminate.
    + rewrite Hurl. f_equal. apply Hlocal.
      intros d (_ & _ & Hup & _). discriminate Hup.
Defined.

End DbServiceFacts.

(** * More properties of the gateway *)

Module GatewayFacts.

Import Gemini Gateway GeminiFacts.

(** ** The order of the promises *)

Section Order.

Variable oracle : Oracle.

Lemma Ordered_processQueue g : Steady g → Ordered g → Ordered (processQueue oracle g).
Proof.
  intros HS HO.
  destruct (processQueue_cases oracle g) as [? | d Hl Hp | request rest v w' Hl Hq Hp Hr].
  - done.
  - destruct (Steady_idle g HS Hl) as [_ ?]. lia.
  - destruct (Steady_idle g HS Hl) as [Hfl _].
    destruct HO as (k & Hk & Hs & Hids). exists k.
    rewrite Hfl, Hq in Hids. destruct g; simpl in *. subst. done.
Qed.

Lemma Ordered_queueRequest job retries g :
  Inv g → Ordered g → Ordered (snd (queueRequest oracle job retries g)).
Proof.
  intros [HS _] HO. unfold queueRequest. case_bool_decide; [done |]. cbn [snd].
  apply Ordered_processQueue; [by apply Steady_push |].
  destruct HO as (k & Hk & Hs & Hids). exists k.
  destruct g as [ak q ip lrt lock fl tm st pr w rd]. setters.
  split; [lia |]. split; [done |].
  rewrite map_app, app_assoc, Hids. cbn [map promise].
  replace (S pr - k) with (S (pr - k)) by lia. rewrite seq_S. do 2 f_equal. lia.
Qed.

(** The request in flight is the oldest promise that has not settled. *)
Lemma Ordered_settle i g : Inv g → Ordered g → Ordered (settle i g).
Proof.
  intros [HS _] (k & Hk & Hs & Hids). unfold settle.
  destruct (inFlight g !! i) as [[id v] |] eqn:Hi; [| by exists k].
  pose proof (inv_single g HS) as Hone.
  destruct g as [ak q ip lrt lock fl tm st pr w rd]. setters.
  destruct fl as [| p [| ? ?]]; [done | | exfalso; simpl in Hone; clear -Hone; lia].
  destruct i; [| done]. simpl in Hi. injection Hi as ->.
  simpl in Hids. destruct (pr - k) as [| n] eqn:Hn; [done |].
  simpl in Hids. injection Hids as -> Hrest.
  exists (S k). simpl. split; [lia |]. split.
  - intros i. destruct (decide (i = k)) as [-> | Hne].
    + rewrite lookup_insert_eq. split; [lia | by eexists].
    + rewrite lookup_insert_ne by done. rewrite Hs. lia.
  - rewrite Hrest. f_equal. lia.
Qed.

Lemma Ordered_fire i g : Inv g → Ordered g → Ordered (fire oracle i g).
Proof.
  intros [HS _] HO. unfold fire.
  destruct (timers g !! i) as [t |] eqn:Hi; [| done].
  destruct (inv_timers g HS t) as [d ->]; [by eapply list_elem_of_lookup_2 |].
  apply Ordered_processQueue; [by apply Steady_drop_timer |].
  destruct HO as (k & ?). exists k. by destruct g.
Qed.

Lemma Ordered_initApiKey g : Ordered g → Ordered (initApiKey oracle g).
Proof.
  intros (k & ?). exists k. unfold initApiKey.
  repeat (case_bool_decide || case_match); by destruct g.
Qed.

Lemma Ordered_step e g : Inv g → Ordered g → Ordered (step oracle e g).
Proof.
  intros HI HO. destruct e as [jd pq pa | jd tr | key | i | i]; simpl.
  - unfold generateInterviewQuestion.
    set (g1 := if bool_decide (apiKey g = EmptyString) then initApiKey oracle g else g).
    assert (Inv g1 ∧ Ordered g1) as [HI1 HO1].
    { unfold g1. case_bool_decide; auto using Inv_initApiKey, Ordered_initApiKey. }
    clearbody g1. case_bool_decide.
    + destruct HO1 as (k & ?). exists k. by destruct g1.
    + by apply Ordered_queueRequest.
  - unfold generateInterviewFeedback.
    set (g1 := if bool_decide (apiKey g = EmptyString) then initApiKey oracle g else g).
    assert (Inv g1 ∧ Ordered g1) as [HI1 HO1].
    { unfold g1. case_bool_decide; auto using Inv_initApiKey, Ordered_initApiKey. }
    clearbody g1. case_bool_decide.
    + destruct HO1 as (k & ?). exists k. by destruct g1.
    + destruct (negb _); [done |]. by apply Ordered_queueRequest.
  - unfold setGeminiApiKey. destruct (_ && _); [| done].
    destruct HO as (k & ?). exists k. by destruct g.
  - by apply Ordered_settle.
  - by apply Ordered_fire.
Qed.

Lemma Ordered_exec events g : Inv g → Ordered g → Ordered (exec oracle events g).
Proof.
  revert g. induction events as [| e events IH]; intros g HI HO; [done |].
  apply IH; [by apply Inv_step | by apply Ordered_step].
Qed.

Lemma Ordered_after history w : Ordered (after oracle history w).
Proof.
  apply Ordered_exec; [apply Inv_boot |].
  apply Ordered_initApiKey. exists 0. simpl. split; [done |]. split; [| done].
  intros i. rewrite lookup_empty. split; [by intros [? ?] | lia].
Qed.

(** ** The length of the queue *)

Lemma processQueue_queue g :
  length (requestQueue (processQueue oracle g)) ≤ length (requestQueue g).
Proof.
  destruct (processQueue_cases oracle g) as [? | d Hl Hp | request rest v w' Hl Hq Hp Hr];
    simpl; [done | done |]. rewrite Hq. simpl. lia.
Qed.

Lemma queue_bound_step e g :
  length (requestQueue g) ≤ maxQueueSize →
  length (requestQueue (step oracle e g)) ≤ maxQueueSize.
Proof.
  intros Hb.
  assert (∀ job g1, requestQueue g1 = requestQueue g →
            length (requestQueue (queueRequest oracle job 0 g1).2) ≤ maxQueueSize) as Hq.
  { intros job g1 Hg1. unfold queueRequest. rewrite Hg1.
    case_bool_decide as Hfull; cbn [snd]; [by rewrite Hg1 |].
    etrans; [apply processQueue_queue |].
    destruct g1; simpl in *. subst. rewrite length_app. simpl. lia. }
  assert (∀ g1, g1 = (if bool_decide (apiKey g = EmptyString) then initApiKey oracle g else g) →
            requestQueue g1 = requestQueue g) as Hinit.
  { intros g1 ->. case_bool_decide; [| done]. unfold initApiKey.
    repeat (case_bool_decide || case_match); by destruct g. }
  destruct e as [jd pq pa | jd tr | key | i | i]; simpl.
  - unfold generateInterviewQuestion.
    set (g1 := if bool_decide (apiKey g = EmptyString) then initApiKey oracle g else g).
    specialize (Hinit g1 eq_refl). clearbody g1.
    case_bool_decide; [destruct g1; simpl in *; by subst | by apply Hq].
  - unfold generateInterviewFeedback.
    set (g1 := if bool_decide (apiKey g = EmptyString) then initApiKey oracle g else g).
    specialize (Hinit g1 eq_refl). clearbody g1.
    case_bool_decide; [destruct g1; simpl in *; by subst |].
    destruct (negb _); [cbn [snd]; by rewrite Hinit | by apply Hq].
  - unfold setGeminiApiKey. destruct (_ && _); [| done]. by destruct g.
  - unfold settle. destruct (inFlight g !! i) as [[id v] |]; [| done]. by destruct g.
  - unfold fire. destruct (timers g !! i) as [t |]; [| done].
    destruct t; (etrans; [apply processQueue_queue |]); by destruct g.
Qed.

Lemma queue_bound_exec events g :
  length (requestQueue g) ≤ maxQueueSize →
  length (requestQueue (exec oracle events g)) ≤ maxQueueSize.
Proof.
  revert g. induction events as [| e events IH]; intros g Hb; [done |].
  by apply IH, queue_bound_step.
Qed.

Lemma queue_bound_after history w :
  length (requestQueue (after oracle history w)) ≤ maxQueueSize.
Proof.
  apply queue_bound_exec. unfold boot, load, initApiKey.
  repeat (case_bool_decide || case_match); simpl; unfold maxQueueSize; lia.
Qed.

End Order.

(** Property X1. In every state the gateway can reach, at most one request
    is in flight, [inProgress] is the number of requests in flight (so the
    limit [requestsPerMinute] is never met), the lock is held exactly while
    a request is in flight, no throttling timer is ever armed (the branch
    of [processQueue] that waits for [minInterval] is never taken), and
    entries wait only while a request is in flight or a timer is pending. *)
Theorem one_request_at_a_time (oracle : Oracle) (history : list Event) (w0 : World) :
  let g := after oracle history w0 in
  length (inFlight g) ≤ 1 ∧
  inProgress g = Z.of_nat (length (inFlight g)) ∧
  (inProgress g < Z.of_nat requestsPerMinute)%Z ∧
  (queueLock g = true ↔ inFlight g ≠ []) ∧
  (∀ t, t ∈ timers g → ∃ d, t = ProcessLater d) ∧
  (requestQueue g ≠ [] → inFlight g ≠ [] ∨ timers g ≠ []).
Proof.
  intros g. assert (Inv g) as [HS Hprog] by apply Inv_after. clearbody g.
  destruct HS as [Hip Hone Hlock Htm _ _ _].
  split; [done |]. split; [done |]. split; [unfold requestsPerMinute; lia |].
  split; [| done]. rewrite Hlock. by rewrite bool_decide_eq_true.
Qed.

(** Property X2. Requests are served first in, first out: in every state
    the gateway can reach, when the promise of a call has settled, the
    promises of all the calls accepted before it have settled too. *)
Theorem promises_settle_in_creation_order
    (oracle : Oracle) (history : list Event) (w0 : World) (a b : nat) :
  let g := after oracle history w0 in
  a ≤ b → is_Some (settled g !! b) → is_Some (settled g !! a).
Proof.
  intros g Hab Hb. destruct (Ordered_after oracle history w0) as (k & _ & Hs & _).
  fold g in Hs. apply Hs. apply Hs in Hb. lia.
Qed.

(** Property X3. No accepted request is lost or served twice: in every
    state the gateway can reach, each promise created so far is settled, in
    flight or waiting, and only one of these; the promises in flight and
    waiting are pairwise distinct; and at most [maxQueueSize] entries
    wait. *)
Theorem no_request_is_lost (oracle : Oracle) (history : list Event) (w0 : World) :
  let g := after oracle history w0 in
  size (settled g) + length (inFlight g) + length (requestQueue g) = promises g ∧
  NoDup (map fst (inFlight g) ++ map promise (requestQueue g)) ∧
  (∀ id, id < promises g →
     is_Some (settled g !! id) ∨ (∃ v, (id, v) ∈ inFlight g) ∨
     (∃ e, e ∈ requestQueue g ∧ promise e = id)) ∧
  (∀ id, is_Some (settled g !! id) →
     id ∉ map fst (inFlight g) ++ map promise (requestQueue g)) ∧
  length (requestQueue g) ≤ maxQueueSize.
Proof.
  intros g. pose proof (queue_bound_after oracle history w0) as Hb. fold g in Hb.
  destruct (Ordered_after oracle history w0) as (k & Hk & Hs & Hids). fold g in Hk, Hs, Hids.
  clearbody g.
  assert (size (settled g) = k) as Hsize.
  { rewrite <- size_dom. rewrite <- (size_set_seq (C:=gset nat) 0 k). f_equal.
    apply set_eq. intros i. rewrite elem_of_dom, elem_of_set_seq, Hs. lia. }
  split.
  { pose proof (f_equal length Hids) as Hlen.
    rewrite length_app, !length_map, length_seq in Hlen. lia. }
  split; [rewrite Hids; apply NoDup_seq |].
  split.
  { intros id Hid. destruct (decide (id < k)) as [? | Hge]; [left; by apply Hs | right].
    assert (id ∈ map fst (inFlight g) ++ map promise (requestQueue g)) as Hin.
    { rewrite Hids. apply elem_of_seq. lia. }
    apply elem_of_app in Hin as [Hin | Hin].
    - left. apply list_elem_of_fmap in Hin as ([id' v] & -> & ?). by exists v.
    - right. apply list_elem_of_fmap in Hin as (e & -> & ?). by exists e. }
  split; [| done].
  intros id Hid. rewrite Hids, elem_of_seq. apply Hs in Hid. lia.
Qed.

(** ** Coming to rest *)

Section Rest.

Variable oracle : Oracle.

Lemma promises_processQueue g : promises (processQueue oracle g) = promises g.
Proof.
  by destruct (processQueue_cases oracle g) as [? | d Hl Hp | request rest v w' Hl Hq Hp Hr].
Qed.

(** The event loop creates no promise. *)
Lemma promises_drain n g : promises (exec oracle (drain n) g) = promises g.
Proof.
  revert g. induction n as [| n IH]; intros g; [done |].
  unfold drain. simpl. fold (drain n).
  change (exec oracle ([Settle 0; Fire 0] ++ drain n) g)
    with (exec oracle (drain n) (fire oracle 0 (settle 0 g))).
  rewrite IH. unfold fire.
  assert (promises (settle 0 g) = promises g) as Hs.
  { unfold settle. destruct (inFlight g !! 0) as [[id v] |]; [| done]. by destruct g. }
  destruct (timers (settle 0 g) !! 0) as [t |]; [| done].
  destruct t; rewrite promises_processQueue; by destruct (settle 0 g).
Qed.

End Rest.

(** Property X24. The gateway comes to rest: from every state it can
    reach, once the event loop has turned one time more than entries wait
    (the request in flight finishes, the oldest timer fires) and no new
    call is made, every promise ever created has settled, nothing waits
    and nothing is in flight, the lock is free and [inProgress] is zero. *)
Theorem gateway_comes_to_rest (oracle : Oracle) (history : list Event) (w0 : World) :
  let g := after oracle history w0 in
  let g' := exec oracle (drain (S (length (requestQueue g)))) g in
  (∀ id, id < promises g → is_Some (settled g' !! id)) ∧
  promises g' = promises g ∧
  requestQueue g' = [] ∧ inFlight g' = [] ∧
  queueLock g' = false ∧ inProgress g' = 0%Z.
Proof.
  intros g g'.
  assert (Inv g) as HI by apply Inv_after.
  assert (Ordered g) as HO by apply Ordered_after.
  clearbody g.
  assert (promises g' = promises g) as Hp by apply promises_drain.
  assert (∀ id, id < promises g → is_Some (settled g' !! id)) as Hall.
  { intros id Hid. apply drain_settles; [done |].
    destruct HO as (k & Hk & Hs & Hids).
    destruct (decide (id < k)) as [? | Hge]; [left; by apply Hs |].
    assert (id ∈ map fst (inFlight g) ++ map promise (requestQueue g)) as Hin.
    { rewrite Hids. apply elem_of_seq. lia. }
    apply elem_of_app in Hin as [Hin | Hin].
    - right. left. apply list_elem_of_fmap in Hin as ([id' v] & -> & ?). by exists v.
    - right. right. apply list_elem_of_fmap in Hin as (e & -> & He).
      apply list_elem_of_lookup in He as [j Hj].
      exists j, e. split; [by eapply lookup_lt_Some | done]. }
  assert (Inv g') as [HS' _] by by apply Inv_exec.
  assert (Ordered g') as (k & Hk & Hs & Hids) by by apply Ordered_exec.
  clearbody g'.
  assert (k = promises g') as ->.
  { destruct (decide (k = promises g')) as [? | Hne]; [done | exfalso].
    assert (is_Some (settled g' !! k)) as Hsome by (apply Hall; lia).
    apply Hs in Hsome. lia. }
  rewrite Nat.sub_diag in Hids. simpl in Hids.
  apply app_eq_nil in Hids as [Hfl Hq].
  apply map_eq_nil in Hfl, Hq.
  split; [done |]. split; [done |]. split; [done |]. split; [done |].
  destruct HS' as [Hip _ Hlock _ _ _ _]. rewrite Hlock, Hip, Hfl.
  split; [by rewrite bool_decide_eq_false_2 by (intros H; by apply H) | done].
Qed.

(** ** The ledger *)

Section Ledger.

Variable oracle : Oracle.

(** After the count, a pass leaves the ledger and the clock alone, and it
    sends a request only when the count is below the quota. *)
Lemma questionPass_world jd pq retries w p w' :
  questionPass oracle jd pq retries w = (p, w') →
  ∃ c w1, trackApiUsage oracle w = (c, w1) ∧
    usage w' = usage w1 ∧ reads w' = reads w1 ∧
    (fetches w' = fetches w1 ∨ fetches w' = S (fetches w1) ∧ (c < dailyQuota)%N).
Proof.
  unfold questionPass, fallbackQuestion, fetch.
  destruct (trackApiUsage oracle w) as [c w1] eqn:Htrack.
  intros Hpass. exists c, w1. split; [done |].
  assert (∀ w2 q w3, getDefaultQuestion oracle jd pq w2 = (q, w3) →
            usage w3 = usage w2 ∧ reads w3 = reads w2 ∧ fetches w3 = fetches w2) as Hfb.
  { intros w2 q w3 Hq. by apply getDefaultQuestion_spec in Hq as (_ & ? & ? & ? & _). }
  revert Hpass.
  repeat (case_match || case_bool_decide); intros; simplify_eq;
    try match goal with H : getDefaultQuestion _ _ _ _ = _ |- _ =>
          apply Hfb in H as (-> & -> & ->) end;
    simpl; (split; [done |]); (split; [done |]); auto with lia.
Qed.

Lemma feedbackPass_world retries w p w' :
  feedbackPass oracle retries w = (p, w') →
  ∃ c w1, trackApiUsage oracle w = (c, w1) ∧
    usage w' = usage w1 ∧ reads w' = reads w1 ∧
    (fetches w' = fetches w1 ∨ fetches w' = S (fetches w1) ∧ (c < dailyQuota)%N).
Proof.
  unfold feedbackPass, fetch.
  destruct (trackApiUsage oracle w) as [c w1] eqn:Htrack.
  intros Hpass. exists c, w1. split; [done |]. revert Hpass.
  repeat (case_match || case_bool_decide); intros; simplify_eq;
    simpl; (split; [done |]); (split; [done |]); auto with lia.
Qed.

Lemma Counted_intro day w w' c w1 :
  (∀ k, reads w ≤ k → today_at oracle k = day) →
  trackApiUsage oracle w = (c, w1) →
  usage w' = usage w1 → reads w' = reads w1 →
  (fetches w' = fetches w1 ∨ fetches w' = S (fetches w1) ∧ (c < dailyQuota)%N) →
  Counted oracle day w w'.
Proof.
  intros Hclock Htrack Hu Hr Hf.
  apply trackApiUsage_spec in Htrack as (Hc & Hc' & Hother & Hr1 & Hf1 & _).
  rewrite (Hclock (reads w)) in Hc, Hc', Hother by lia.
  assert (∀ d, count d w' = count d w1) as Hcount by (intros d; unfold count; by rewrite Hu).
  split; [intros k Hk; apply Hclock; lia |].
  split; [rewrite Hcount; lia |].
  split; [intros d Hd; rewrite Hcount; by apply Hother |].
  rewrite Hcount, Hc', Hf1 in *. done.
Qed.

Lemma questionPass_counted day jd pq retries w p w' :
  (∀ k, reads w ≤ k → today_at oracle k = day) →
  questionPass oracle jd pq retries w = (p, w') → Counted oracle day w w'.
Proof.
  intros Hclock Hpass.
  apply questionPass_world in Hpass as (c & w1 & ? & ? & ? & ?).
  by eapply Counted_intro.
Qed.

Lemma feedbackPass_counted day retries w p w' :
  (∀ k, reads w ≤ k → today_at oracle k = day) →
  feedbackPass oracle retries w = (p, w') → Counted oracle day w w'.
Proof.
  intros Hclock Hpass.
  apply feedbackPass_world in Hpass as (c & w1 & ? & ? & ? & ?).
  by eapply Counted_intro.
Qed.

Lemma Metered_return day left w w' :
  Counted oracle day w w' → slept w' = slept w → Metered oracle day left w w'.
Proof.
  intros (Hclock & Hc & Hother & Hf) Hs. exists []. rewrite app_nil_r. simpl.
  repeat split; [done | lia | done | lia | done | lia | lia |].
  unfold dailyQuota in *. lia.
Qed.

Lemma Metered_again day left w w1 d w' :
  Counted oracle day w w1 → slept w1 = slept w →
  Metered oracle day left (sleep d w1) w' → Metered oracle day (S left) w w'.
Proof.
  intros (Hclock & Hc & Hother & Hf) Hs
    (waits & Hs' & Hlen & Hclock' & Hc' & Hother' & Hf1 & Hf2 & Hcap).
  exists (d :: waits). simpl in *.
  change (count day (sleep d w1)) with (count day w1) in *.
  repeat split.
  - by rewrite Hs', Hs, <- app_assoc.
  - lia.
  - done.
  - lia.
  - intros d' Hd. rewrite Hother' by done.
    change (count d' (sleep d w1)) with (count d' w1). by apply Hother.
  - lia.
  - lia.
  - unfold dailyQuota in *. lia.
Qed.

Lemma makeRequest_metered day jd pq retries w q w' :
  (∀ k, reads w ≤ k → today_at oracle k = day) →
  makeRequest oracle jd pq retries w = (q, w') →
  Metered oracle day (maxRetries - retries) w w'.
Proof.
  revert q w'.
  apply (makeRequest_passes oracle jd pq (λ retries w r, ∀ q w',
    (∀ k, reads w ≤ k → today_at oracle k = day) → r = (q, w') →
    Metered oracle day (maxRetries - retries) w w')); clear retries w.
  - intros retries w v w' Hpass q w'' Hclock [= <- <-].
    apply Metered_return; [by eapply questionPass_counted |].
    by apply questionPass_cases in Hpass as (? & _).
  - intros retries w d w' Hpass IH q w'' Hclock Hrun.
    pose proof (questionPass_counted day _ _ _ _ _ _ Hclock Hpass) as Hcounted.
    apply questionPass_cases in Hpass as (Hs & Hlt & _).
    replace (maxRetries - retries) with (S (maxRetries - S retries)) by lia.
    eapply Metered_again; [done | done |].
    eapply IH; [| done]. by destruct Hcounted as (? & _).
Qed.

Lemma makeFeedbackRequest_metered day retries w f w' :
  (∀ k, reads w ≤ k → today_at oracle k = day) →
  makeFeedbackRequest oracle retries w = (f, w') →
  Metered oracle day (maxRetries - retries) w w'.
Proof.
  revert f w'.
  apply (makeFeedbackRequest_passes oracle (λ retries w r, ∀ f w',
    (∀ k, reads w ≤ k → today_at oracle k = day) → r = (f, w') →
    Metered oracle day (maxRetries - retries) w w')); clear retries w.
  - intros retries w v w' Hpass f w'' Hclock [= <- <-].
    apply Metered_return; [by eapply feedbackPass_counted |].
    by apply feedbackPass_cases in Hpass as (? & _).
  - intros retries w d w' Hpass IH f w'' Hclock Hrun.
    pose proof (feedbackPass_counted day _ _ _ _ Hclock Hpass) as Hcounted.
    apply feedbackPass_cases in Hpass as (Hs & _ & _ & Hlt & _).
    replace (maxRetries - retries) with (S (maxRetries - S retries)) by lia.
    eapply Metered_again; [done | done |].
    eapply IH; [| done]. by destruct Hcounted as (? & _).
Qed.

Lemma runJob_metered day job w v w' :
  (∀ k, reads w ≤ k → today_at oracle k = day) →
  runJob oracle job w = (v, w') → Metered oracle day maxRetries w w'.
Proof.
  intros Hclock. unfold runJob. destruct job as [jd pq | jd tr].
  - destruct (makeRequest oracle jd pq 0 w) as [q w1] eqn:Hrun. intros [= <- <-].
    apply (makeRequest_metered day) in Hrun; [| done].
    by rewrite Nat.sub_0_r in Hrun.
  - destruct (makeFeedbackRequest oracle 0 w) as [f w1] eqn:Hrun. intros [= <- <-].
    apply (makeFeedbackRequest_metered day) in Hrun; [| done].
    by rewrite Nat.sub_0_r in Hrun.
Qed.

Lemma Capped_ext day w0 w w' :
  usage w' = usage w → fetches w' = fetches w → reads w ≤ reads w' →
  Capped oracle day w0 w → Capped oracle day w0 w'.
Proof.
  intros Hu Hf Hr (Hclock & ? & ? & ?).
  assert (count day w' = count day w) as Hc by (unfold count; by rewrite Hu).
  rewrite <- Hf, <- Hc in *. split; [| done]. intros k Hk. apply Hclock. lia.
Qed.

Lemma Capped_run day w0 job w v w' :
  Capped oracle day w0 w → runJob oracle job w = (v, w') → Capped oracle day w0 w'.
Proof.
  intros (Hclock & Hf & Hc & Hcap) Hrun.
  destruct (runJob_metered day job w v w' Hclock Hrun)
    as (waits & _ & _ & Hclock' & Hc' & _ & Hf1 & _ & Hcap').
  split; [done |]. split; [lia |]. split; [lia |]. lia.
Qed.

End Ledger.

(** Property X4. The ledger counts attempts, not successes: while the clock
    shows one day, a request body raises the count of that day by one for
    its first pass and by one more for each wait it makes (at most
    [maxRetries]), whether the pass sends a request or is stopped by the
    quota; it leaves the counts of the other days alone, and it sends at
    most as many requests as it counts. *)
Theorem every_attempt_is_counted
    (oracle : Oracle) (day : string) (job : Job) (w : World)
    (v : Settled Value) (w' : World) :
  (∀ k, reads w ≤ k → today_at oracle k = day) →
  runJob oracle job w = (v, w') →
  ∃ waits, slept w' = slept w ++ waits ∧ length waits ≤ maxRetries ∧
    count day w' = (count day w + 1 + N.of_nat (length waits))%N ∧
    (∀ d, d ≠ day → count d w' = count d w) ∧
    fetches w ≤ fetches w' ∧ fetches w' ≤ fetches w + 1 + length waits.
Proof.
  intros Hclock Hrun.
  destruct (runJob_metered oracle day job w v w' Hclock Hrun)
    as (waits & ? & ? & _ & ? & ? & ? & ? & _).
  by exists waits.
Qed.

(** Property X5. The daily quota caps the traffic of the whole gateway:
    while the clock shows one day, whatever calls are made and however the
    endpoint answers, the two operations together send at most
    [dailyQuota - 1] requests less the count the ledger showed at the
    start, and never more requests than they add to the ledger. *)
Theorem daily_cap_on_network_requests
    (oracle : Oracle) (day : string) (history : list Event) (w0 : World) :
  (∀ k, reads w0 ≤ k → today_at oracle k = day) →
  let g := after oracle history w0 in
  fetches w0 ≤ fetches (world g) ∧
  (N.of_nat (fetches (world g) - fetches w0) ≤ dailyQuota - 1 - count day w0)%N ∧
  (N.of_nat (fetches (world g) - fetches w0) ≤ count day (world g) - count day w0)%N.
Proof.
  intros Hclock g.
  assert (Capped oracle day w0 (world g)) as (_ & Hf & Hc & Hcap).
  { apply (OfWorld_exec oracle (Capped oracle day w0) None).
    - intros w. apply Capped_ext; simpl; auto.
    - intros t w. apply Capped_ext; simpl; auto.
    - intros k w. apply Capped_ext; simpl; auto.
    - intros job w v w'. apply Capped_run.
    - apply ledgerFault_load.
    - unfold boot, load. rewrite world_initApiKey. simpl.
      split; [done |]. split; [done |]. split; lia. }
  clearbody g. split; [done |]. unfold dailyQuota in *. lia.
Qed.

(** ** Failures of the endpoint *)

Section Failures.

Variable oracle : Oracle.

Lemma questionPass_network_failure jd pq retries w p w' :
  (count (today_at oracle (reads w)) w + 1 < dailyQuota)%N →
  response_at oracle (fetches w) = NetworkFailure →
  questionPass oracle jd pq retries w = (p, w') →
  (∃ q, p = Return q ∧ Fallback jd pq q) ∧ fetches w' = S (fetches w) ∧ slept w' = slept w.
Proof.
  intros Hcount Hreply. unfold questionPass, fallbackQuestion, fetch.
  destruct (trackApiUsage oracle w) as [c w0] eqn:Htrack.
  apply trackApiUsage_spec in Htrack as (Hc & _ & _ & _ & Hf0 & _ & Hs0 & _).
  rewrite bool_decide_eq_false_2 by lia. rewrite Hf0, Hreply.
  destruct (getDefaultQuestion _ _ _ _) as [q w2] eqn:Hq. intros [= <- <-].
  apply getDefaultQuestion_spec in Hq as (Hfb & _ & _ & Hf2 & Hs2 & _).
  simpl in Hf2, Hs2. split; [by exists q |]. split; congruence.
Qed.

Lemma questionPass_failed_status jd pq retries w s c p w' :
  (count (today_at oracle (reads w)) w + 1 < dailyQuota)%N →
  response_at oracle (fetches w) = Reply s c → ok s = false → s ≠ 429%Z →
  retries < maxRetries →
  questionPass oracle jd pq retries w = (p, w') →
  p = Again (baseRetryDelay * 2 ^ Z.of_nat retries)%Z ∧
  fetches w' = S (fetches w) ∧ slept w' = slept w.
Proof.
  intros Hcount Hreply Hok Hs Hlt. unfold questionPass, fallbackQuestion, fetch.
  destruct (trackApiUsage oracle w) as [n w0] eqn:Htrack.
  apply trackApiUsage_spec in Htrack as (Hc & _ & _ & _ & Hf0 & _ & Hs0 & _).
  rewrite bool_decide_eq_false_2 by lia. rewrite Hf0, Hreply, Hok. cbn [negb].
  rewrite (bool_decide_eq_false_2 (s = 429%Z)) by done.
  rewrite bool_decide_eq_true_2 by done.
  intros [= <- <-]. simpl. split; [done |]. split; congruence.
Qed.

Lemma feedbackPass_network_failure retries w p w' :
  (count (today_at oracle (reads w)) w + 1 < dailyQuota)%N →
  response_at oracle (fetches w) = NetworkFailure →
  feedbackPass oracle retries w = (p, w') →
  p = Return getDefaultFeedback ∧ fetches w' = S (fetches w) ∧ slept w' = slept w.
Proof.
  intros Hcount Hreply. unfold feedbackPass, fetch.
  destruct (trackApiUsage oracle w) as [c w0] eqn:Htrack.
  apply trackApiUsage_spec in Htrack as (Hc & _ & _ & _ & Hf0 & _ & Hs0 & _).
  rewrite bool_decide_eq_false_2 by lia. rewrite Hf0, Hreply.
  intros [= <- <-]. simpl. split; [done |]. split; congruence.
Qed.

Lemma feedbackPass_failed_status retries w s c p w' :
  (count (today_at oracle (reads w)) w + 1 < dailyQuota)%N →
  response_at oracle (fetches w) = Reply s c → ok s = false → s ≠ 429%Z →
  retries < maxRetries →
  feedbackPass oracle retries w = (p, w') →
  p = Again (baseRetryDelay * 2 ^ Z.of_nat retries)%Z ∧
  fetches w' = S (fetches w) ∧ slept w' = slept w.
Proof.
  intros Hcount Hreply Hok Hs Hlt. unfold feedbackPass, fetch.
  destruct (trackApiUsage oracle w) as [n w0] eqn:Htrack.
  apply trackApiUsage_spec in Htrack as (Hc & _ & _ & _ & Hf0 & _ & Hs0 & _).
  rewrite bool_decide_eq_false_2 by lia. rewrite Hf0, Hreply, Hok. cbn [negb].
  rewrite (bool_decide_eq_false_2 (s = 429%Z)) by done.
  rewrite bool_decide_eq_true_2 by done.
  intros [= <- <-]. simpl. split; [done |]. split; congruence.
Qed.


End Failures.

(** Property X6. Below the quota, a rejected [fetch] is never retried: the
    body sends this one request, does not wait, and returns the canned
    value. A reply whose status is a failure other than 429 is retried
    exactly once, for questions and for feedback alike, after
    [baseRetryDelay] (the first step of the exponential backoff): the body
    waits once and sends one or two requests in all. *)
Theorem failed_reply_is_retried_once_network_failure_never
    (oracle : Oracle) (job : Job) (w : World) (v : Settled Value) (w' : World) :
  (count (today_at oracle (reads w)) w + 1 < dailyQuota)%N →
  runJob oracle job w = (v, w') →
  (response_at oracle (fetches w) = NetworkFailure →
     slept w' = slept w ∧ fetches w' = S (fetches w) ∧ Canned job v) ∧
  (∀ s c, response_at oracle (fetches w) = Reply s c → ok s = false → s ≠ 429%Z →
     slept w' = slept w ++ [baseRetryDelay] ∧
     S (fetches w) ≤ fetches w' ∧ fetches w' ≤ fetches w + 2).
Proof.
  intros Hcount. unfold runJob. destruct job as [jd pq | jd tr].
  - destruct (makeRequest oracle jd pq 0 w) as [q w1] eqn:Hrun. intros [= <- <-].
    destruct (questionPass oracle jd pq 0 w) as [p w2] eqn:Hpass. split.
    + intros Hreply.
      destruct (questionPass_network_failure oracle _ _ _ _ _ _ Hcount Hreply Hpass)
        as ((q' & -> & Hfb) & Hf & Hs).
      rewrite (makeRequest_return _ _ _ _ _ _ _ Hpass) in Hrun. injection Hrun as <- <-.
      split; [done |]. split; [done |]. by exists q'.
    + intros s c Hreply Hok Hs.
      destruct (questionPass_failed_status oracle jd pq 0 w s c p w2)
        as (-> & Hf2 & Hs2); [done | done | done | done | unfold maxRetries; lia | done |].
      rewrite (makeRequest_again _ _ _ _ _ _ _ Hpass) in Hrun.
      destruct (questionPass oracle jd pq 1 (sleep (baseRetryDelay * 2 ^ Z.of_nat 0) w2))
        as [p3 w3] eqn:Hpass3.
      pose proof (questionPass_cases oracle jd pq 1 _ p3 w3 Hpass3) as (Hs3 & Hp3).
      destruct p3 as [v3 | d3]; [| unfold maxRetries in Hp3; lia].
      rewrite (makeRequest_return _ _ _ _ _ _ _ Hpass3) in Hrun. injection Hrun as <- <-.
      simpl in Hs3, Hp3. rewrite Hs2 in Hs3. rewrite Hf2 in Hp3.
      split; [done |]. destruct Hp3 as [(_ & ? & ?) | (? & ? & _ & _ & _ & ?)]; lia.
  - destruct (makeFeedbackRequest oracle 0 w) as [f w1] eqn:Hrun. intros [= <- <-].
    destruct (feedbackPass oracle 0 w) as [p w2] eqn:Hpass. split.
    + intros Hreply.
      destruct (feedbackPass_network_failure oracle _ _ _ _ Hcount Hreply Hpass)
        as (-> & Hf & Hs).
      rewrite (makeFeedbackRequest_return _ _ _ _ _ Hpass) in Hrun. injection Hrun as <- <-.
      done.
    + intros s c Hreply Hok Hs.
      destruct (feedbackPass_failed_status oracle 0 w s c p w2)
        as (-> & Hf2 & Hs2); [done | done | done | done | unfold maxRetries; lia | done |].
      rewrite (makeFeedbackRequest_again _ _ _ _ _ Hpass) in Hrun.
      destruct (feedbackPass oracle 1 (sleep (baseRetryDelay * 2 ^ Z.of_nat 0) w2))
        as [p3 w3] eqn:Hpass3.
      pose proof (feedbackPass_cases oracle 1 _ p3 w3 Hpass3) as (Hs3 & Hle & Hge & Hp3).
      destruct p3 as [v3 | d3]; [| unfold maxRetries in Hp3; lia].
      rewrite (makeFeedbackRequest_return _ _ _ _ _ Hpass3) in Hrun. injection Hrun as <- <-.
      simpl in Hs3, Hle, Hge. rewrite Hs2 in Hs3. rewrite Hf2 in Hle, Hge.
      split; [done |]. lia.
Qed.

(** Property X7. Once the quota of the day is reached, a request body shows
    two toasts, the advisory "API Quota Warning" of [trackApiUsage] and
    then "API Quota Exhausted", sends nothing and returns the canned
    value. *)
Theorem blocked_request_shows_both_notices
    (oracle : Oracle) (day : string) (job : Job) (w : World)
    (v : Settled Value) (w' : World) :
  QuotaReached oracle day w →
  runJob oracle job w = (v, w') →
  toasts w' = toasts w ++ ["API Quota Warning"; "API Quota Exhausted"] ∧
  fetches w' = fetches w ∧ Canned job v.
Proof.
  intros HQ Hrun.
  destruct (QuotaReached_runJob oracle day job w v w' HQ Hrun) as (_ & Hf & _ & Hv).
  split; [| done]. revert Hrun. unfold runJob. destruct job as [jd pq | jd tr].
  - destruct (questionPass oracle jd pq 0 w) as [p w1] eqn:Hpass.
    destruct (QuotaReached_questionPass _ _ _ _ _ _ _ _ HQ Hpass) as ((q & -> & _) & _).
    rewrite (makeRequest_return _ _ _ _ _ _ _ Hpass). intros [= <- <-].
    revert Hpass. unfold questionPass, fallbackQuestion, trackApiUsage.
    destruct HQ as [Hclock Hcount]. rewrite (Hclock (reads w)) by lia.
    change (count day (tick w)) with (count day w).
    assert (nearQuota (count day w + 1) = true) as ->
      by (apply bool_decide_eq_true; unfold dailyQuota in *; lia).
    rewrite bool_decide_eq_true_2 by lia.
    destruct (getDefaultQuestion _ _ _ _) as [q' w2] eqn:Hq. intros [= <- <-].
    apply getDefaultQuestion_spec in Hq as (_ & _ & _ & _ & _ & -> & _).
    simpl. by rewrite <- app_assoc.
  - destruct (feedbackPass oracle 0 w) as [p w1] eqn:Hpass.
    destruct (QuotaReached_feedbackPass _ _ _ _ _ _ HQ Hpass) as (-> & _).
    rewrite (makeFeedbackRequest_return _ _ _ _ _ Hpass). intros [= <- <-].
    revert Hpass. unfold feedbackPass, trackApiUsage.
    destruct HQ as [Hclock Hcount]. rewrite (Hclock (reads w)) by lia.
    change (count day (tick w)) with (count day w).
    assert (nearQuota (count day w + 1) = true) as ->
      by (apply bool_decide_eq_true; unfold dailyQuota in *; lia).
    rewrite bool_decide_eq_true_2 by lia.
    intros [= <-]. simpl. by rewrite <- app_assoc.
Qed.

(** ** Feedback calls *)






(** ** Fenced replies *)

Lemma prefix_nil s : String.prefix EmptyString s = true.
Proof. by destruct s. Qed.

Lemma stripFences_step c s :
  stripFences 0 (String c s) =
    if String.prefix "```json" (String c s) then stripFences 6 s
    else if String.prefix "```" (String c s) then stripFences 2 s
    else String c (stripFences 0 s).
Proof. reflexivity. Qed.

(** A text without a backquote is left as it is, and a fence that ends it
    is removed. *)
Lemma stripFences_plain s :
  includes "`" s = false → stripFences 0 s = s ∧ stripFences 0 (s +:+ "```") = s.
Proof.
  induction s as [| c s IH]; [done |].
  intros Hs. cbn [includes String.prefix] in Hs.
  change (String c s +:+ "```") with (String c (s +:+ "```")).
  rewrite !stripFences_step. cbn [String.prefix].
  destruct (Ascii.ascii_dec "`" c) as [? | Hc]; [by rewrite prefix_nil in Hs |].
  cbn [orb] in Hs. destruct (IH Hs) as [IH1 IH2]. by rewrite IH1, IH2.
Qed.

Lemma stripFences_json s : stripFences 0 ("```json" +:+ s) = stripFences 0 s.
Proof.
  change ("```json" +:+ s) with
    (String "`" (String "`" (String "`" (String "j" (String "s" (String "o" (String "n" s))))))).
  rewrite stripFences_step.
  assert (String.prefix "```json"
            (String "`" (String "`" (String "`"
               (String "j" (String "s" (String "o" (String "n" s)))))))
          = true) as -> by (simpl; apply prefix_nil).
  reflexivity.
Qed.

Lemma stripFences_bare s :
  String.prefix "json" s = false → stripFences 0 ("```" +:+ s) = stripFences 0 s.
Proof.
  intros Hs.
  change ("```" +:+ s) with (String "`" (String "`" (String "`" s))).
  rewrite stripFences_step.
  assert (String.prefix "```json" (String "`" (String "`" (String "`" s))) = false) as ->
    by (simpl; exact Hs).
  assert (String.prefix "```" (String "`" (String "`" (String "`" s))) = true) as ->
    by (simpl; apply prefix_nil).
  reflexivity.
Qed.

(** Property X9. A feedback reply wrapped in a Markdown fence is read like
    the bare reply: for a text [body] without a backquote, [parseFeedback]
    gives the same feedback for [body] between the fences "```json" and
    "```" as for [body] itself, and also between two plain fences "```"
    unless [body] begins with "json" (the opening fence then swallows
    it). *)
Theorem fenced_reply_parses_like_the_bare_reply (oracle : Oracle) (body : string) :
  includes "`" body = false →
  parseFeedback oracle ("```json" +:+ (body +:+ "```")) = parseFeedback oracle body ∧
  (String.prefix "json" (body +:+ "```") = false →
   parseFeedback oracle ("```" +:+ (body +:+ "```")) = parseFeedback oracle body).
Proof.
  intros Hbody. destruct (stripFences_plain body Hbody) as [Hplain Hfenced].
  unfold parseFeedback. rewrite stripFences_json, Hfenced, Hplain.
  split; [done |]. intros Hjson. by rewrite stripFences_bare, Hfenced.
Qed.

(** ** The credential *)

(** Property X10. [setGeminiApiKey] refuses a blank key and then changes
    nothing. Otherwise it keeps the key trimmed: [getGeminiApiKey] returns
    it, [hasGeminiApiKey] holds, the next call of an operation finds it,
    and, being written to [sessionStorage], it is the credential again
    after the page has been loaded anew, unless the build-time credential
    exists, which then takes its place. *)
Theorem stored_key_round_trip (oracle : Oracle) (key : string) (g : Gateway) :
  let r := setGeminiApiKey key g in
  if r.1 then
    trim key ≠ EmptyString ∧
    getGeminiApiKey r.2 = trim key ∧ hasGeminiApiKey r.2 = true ∧
    credential oracle r.2 = trim key ∧
    apiKey (boot oracle (world r.2)) =
      (if bool_decide (env_key oracle ≠ EmptyString) then env_key oracle else trim key)
  else trim key = EmptyString ∧ r.2 = g.
Proof.
  cbv zeta. unfold setGeminiApiKey.
  destruct (decide (trim key = EmptyString)) as [Hblank | Htrim].
  - rewrite (bool_decide_eq_false_2 (trim key ≠ EmptyString)) by (intros H; by apply H).
    rewrite andb_false_r. by cbn [fst snd].
  - assert (key ≠ EmptyString) as Hkey by (intros ->; by apply Htrim).
    rewrite (bool_decide_eq_true_2 (key ≠ EmptyString)) by done.
    rewrite (bool_decide_eq_true_2 (trim key ≠ EmptyString)) by done.
    cbn [andb fst snd]. split; [done |].
    destruct g as [k q ip lrt lock fl tm st pr w rd].
    unfold hasGeminiApiKey, credential, boot, load, initApiKey, getGeminiApiKey.
    setters. cbn [sessionKey set_sessionKey].
    rewrite !(bool_decide_eq_true_2 (trim key ≠ EmptyString)) by done.
    rewrite !(bool_decide_eq_false_2 (trim key = EmptyString)) by done.
    split; [done |]. split; [done |]. split; [done |].
    by case_bool_decide.
Qed.

Import Scenarios Examples.

(** X10 at work: a key made of a no-break space is refused, a key padded
    with one is kept without it. *)
Lemma stored_key_round_trip_witness :
  setGeminiApiKey noBreakSpace (boot answering (browser 0)) =
    (false, boot answering (browser 0)) ∧
  getGeminiApiKey
    (setGeminiApiKey (" key-123" +:+ noBreakSpace) (boot keyless (browser 0))).2 =
    "key-123".
Proof.
  split.
  - pose proof (stored_key_round_trip answering noBreakSpace (boot answering (browser 0)))
      as H.
    cbv zeta in H.
    destruct (setGeminiApiKey noBreakSpace (boot answering (browser 0)))
      as [[] g'] eqn:Hset; cbn [fst snd] in H.
    + destruct H as [H _]. exfalso. apply H. reflexivity.
    + destruct H as [_ ->]. reflexivity.
  - pose proof (stored_key_round_trip keyless (" key-123" +:+ noBreakSpace)
                  (boot keyless (browser 0))) as H.
    cbv zeta in H.
    destruct (setGeminiApiKey (" key-123" +:+ noBreakSpace) (boot keyless (browser 0)))
      as [[] g'] eqn:Hset; cbn [fst snd] in H.
    + destruct H as (_ & H & _). cbn [snd]. rewrite H. reflexivity.
    + destruct H as [H _]. discriminate H.
Defined.

(** X2 at work: two calls, both settled. *)
Lemma promises_settle_in_creation_order_witness :
  is_Some (settled (after answering twoTurns (browser 0)) !! 0).
Proof.
  apply (promises_settle_in_creation_order answering twoTurns (browser 0) 0 1).
  - lia.
  - vm_compute. eexists. reflexivity.
Defined.

(** X4 at work: the endpoint answers 429, the body waits once and counts
    twice. *)
Lemma every_attempt_is_counted_witness :
  ∃ waits,
    slept (runJob limited (QuestionJob EmptyString []) (browser 10)).2 = [] ++ waits ∧
    length waits ≤ maxRetries ∧
    count day (runJob limited (QuestionJob EmptyString []) (browser 10)).2 =
      (10 + 1 + N.of_nat (length waits))%N.
Proof.
  destruct (runJob limited (QuestionJob EmptyString []) (browser 10)) as [v w'] eqn:Hrun.
  destruct (every_attempt_is_counted limited day (QuestionJob EmptyString []) (browser 10) v w')
    as (waits & Hs & Hlen & Hc & _).
  - intros k _. reflexivity.
  - exact Hrun.
  - exists waits. split; [exact Hs |]. split; [exact Hlen | exact Hc].
Defined.

(** X5 at work: with 1498 requests counted, one request more is sent. *)
Lemma daily_cap_on_network_requests_witness :
  (N.of_nat (fetches (world (after answering twoTurns (browser 1498))) -
             fetches (browser 1498)) ≤ dailyQuota - 1 - count day (browser 1498))%N.
Proof.
  pose proof (daily_cap_on_network_requests answering day twoTurns (browser 1498)) as H.
  cbv zeta in H. destruct H as (_ & H & _).
  - intros k _. reflexivity.
  - exact H.
Defined.

(** X6 at work: the status 500 is answered by one wait of two seconds. *)
Lemma failed_reply_is_retried_once_witness :
  slept (runJob flaky (QuestionJob EmptyString []) (browser 10)).2 = [baseRetryDelay].
Proof.
  destruct (runJob flaky (QuestionJob EmptyString []) (browser 10)) as [v w'] eqn:Hrun.
  destruct (failed_reply_is_retried_once_network_failure_never flaky
              (QuestionJob EmptyString []) (browser 10) v w') as (_ & Hfailed).
  - vm_compute. reflexivity.
  - exact Hrun.
  - destruct (Hfailed 500%Z None) as (Hs & _); [reflexivity | reflexivity | discriminate |].
    exact Hs.
Defined.

(** X7 at work. *)
Lemma blocked_request_shows_both_notices_witness :
  toasts (runJob answering (QuestionJob EmptyString []) (browser 1500)).2 =
    ["API Quota Warning"; "API Quota Exhausted"].
Proof.
  destruct (runJob answering (QuestionJob EmptyString []) (browser 1500)) as [v w'] eqn:Hrun.
  destruct (blocked_request_shows_both_notices answering day (QuestionJob EmptyString [])
              (browser 1500) v w') as (Ht & _).
  - split; [intros k _; reflexivity | vm_compute; discriminate].
  - exact Hrun.
  - exact Ht.
Defined.

(** X9 at work. *)
Lemma fenced_reply_parses_like_the_bare_reply_witness :
  parseFeedback answering ("```json" +:+ ("{ }" +:+ "```")) = parseFeedback answering "{ }".
Proof.
  destruct (fenced_reply_parses_like_the_bare_reply answering "{ }") as [H _].
  - reflexivity.
  - exact H.
Defined.

End GatewayFacts.

(** * Properties of the setup form *)

Module InterviewSetupFacts.

Import Gemini Gateway InterviewSetup.

(** ** Trimming twice *)

(** One step of [trimStart]: the string is kept, or a white-space
    character is dropped. *)
Lemma trimStart_cases s :
  trimStart s = s ∨
  ∃ p t, s = p +:+ t ∧ p ≠ EmptyString ∧ trimStart p = EmptyString ∧
         trimStart s = trimStart t ∧ ∀ u, trimStart (p +:+ u) = trimStart u.
Proof.
  destruct s as [| a [| b [| c s3]]]; simpl; [by left | | |].
  - destruct (is_space a) eqn:Ha; [| by left].
    right. exists (String a EmptyString), EmptyString. simpl. rewrite Ha.
    repeat split; try done.
  - destruct (is_space a) eqn:Ha.
    { right. exists (String a EmptyString), (String b EmptyString). simpl. rewrite Ha.
      repeat split; try done. }
    destruct (is_space2 a b) eqn:Hab; [| by left].
    right. exists (String a (String b EmptyString)), EmptyString. simpl. rewrite Ha, Hab.
    repeat split; try done.
  - destruct (is_space a) eqn:Ha.
    { right. exists (String a EmptyString), (String b (String c s3)). simpl. rewrite Ha.
      repeat split; try done. }
    destruct (is_space2 a b) eqn:Hab.
    { right. exists (String a (String b EmptyString)), (String c s3). simpl. rewrite Ha, Hab.
      repeat split; try done. }
    destruct (is_space3 a b c) eqn:Habc; [| by left].
    right. exists (String a (String b (String c EmptyString))), s3. simpl.
    rewrite Ha, Hab, Habc. repeat split; try done.
Qed.

Lemma append_cons c (s t : string) : String c s +:+ t = String c (s +:+ t).
Proof. reflexivity. Qed.

Lemma length_append (s t : string) :
  String.length (s +:+ t) = String.length s + String.length t.
Proof.
  induction s as [| c s IH]; [done |].
  rewrite append_cons. cbn [String.length]. by rewrite IH.
Qed.

Lemma append_assoc (s t u : string) : (s +:+ t) +:+ u = s +:+ (t +:+ u).
Proof. induction s as [| c s IH]; [done |]. rewrite !append_cons. by rewrite IH. Qed.

Lemma trimStart_length s : String.length (trimStart s) ≤ String.length s.
Proof.
  remember (String.length s) as n eqn:Hn.
  revert s Hn. induction (lt_wf n) as [n _ IH]. intros s ->.
  destruct (trimStart_cases s) as [-> | (p & t & -> & Hp & _ & -> & _)]; [done |].
  rewrite length_append.
  assert (0 < String.length p) by (destruct p; [done | simpl; lia]).
  specialize (IH (String.length t)). rewrite length_append in IH.
  specialize (IH ltac:(lia) t eq_refl). lia.
Qed.

(** What [trimStart] returns does not start with white space. *)
Lemma trimStart_trimStart s : trimStart (trimStart s) = trimStart s.
Proof.
  remember (String.length s) as n eqn:Hn.
  revert s Hn. induction (lt_wf n) as [n _ IH]. intros s ->.
  destruct (trimStart_cases s) as [H | (p & t & -> & Hp & _ & -> & _)];
    [by rewrite !H |].
  apply (IH (String.length t)); [| done].
  rewrite length_append. destruct p; [done | simpl; lia].
Qed.

(** White space in front of a string is dropped with it. *)
Lemma trimStart_append p u : trimStart p = EmptyString → trimStart (p +:+ u) = trimStart u.
Proof.
  remember (String.length p) as n eqn:Hn.
  revert p Hn. induction (lt_wf n) as [n _ IH]. intros p -> Hall.
  destruct (trimStart_cases p) as [Hp | (q & t & -> & Hq & _ & Ht & Hdrop)].
  - rewrite Hall in Hp. by subst p.
  - rewrite append_assoc, Hdrop. rewrite Ht in Hall.
    apply (IH (String.length t)); [| done | done].
    rewrite length_append. destruct q; [done | simpl; lia].
Qed.

(** A string that starts with white space still does when it is extended. *)
Lemma trimStart_fixed_prefix p u : trimStart (p +:+ u) = p +:+ u → trimStart p = p.
Proof.
  intros H.
  destruct (trimStart_cases p) as [Hp | (q & t & -> & Hq & _ & _ & Hdrop)]; [done |].
  exfalso. rewrite append_assoc, Hdrop in H.
  pose proof (trimStart_length (t +:+ u)) as Hlen. rewrite H in Hlen.
  rewrite !length_append in Hlen. destruct q; [done | simpl in Hlen; lia].
Qed.

(** [trimEnd] cuts white space off. *)
Lemma trimEnd_split s : ∃ w, s = trimEnd s +:+ w ∧ trimStart w = EmptyString.
Proof.
  induction s as [| c s (w & Hs & Hw)]; [by exists EmptyString |].
  cbn [trimEnd]. case_bool_decide as Hall.
  - by exists (String c s).
  - exists w. split; [| done]. rewrite append_cons. by rewrite <- Hs.
Qed.

Lemma trimEnd_trimEnd s : trimEnd (trimEnd s) = trimEnd s.
Proof.
  induction s as [| c s IH]; [done |].
  cbn [trimEnd]. case_bool_decide as Hall; [done |].
  cbn [trimEnd]. rewrite IH. rewrite bool_decide_eq_false_2; [done |].
  intros Hc. apply Hall.
  destruct (trimEnd_split s) as (w & Hs & Hw).
  rewrite Hs at 1.
  rewrite <- append_cons.
  by rewrite trimStart_append.
Qed.

Lemma trimStart_trimEnd s : trimStart s = s → trimStart (trimEnd s) = trimEnd s.
Proof.
  intros H. destruct (trimEnd_split s) as (w & Hs & Hw).
  apply (trimStart_fixed_prefix _ w). by rewrite <- Hs.
Qed.

Lemma trim_trim s : trim (trim s) = trim s.
Proof.
  unfold trim. rewrite trimStart_trimEnd by apply trimStart_trimStart.
  apply trimEnd_trimEnd.
Qed.

(** ** [validateApiKey] and [handleStart] *)

(** The validation sends one request, leaves the ledger and the stored
    credential alone, and succeeds exactly on an answer whose status is a
    success. *)
Lemma validateApiKey_spec endpoint key w :
  let r := validateApiKey endpoint key w in
  usage r.2 = usage w ∧ sessionKey r.2 = sessionKey w ∧ fetches r.2 = S (fetches w) ∧
  (r.1 = true ↔ ∃ status json, endpoint key = ProbeReply status json ∧ ok status = true).
Proof.
  unfold validateApiKey. destruct (endpoint key) as [| status json] eqn:Hend; simpl.
  - repeat split; try done. by intros (? & ? & ? & _).
  - destruct (ok status) eqn:Hok; simpl.
    + repeat split; try done. by exists status, json.
    + assert (¬ ∃ status0 json0, ProbeReply status json = ProbeReply status0 json0 ∧
                ok status0 = true) as Hno.
      { intros (? & ? & ? & ?); simplify_eq; congruence. }
      destruct json; simpl; repeat case_bool_decide; simpl; repeat split; done.
Qed.

Lemma hasGeminiApiKey_world g w :
  sessionKey w = sessionKey (world g) → hasGeminiApiKey (set_world w g) = hasGeminiApiKey g.
Proof.
  intros H. unfold hasGeminiApiKey, getGeminiApiKey. destruct g; simpl in *. by rewrite H.
Qed.

Lemma handleStart_role_spec f g f' g' started :
  handleStart_role f g = (f', g', started) →
  f' = f ∧ apiKey g' = apiKey g ∧ usage (world g') = usage (world g) ∧
  sessionKey (world g') = sessionKey (world g) ∧ fetches (world g') = fetches (world g) ∧
  ∀ role skill jd, started = Some (role, skill, jd) →
    trim role ≠ EmptyString ∧ role = chosenRole f ∧
    skill = skillLevel f ∧ jd = jobDescription f.
Proof.
  unfold handleStart_role. case_bool_decide; intros [= <- <- <-].
  - by destruct g.
  - repeat split; try done; by intros; simplify_eq.
Qed.

(** Property X11. Let the form know whether a credential is missing, as it
    does once mounted ([needsApiKey] is [!hasGeminiApiKey()]). Then
    [handleStart] keeps this in step with the gateway; the interview is
    started only with a credential available and a role that is not blank,
    and with the fields of the form; the validation request is not counted
    in the usage ledger; and the credential changes only to the trimmed key
    of the form, after one request that the endpoint answered with a
    success: a key that fails validation is never stored. *)
Theorem interview_starts_only_with_a_key_and_a_role
    (endpoint : string → Probe) (f : Form) (g : Gateway)
    (f' : Form) (g' : Gateway) (started : option (string * string * string)) :
  needsApiKey f = negb (hasGeminiApiKey g) →
  handleStart endpoint f g = (f', g', started) →
  needsApiKey f' = negb (hasGeminiApiKey g') ∧
  usage (world g') = usage (world g) ∧
  (∀ role skill jd, started = Some (role, skill, jd) →
     hasGeminiApiKey g' = true ∧ trim role ≠ EmptyString ∧
     role = chosenRole f ∧ skill = skillLevel f ∧ jd = jobDescription f) ∧
  (apiKey g' ≠ apiKey g ∨ sessionKey (world g') ≠ sessionKey (world g) →
     apiKey g' = trim (geminiApiKey f) ∧
     sessionKey (world g') = Some (trim (geminiApiKey f)) ∧
     fetches (world g') = S (fetches (world g)) ∧
     ∃ status json,
       endpoint (trim (geminiApiKey f)) = ProbeReply status json ∧ ok status = true).
Proof.
  intros Hneeds. unfold handleStart.
  destruct (needsApiKey f) eqn:Hn; cbn [andb].
  - case_bool_decide as Hkey.
    + cbn [geminiApiKey setIsValidating].
      pose proof (validateApiKey_spec endpoint (trim (geminiApiKey f)) (world g))
        as (Hu & Hk & Hf & Hvalid).
      destruct (validateApiKey endpoint (trim (geminiApiKey f)) (world g)) as [isValid w].
      cbn [fst snd] in *. destruct isValid; cbn [negb].
      * destruct Hvalid as [Hvalid _]. specialize (Hvalid eq_refl).
        unfold setGeminiApiKey. rewrite trim_trim.
        rewrite (bool_decide_eq_true_2 (trim (geminiApiKey f) ≠ EmptyString)) by done.
        cbn [andb].
        set (g2 := set_world _ (set_world _ (set_apiKey _ (set_world w g)))).
        assert (apiKey g2 = trim (geminiApiKey f) ∧ usage (world g2) = usage w ∧
                sessionKey (world g2) = Some (trim (geminiApiKey f)) ∧
                fetches (world g2) = fetches w) as (Hk2 & Hu2 & Hs2 & Hf2)
          by by destruct g.
        clearbody g2. intros Hrole.
        apply handleStart_role_spec in Hrole as (-> & Hk' & Hu' & Hs' & Hf' & Hst).
        assert (hasGeminiApiKey g' = true) as Hhas.
        { unfold hasGeminiApiKey, getGeminiApiKey. rewrite Hk', Hk2.
          by rewrite !(bool_decide_eq_true_2 (trim (geminiApiKey f) ≠ EmptyString)). }
        rewrite Hhas. split; [done |]. split; [congruence |]. split.
        { intros role skill jd Hst'. destruct (Hst _ _ _ Hst') as (? & ? & ? & ?). done. }
        intros _. split; [congruence |]. split; [congruence |]. split; [congruence | done].
      * intros [= <- <- <-]. rewrite hasGeminiApiKey_world by done.
        destruct g; simpl in *. split; [by rewrite Hn |]. split; [done |].
        split; [done |]. intros [? | ?]; congruence.
    + intros [= <- <- <-]. rewrite hasGeminiApiKey_world by done.
      destruct g; simpl in *. split; [by rewrite Hn |]. split; [done |].
      split; [done |]. intros [? | ?]; congruence.
  - intros Hrole. apply handleStart_role_spec in Hrole as (-> & Hk & Hu & Hs & Hf & Hst).
    assert (hasGeminiApiKey g' = hasGeminiApiKey g) as Hhas.
    { unfold hasGeminiApiKey, getGeminiApiKey. by rewrite Hk, Hs. }
    rewrite Hhas. split; [by rewrite Hn |]. split; [done |]. split.
    + intros role skill jd Hst'. destruct (Hst _ _ _ Hst') as (? & ? & ? & ?).
      repeat split; try done. by destruct (hasGeminiApiKey g).
    + intros [? | ?]; congruence.
Qed.

Import Scenarios Examples.

(** X11 at work: no credential at first, a key is typed and accepted. *)
Lemma interview_starts_only_with_a_key_and_a_role_witness :
  hasGeminiApiKey (handleStart accepting typedKey (boot keyless (browser 0))).1.2 = true.
Proof.
  destruct (handleStart accepting typedKey (boot keyless (browser 0)))
    as [[f' g'] started] eqn:Hstart.
  destruct (interview_starts_only_with_a_key_and_a_role accepting typedKey
              (boot keyless (browser 0)) f' g' started) as (_ & _ & Hstarted & _).
  - reflexivity.
  - exact Hstart.
  - assert (started = Some ("Software Engineer", "Intermediate", EmptyString)) as Hs.
    { revert Hstart. vm_compute. intros [= _ _ <-]. reflexivity. }
    destruct (Hstarted _ _ _ Hs) as (Hkey & _). exact Hkey.
Defined.

End InterviewSetupFacts.

(** * More properties of the dialogue *)

Module DialogueFacts.

Import Gemini InterviewSession GeminiFacts InterviewSessionFacts.

(** A reply that [generateAIResponse] turns into an error: a rejection, or
    a blank text. *)
Lemma generateAIResponse_failed reply :
  match reply with
  | Resolved response => trim response = EmptyString
  | Rejected _ => True
  end →
  ∃ e, generateAIResponse reply = Rejected e.
Proof.
  destruct reply as [response | e]; simpl; [| by exists e].
  intros Hblank.
  rewrite (bool_decide_eq_true_2 (trim response = EmptyString)) by done.
  rewrite orb_true_r. by eexists.
Qed.

Lemma generateAIResponse_passed reply answer :
  generateAIResponse reply = Resolved answer → reply = Resolved answer.
Proof.
  destruct reply as [response | e]; simpl; [| done].
  by destruct (_ || _); intros [= ->].
Qed.

(** Property X12. A turn whose generation fails (the gateway promise is
    rejected, or it resolves with a blank text) still ends, and always
    with a canned assistant turn: the conversation becomes the user's turn
    followed by the thanks when the utterance contains "done" in any case,
    and by the sentence "I didn't quite catch that..." otherwise. The guard
    meant to say that sentence once only tests the conversation of the
    first render, which is empty, so it is said again on every failed turn,
    whatever the conversation holds. It is spoken whenever the synthesiser
    exists, the voice switch being read as it was at the first render. The
    processing flag is lowered and the session is not touched. *)
Theorem failed_turn_always_falls_back
    (s : option SessionType) (text : string) (reply : Settled string) (v : View) :
  text ≠ lastSpeech v →
  match reply with
  | Resolved response => trim response = EmptyString
  | Rejected _ => True
  end →
  let v1 := (onResult s text reply v).1 in
  let said := if includes "done" (toLowerCase text) then thankYou else didNotCatch in
  conversation v1 = [userTurn text; assistantTurn said] ∧
  currentQuestion v1 = said ∧ aiResponse v1 = said ∧
  spoken v1 = (if synthesis v then spoken v ++ [said] else spoken v) ∧
  isProcessing v1 = false ∧ isListening v1 = false ∧
  waitingForResponse v1 = false ∧ userResponse v1 = text ∧
  lastSpeech v1 = text ∧ session v1 = session v.
Proof.
  intros Hnew Hbad. destruct (generateAIResponse_failed reply Hbad) as [e He].
  rewrite (onResult_start s text reply v Hnew). cbn [fst].
  unfold handleUserSpeechIn. rewrite He.
  unfold respondIn, speakTextIn. simpl. by destruct (synthesis v).
Qed.

(** The greeting and the canned answers of a turn are not the prompt of
    the silence timer. *)
Lemma greeting_not_needMoreTime s : greeting s ≠ needMoreTime.
Proof.
  unfold greeting. destruct (s ≫= role) as [r |]; [| discriminate].
  case_bool_decide as Hr; [discriminate |]. intros H.
  apply (f_equal (String.get 0)) in H. discriminate.
Qed.

Lemma onTimeout_idle s reply v : onTimeout s reply v = v.
Proof. reflexivity. Qed.

Lemma OneExchange_moment s ms m v :
  OneExchange s ms v → OneExchange s (ms ++ [m]) (moment s m v).
Proof.
  intros Hv.
  assert (OneExchange s (ms ++ [m]) v) as Hv'.
  { destruct Hv as [? | (text & reply & said & Hin & ? & ?)]; [by left |].
    right. exists text, reply, said. split; [| done]. apply elem_of_app. by left. }
  destruct m as [text reply | | reply]; simpl.
  - destruct (decide (text = lastSpeech v)) as [-> | Hnew].
    { by rewrite onResult_repeated. }
    rewrite (onResult_start s text reply v Hnew). cbn [fst].
    right. unfold handleUserSpeechIn.
    destruct (generateAIResponse reply) as [answer | e] eqn:Hreply.
    + exists text, reply, answer. split; [apply elem_of_app; right; by left |].
      split; [| right; right; by apply generateAIResponse_passed].
      unfold respondIn, speakTextIn. simpl. by destruct (synthesis v).
    + exists text, reply,
        (if includes "done" (toLowerCase text) then thankYou else didNotCatch).
      split; [apply elem_of_app; right; by left |].
      split; [| destruct (includes _ _); auto].
      unfold respondIn, speakTextIn. simpl. by destruct (synthesis v).
  - destruct Hv' as [? | (text & reply & said & ? & ? & ?)]; [by left |].
    right. by exists text, reply, said.
  - by rewrite onTimeout_idle.
Qed.

Lemma OneExchange_dialogue supported s ms : OneExchange s ms (dialogue supported s ms).
Proof.
  unfold dialogue.
  induction ms as [| m ms IH] using rev_ind.
  - left. unfold mount, startInterview, speakText. simpl. by destruct supported.
  - rewrite foldl_app. simpl. by apply OneExchange_moment.
Qed.

(** Property X13. The prompt of the silence timer is never said. The timer
    callback is a closure of the first render, where [waitingForResponse]
    is false, so the timer never runs [handleNoResponse]: whenever it
    fires, the component stays as it is. Whatever has happened since the
    component was mounted, the conversation holds the greeting or one
    exchange, and a turn is the prompt "It seems you need more time..."
    only if the candidate said so or the gateway resolved with that very
    text. *)
Theorem silence_prompt_is_never_said
    (supported : bool) (s : option SessionType) (ms : list Moment)
    (reply : Settled string) :
  let v := dialogue supported s ms in
  dialogue supported s (ms ++ [SpeechEnded; TimerFired reply]) = onend v ∧
  (conversation v = [assistantTurn (greeting s)] ∨
   ∃ text said, conversation v = [userTurn text; assistantTurn said]) ∧
  ∀ turn, turn ∈ conversation v → content turn = needMoreTime →
    ∃ text answer, Heard text answer ∈ ms ∧
      (text = needMoreTime ∨ answer = Resolved needMoreTime).
Proof.
  intros v. split; [| split].
  - unfold dialogue. by rewrite foldl_app.
  - destruct (OneExchange_dialogue supported s ms)
      as [? | (text & answer & said & _ & ? & _)]; [by left |].
    right. by exists text, said.
  - intros turn Hin Hprompt.
    destruct (OneExchange_dialogue supported s ms)
      as [Hc | (text & answer & said & Hheard & Hc & Hsaid)];
      fold v in Hc; rewrite Hc in Hin.
    + apply list_elem_of_singleton in Hin as ->. simpl in Hprompt.
      by apply greeting_not_needMoreTime in Hprompt.
    + exists text, answer. split; [done |].
      apply elem_of_cons in Hin as [-> | Hin]; [by left |].
      apply list_elem_of_singleton in Hin as ->. simpl in Hprompt. subst said.
      destruct Hsaid as [Hs | [Hs | Hs]]; [discriminate | discriminate | by right].
Qed.



Import Scenarios.

(** X12 at work: the gateway rejects two utterances in a row, and the
    sentence is said both times. *)
Lemma failed_turn_always_falls_back_witness :
  let v1 := (onResult (Some freshSession) "Could you repeat that"
               (Rejected overloaded) greeted).1 in
  let v2 := (onResult (Some freshSession) "Sorry, what was the question"
               (Rejected overloaded) v1).1 in
  conversation v1 = [userTurn "Could you repeat that"; assistantTurn didNotCatch] ∧
  conversation v2 = [userTurn "Sorry, what was the question"; assistantTurn didNotCatch].
Proof.
  intros v1 v2. split.
  - destruct (failed_turn_always_falls_back (Some freshSession) "Could you repeat that"
                (Rejected overloaded) greeted) as (H & _).
    + vm_compute. discriminate.
    + exact I.
    + exact H.
  - destruct (failed_turn_always_falls_back (Some freshSession)
                "Sorry, what was the question" (Rejected overloaded) v1) as (H & _).
    + vm_compute. discriminate.
    + exact I.
    + exact H.
Defined.


End DialogueFacts.

(** * Properties of the recorder *)

Module WebRtcFacts.

Import WebRtc.

Lemma chunks_ondataavailable d r :
  recordedChunks (ondataavailable d r) = recordedChunks r ++ option_list (nonEmpty d).
Proof.
  unfold ondataavailable, nonEmpty. destruct d as [blob |]; simpl.
  - case_bool_decide; simpl; [done | by rewrite app_nil_r].
  - by rewrite app_nil_r.
Qed.

Lemma happen_chunks h r :
  Forall (λ blob, bytes blob ≠ []) (recordedChunks r) →
  Forall (λ blob, bytes blob ≠ []) (recordedChunks (happen h r)).
Proof.
  intros Hr.
  assert (∀ d, Forall (λ blob, bytes blob ≠ []) (option_list (nonEmpty d))) as Hd.
  { intros [blob |]; simpl; [| constructor]. case_bool_decide as Hlen; simpl; [| constructor].
    constructor; [| constructor]. intros Hb. rewrite Hb in Hlen. simpl in Hlen. lia. }
  destruct h as [c | f | d | f | |]; simpl.
  - destruct c; simpl; constructor.
  - unfold start. destruct (mediaRecorder r) as [[|] |]; simpl; [done | | done].
    destruct f; simpl; constructor.
  - rewrite chunks_ondataavailable. apply Forall_app. auto.
  - unfold stop. destruct (mediaRecorder r) as [[|] |]; simpl; [| done | done].
    rewrite chunks_ondataavailable. apply Forall_app. auto.
  - by destruct (mediaRecorder r).
  - constructor.
Qed.

Lemma record_chunks hs : Forall (λ blob, bytes blob ≠ []) (recordedChunks (record hs)).
Proof.
  unfold record.
  assert (Forall (λ blob, bytes blob ≠ []) (recordedChunks newVideoRecorder)) as Hr
    by constructor.
  revert Hr. generalize newVideoRecorder.
  induction hs as [| h hs IH]; intros r Hr; simpl; [done |].
  apply IH. by apply happen_chunks.
Qed.

(** Property X14. Whatever happens to a recorder, whenever the media
    recorder delivers its data, no chunk it holds is empty; so the video
    [createVideoBlob] builds, when it builds one, is not empty, has the
    type "video/webm" and is the chunks put end to end, and
    [createVideoBlob] returns null exactly when no chunk is held. *)
Theorem recorded_video_is_never_empty (hs : list Happening) :
  let r := record hs in
  Forall (λ blob, bytes blob ≠ []) (getRecordedChunks r) ∧
  match createVideoBlob r with
  | Some video =>
      bytes video ≠ [] ∧ mime video = "video/webm" ∧
      bytes video = concat (map bytes (getRecordedChunks r))
  | None => getRecordedChunks r = []
  end.
Proof.
  intros r. pose proof (record_chunks hs) as Hr. fold r in Hr. clearbody r.
  split; [done |]. unfold createVideoBlob, getRecordedChunks in *.
  case_bool_decide as Hlen.
  - by destruct (recordedChunks r).
  - split; [| done]. destruct (recordedChunks r) as [| blob blobs]; [done |].
    apply Forall_cons in Hr as [Hblob _]. simpl. intros Happ.
    apply app_eq_nil in Happ as [? _]. done.
Qed.

(** Property X15. A take keeps what it was given and nothing else: when an
    idle recorder is started, data is delivered and the recorder is
    stopped, [stop] resolves with the data of this take that is not empty,
    in the order of delivery, the last data included, whatever the
    recorder held before; the recorder is idle again, and
    [createVideoBlob] builds the video of exactly these chunks. *)
Theorem take_is_what_was_delivered
    (r : VideoRecorder) (delivered : list (option Blob)) (final : option Blob) :
  mediaRecorder r = Some false →
  let recording := foldl (λ r d, ondataavailable d r) (start None r).2 delivered in
  (stop final recording).1 = omap nonEmpty (delivered ++ [final]) ∧
  mediaRecorder (stop final recording).2 = Some false ∧
  createVideoBlob (stop final recording).2 =
    match omap nonEmpty (delivered ++ [final]) with
    | [] => None
    | chunks => Some (newBlob chunks "video/webm")
    end.
Proof.
  intros Hidle recording.
  assert (∀ r0 ds, mediaRecorder (foldl (λ r d, ondataavailable d r) r0 ds) = mediaRecorder r0 ∧
            recordedChunks (foldl (λ r d, ondataavailable d r) r0 ds) =
              recordedChunks r0 ++ omap nonEmpty ds) as Hfold.
  { intros r0 ds. revert r0. induction ds as [| d ds IH]; intros r0; simpl.
    - by rewrite app_nil_r.
    - destruct (IH (ondataavailable d r0)) as [-> ->]. rewrite chunks_ondataavailable.
      split; [unfold ondataavailable; by repeat case_match |].
      rewrite <- app_assoc. f_equal. by destruct (nonEmpty d). }
  destruct (Hfold (start None r).2 delivered) as [Hm Hc]. fold recording in Hm, Hc.
  unfold start in Hm, Hc. rewrite Hidle in Hm, Hc. simpl in Hm, Hc.
  assert ((stop final recording).1 = omap nonEmpty (delivered ++ [final]) ∧
          (stop final recording).2 =
            mkVideoRecorder (Some false) (omap nonEmpty (delivered ++ [final]))
                            (stream recording)) as [H1 H2].
  { unfold stop. rewrite Hm. simpl. rewrite chunks_ondataavailable, Hc.
    rewrite omap_app. simpl.
    assert (stream (ondataavailable final recording) = stream recording)
      as -> by (unfold ondataavailable; by repeat case_match).
    by destruct (nonEmpty final). }
  rewrite H1, H2. split; [done |]. split; [done |].
  unfold createVideoBlob. simpl. by destruct (omap nonEmpty (delivered ++ [final])).
Qed.

Import Examples.

(** X15 at work: of four pieces of data, two are kept. *)
Lemma take_is_what_was_delivered_witness :
  (stop (Some chunk)
     (foldl (λ r d, ondataavailable d r)
            (start None (initialize true newVideoRecorder).2).2
            [Some chunk; Some emptyChunk; None])).1 = [chunk; chunk].
Proof.
  apply (take_is_what_was_delivered (initialize true newVideoRecorder).2
           [Some chunk; Some emptyChunk; None] (Some chunk)).
  reflexivity.
Defined.

End WebRtcFacts.

(** * Properties of the session store *)

Module SessionStoreFacts.

Import Gemini InterviewSession SessionStore.

Lemma get_assign {V} (k k' : string) (v : V) (o : Obj V) :
  get k (assign k' v o) = if bool_decide (k = k') then Some v else get k o.
Proof.
  induction o as [| [k0 v0] o IH]; simpl.
  - repeat case_bool_decide; congruence.
  - repeat (case_bool_decide; simpl); try congruence.
Qed.

Lemma length_assign {V} (k : string) (v : V) (o : Obj V) :
  length (assign k v o) = length o + match get k o with Some _ => 0 | None => 1 end.
Proof.
  induction o as [| [k0 v0] o IH]; simpl; [done |].
  case_bool_decide; simpl; [lia |]. rewrite IH. lia.
Qed.

Lemma insertByTimestamp_perm x l : insertByTimestamp x l ≡ₚ x :: l.
Proof.
  induction l as [| y l IH]; simpl; [done |].
  case_bool_decide; [done |]. rewrite IH. apply Permutation_swap.
Qed.

Lemma sortByTimestamp_perm l : sortByTimestamp l ≡ₚ l.
Proof.
  induction l as [| x l IH]; simpl; [done |].
  by rewrite insertByTimestamp_perm, IH.
Qed.

Lemma insertByTimestamp_sorted x l :
  Sorted newerFirst l → Sorted newerFirst (insertByTimestamp x l).
Proof.
  induction l as [| y l IH]; simpl; intros Hs; [by repeat constructor |].
  case_bool_decide as Hxy.
  - constructor; [done |]. constructor. unfold newerFirst. lia.
  - apply Sorted_inv in Hs as [Hs Hhd]. constructor; [by apply IH |].
    destruct l as [| z l]; simpl.
    + constructor. unfold newerFirst. lia.
    + case_bool_decide; constructor; unfold newerFirst; [lia |].
      by apply HdRel_inv in Hhd.
Qed.

Lemma sortByTimestamp_sorted l : Sorted newerFirst (sortByTimestamp l).
Proof.
  induction l as [| x l IH]; simpl; [constructor |]. by apply insertByTimestamp_sorted.
Qed.

(** The sort is stable: sessions saved at the same time keep their order. *)
Lemma insertByTimestamp_stable t x l :
  filter (λ s, timestamp s = t) (insertByTimestamp x l) =
  filter (λ s, timestamp s = t) (x :: l).
Proof.
  induction l as [| y l IH]; simpl; [done |].
  case_bool_decide as Hxy; [done |].
  rewrite filter_cons, IH, !filter_cons.
  repeat case_decide; try done. lia.
Qed.

Lemma sortByTimestamp_stable t l :
  filter (λ s, timestamp s = t) (sortByTimestamp l) = filter (λ s, timestamp s = t) l.
Proof.
  induction l as [| x l IH]; simpl; [done |].
  rewrite insertByTimestamp_stable, !filter_cons, IH. done.
Qed.

Lemma idOf_spec db s b :
  idOf db s b =
    (if bool_decide (sessionId s ≠ EmptyString) then sessionId s
     else uuidv4 db (identifiers b),
     mkBrowser (interviewSessions b) (clockReads b)
       (if bool_decide (sessionId s ≠ EmptyString) then identifiers b
        else S (identifiers b))).
Proof. unfold idOf. case_bool_decide; [by destruct b | done]. Qed.

Lemma saveSession_local db s b :
  usable db = false → sessionId s ≠ EmptyString →
  saveSession db s b =
    (Resolved (),
     mkBrowser (assign (sessionId s)
                  {| data := withSessionId (sessionId s) s;
                     timestamp := dateNow db (clockReads b) |} (interviewSessions b))
               (S (clockReads b)) (identifiers b)).
Proof.
  intros Hlocal Hid. unfold saveSession, now. rewrite idOf_spec.
  rewrite !(bool_decide_eq_true_2 (sessionId s ≠ EmptyString)) by done.
  by rewrite Hlocal.
Qed.

Lemma saveSession_resolves db s b : (saveSession db s b).1 = Resolved ().
Proof.
  unfold saveSession, now. rewrite idOf_spec. destruct (usable db); cbn [negb]; [| done].
  destruct (setDoc db _ _); [done |]. cbn [clockReads]. by rewrite idOf_spec.
Qed.


(** Property X17. When the list of sessions is read from the browser (the
    remote database is not in use, or its query fails), [getAllSessions]
    resolves with the stored sessions, each once and none other, newest
    first: no session in the list is newer than one before it, and the
    sessions saved at the same time are in the order of the store. *)
Theorem local_sessions_are_listed_newest_first (db : Firestore) (b : Browser) :
  usable db = false ∨ (∃ e, getDocs db = Rejected e) →
  ∃ l, getAllSessions db b = Resolved l ∧
    StronglySorted newerFirst l ∧
    l ≡ₚ values (interviewSessions b) ∧
    (∀ t, filter (λ s, timestamp s = t) l =
          filter (λ s, timestamp s = t) (values (interviewSessions b))) ∧
    (∀ id s, get id (interviewSessions b) = Some s → s ∈ l).
Proof.
  intros Hmode. exists (localList b). split.
  { unfold getAllSessions. destruct Hmode as [-> | [e ->]]; [done |]. by destruct (usable db). }
  assert (Transitive newerFirst) by (intros x y z; unfold newerFirst; lia).
  split; [apply Sorted_StronglySorted; [done | apply sortByTimestamp_sorted] |].
  split; [apply sortByTimestamp_perm |].
  split; [intros t; apply sortByTimestamp_stable |].
  intros id s Hget. unfold localList. rewrite sortByTimestamp_perm. unfold values.
  induction (interviewSessions b) as [| [k v] o IH]; simpl in *; [done |].
  case_bool_decide; [simplify_eq; by left | right; by apply IH].
Qed.

(** Property X18. When the remote write of a session fails, [saveSession]
    still resolves and keeps the session in the browser, with the time of
    the second reading of the clock. This copy is what [getSession] returns
    only if the remote read fails too: when the remote read answers, its
    answer is returned, be it that there is no such session. *)
Theorem failed_remote_write_is_kept_locally
    (db : Firestore) (s : SessionType) (b : Browser) (e : string) :
  usable db = true →
  sessionId s ≠ EmptyString →
  setDoc db (sessionId s)
    {| data := withSessionId (sessionId s) s; timestamp := dateNow db (clockReads b) |}
    = Rejected e →
  let kept := {| data := withSessionId (sessionId s) s;
                 timestamp := dateNow db (S (clockReads b)) |} in
  let b' := (saveSession db s b).2 in
  (saveSession db s b).1 = Resolved () ∧
  get (sessionId s) (interviewSessions b') = Some kept ∧
  (∀ e', getDoc db (sessionId s) = Rejected e' →
     getSession db (sessionId s) b' = Resolved (Some kept)) ∧
  (∀ found, getDoc db (sessionId s) = Resolved found →
     getSession db (sessionId s) b' = Resolved found).
Proof.
  intros Hremote Hid Hwrite kept b'. subst b'. unfold saveSession, getSession, now.
  rewrite !idOf_spec. rewrite !(bool_decide_eq_true_2 (sessionId s ≠ EmptyString)) by done.
  rewrite Hremote. cbn [negb clockReads]. rewrite Hwrite.
  cbn [fst snd storeLocally interviewSessions clockReads].
  split; [done |]. split; [| split].
  - rewrite get_assign. by rewrite bool_decide_eq_true_2.
  - intros e' ->. rewrite get_assign. by rewrite bool_decide_eq_true_2.
  - by intros found ->.
Qed.


Import Scenarios Examples.


(** X17 at work. *)
Lemma local_sessions_are_listed_newest_first_witness :
  ∃ l, getAllSessions offline (saveSession offline freshSession emptyBrowser).2 = Resolved l ∧
       StronglySorted newerFirst l.
Proof.
  destruct (local_sessions_are_listed_newest_first offline
              (saveSession offline freshSession emptyBrowser).2) as (l & Hl & Hsorted & _).
  - left. reflexivity.
  - exists l. split; [exact Hl | exact Hsorted].
Defined.

(** X18 at work: the write is refused, the copy is kept, and [getSession]
    still answers that there is no such session. *)
Lemma failed_remote_write_is_kept_locally_witness :
  get "s-1" (interviewSessions (saveSession readOnly freshSession emptyBrowser).2) =
    Some {| data := withSessionId "s-1" freshSession; timestamp := 1700000001000 |} ∧
  getSession readOnly "s-1" (saveSession readOnly freshSession emptyBrowser).2 =
    Resolved None.
Proof.
  destruct (failed_remote_write_is_kept_locally readOnly freshSession emptyBrowser
              "permission-denied") as (_ & Hkept & _ & Hfound).
  - reflexivity.
  - discriminate.
  - reflexivity.
  - split; [exact Hkept |]. apply Hfound. reflexivity.
Defined.

End SessionStoreFacts.

(** * Properties of the interview page *)

Module InterviewPageFacts.

Import Gemini InterviewSession DbService SessionStore InterviewPage SessionStoreFacts.

(** [storeRecording] resolves, and the toasts it shows are its own. *)
Lemma storeRecording_outcome remote id blobs :
  ∃ url titles, storeRecording remote id blobs = (Resolved url, titles) ∧
    ∀ t, t ∈ titles →
      t = "Local Development" ∨ t = "Storage Error" ∨ t = "Recording Saved Locally".
Proof.
  unfold storeRecording, storeRecording_try.
  repeat (case_bool_decide || case_match); simplify_eq; eexists _, _;
    (split; [reflexivity |]); simpl; intros t Ht;
    repeat (apply elem_of_cons in Ht as [-> | Ht]; [tauto |]); by apply elem_of_nil in Ht.
Qed.

(** Property X20. Starting the interview from the setup form, when the page
    has its session, shows the session tab and the toast "Interview
    Started" and puts the role, the level and the job description in the
    session, marked as not completed. What is saved, and found again under
    the identifier of the session while the remote database is not in use,
    is a fresh record: these fields, an empty transcript, no recording
    address and no feedback, whatever the session held. *)
Theorem starting_an_interview_saves_a_fresh_record
    (db : Firestore) (chosen level description : string) (p : Page) (s : SessionType) :
  session p = Some s →
  let p' := startInterview db chosen level description p in
  activeTab p' = "session" ∧
  shown p' = shown p ++ ["Interview Started"] ∧
  session p' =
    Some {| sessionId := sessionId s; role := Some chosen; skillLevel := Some level;
            jobDescription := Some description; recording := recording s;
            recordingUrl := recordingUrl s; transcript := transcript s;
            feedback := feedback s; isCompleted := Some false |} ∧
  (usable db = false → sessionId s ≠ EmptyString →
   getSession db (sessionId s) (browserStore p') =
     Resolved (Some
       {| data := {| sessionId := sessionId s; role := Some chosen;
                     skillLevel := Some level; jobDescription := Some description;
                     recording := None; recordingUrl := None; transcript := Some [];
                     feedback := None; isCompleted := Some false |};
          timestamp := dateNow db (clockReads (browserStore p)) |})).
Proof.
  intros Hs p'. subst p'. unfold startInterview. rewrite Hs.
  destruct (saveSession db _ _) as [r b'] eqn:Hsave.
  split; [done |]. split; [done |]. split; [done |].
  intros Hlocal Hid. rewrite saveSession_local in Hsave by done.
  injection Hsave as _ <-. unfold getSession. rewrite Hlocal.
  cbn [negb browserStore setBrowserStore interviewSessions]. rewrite get_assign.
  by rewrite bool_decide_eq_true_2.
Qed.

(** Property X21. Completing the interview, when the page has its session,
    always ends on the feedback tab with the processing flag lowered and
    the toast "Interview Completed" shown last. The session is marked as
    completed and holds the feedback given; its role, level, job
    description, recording and transcript are unchanged; its recording
    address is what [storeRecording] resolved with when a recording exists,
    and the empty string otherwise, [storeRecording] not being called then.
    Whatever the remote store and the remote database do, neither "Storage
    Note" nor "Save Warning" is shown. While the remote database is not in
    use, the record found under the identifier of the session agrees with
    the session shown, the recording left out. *)
Theorem completing_an_interview_always_reaches_feedback
    (remote : Remote) (db : Firestore) (given : option Feedback) (p : Page)
    (s : SessionType) :
  session p = Some s →
  let p' := completeInterview remote db given p in
  activeTab p' = "feedback" ∧ isProcessing p' = false ∧
  ∃ url titles,
    session p' =
      Some {| sessionId := sessionId s; role := role s; skillLevel := skillLevel s;
              jobDescription := jobDescription s; recording := recording s;
              recordingUrl := Some url; transcript := transcript s;
              feedback := given; isCompleted := Some true |} ∧
    shown p' = shown p ++ titles ++ ["Interview Completed"] ∧
    ("Save Warning" ∉ titles) ∧ ("Storage Note" ∉ titles) ∧
    match recording s with
    | Some (blob :: blobs) =>
        storeRecording remote (sessionId s) (blob :: blobs) = (Resolved url, titles)
    | _ => url = EmptyString ∧ titles = []
    end ∧
    (usable db = false → sessionId s ≠ EmptyString →
     getSession db (sessionId s) (browserStore p') =
       Resolved (Some
         {| data := {| sessionId := sessionId s; role := role s;
                       skillLevel := skillLevel s; jobDescription := jobDescription s;
                       recording := None; recordingUrl := Some url;
                       transcript := transcript s; feedback := given;
                       isCompleted := Some true |};
            timestamp := dateNow db (clockReads (browserStore p)) |})).
Proof.
  intros Hs p'. subst p'. unfold completeInterview. rewrite Hs.
  set (stored := match recording s with
                 | Some (blob :: blobs) =>
                     match storeRecording remote (sessionId s) (blob :: blobs) with
                     | (Resolved url, titles) => (url, toast titles (setIsProcessing true p))
                     | (Rejected _, titles) =>
                         (EmptyString, toast (titles ++ ["Storage Note"]) (setIsProcessing true p))
                     end
                 | _ => (EmptyString, setIsProcessing true p)
                 end).
  assert (∃ url titles, stored = (url, toast titles (setIsProcessing true p)) ∧
            ("Save Warning" ∉ titles) ∧ ("Storage Note" ∉ titles) ∧
            match recording s with
            | Some (blob :: blobs) =>
                storeRecording remote (sessionId s) (blob :: blobs) = (Resolved url, titles)
            | _ => url = EmptyString ∧ titles = []
            end) as (url & titles & -> & Hw & Hn & Hrec).
  { unfold stored. destruct (recording s) as [[| blob blobs] |].
    - exists EmptyString, []. split; [by destruct p; unfold toast; simpl; rewrite app_nil_r |].
      split; [by intros ?%elem_of_nil |]. split; [by intros ?%elem_of_nil | done].
    - destruct (storeRecording_outcome remote (sessionId s) (blob :: blobs))
        as (url & titles & -> & Htitles).
      exists url, titles. split; [done |].
      split; [intros H; by destruct (Htitles _ H) as [? | [? | ?]] |].
      split; [intros H; by destruct (Htitles _ H) as [? | [? | ?]] | done].
    - exists EmptyString, []. split; [by destruct p; unfold toast; simpl; rewrite app_nil_r |].
      split; [by intros ?%elem_of_nil |]. split; [by intros ?%elem_of_nil | done]. }
  pose proof (saveSession_resolves db
    {| sessionId := sessionId s; role := role s; skillLevel := skillLevel s;
       jobDescription := jobDescription s; recording := None; recordingUrl := Some url;
       transcript := transcript s; feedback := given; isCompleted := Some true |}
    (browserStore p)) as Hres.
  cbn [sessionId role skillLevel jobDescription recordingUrl transcript
       InterviewSession.feedback browserStore setSession toast setIsProcessing].
  destruct (saveSession db _ (browserStore p)) as [saved b'] eqn:Hsave.
  cbn [fst] in Hres. subst saved.
  split; [done |]. split; [done |]. exists url, titles.
  split; [done |]. split; [simpl; by rewrite <- app_assoc |].
  split; [done |]. split; [done |]. split; [done |].
  intros Hlocal Hid. rewrite saveSession_local in Hsave by done.
  injection Hsave as <-. unfold getSession. rewrite Hlocal.
  cbn [negb browserStore setBrowserStore setActiveTab toast setIsProcessing interviewSessions].
  rewrite get_assign. by rewrite bool_decide_eq_true_2.
Qed.

(** Property X23. From the setup form to the feedback, a session is stored
    once: while the remote database is not in use, completing an interview
    that was started from the page replaces the record saved at the start
    and adds none. The record then found under the identifier of the
    session is marked as completed, holds the feedback given, the role, the
    level and the job description chosen at the start, and the time of the
    second saving; the records of the other sessions are as they were
    before the interview. *)
Theorem a_session_is_stored_once
    (remote : Remote) (db : Firestore) (chosen level description : string)
    (given : option Feedback) (p : Page) (s : SessionType) :
  session p = Some s → usable db = false → sessionId s ≠ EmptyString →
  let p1 := startInterview db chosen level description p in
  let p2 := completeInterview remote db given p1 in
  length (interviewSessions (browserStore p2)) =
    length (interviewSessions (browserStore p1)) ∧
  (∃ url,
     getSession db (sessionId s) (browserStore p2) =
       Resolved (Some
         {| data := {| sessionId := sessionId s; role := Some chosen;
                       skillLevel := Some level; jobDescription := Some description;
                       recording := None; recordingUrl := Some url;
                       transcript := transcript s; feedback := given;
                       isCompleted := Some true |};
            timestamp := dateNow db (S (clockReads (browserStore p))) |})) ∧
  (∀ other, other ≠ sessionId s →
     getSession db other (browserStore p2) = getSession db other (browserStore p)).
Proof.
  intros Hs Hlocal Hid p1 p2. subst p2 p1.
  unfold startInterview. rewrite Hs. rewrite saveSession_local by done.
  unfold completeInterview.
  cbn [session setSession setActiveTab toast setBrowserStore browserStore sessionId
       recording role skillLevel jobDescription transcript].
  set (first := {| data := _; timestamp := dateNow db (clockReads (browserStore p)) |}).
  set (p1 := setIsProcessing true _).
  assert (∃ url p1',
            match recording s with
            | Some (blob :: blobs) =>
                match storeRecording remote (sessionId s) (blob :: blobs) with
                | (Resolved url, titles) => (url, toast titles p1)
                | (Rejected _, titles) => (EmptyString, toast (titles ++ ["Storage Note"]) p1)
                end
            | _ => (EmptyString, p1)
            end = (url, p1') ∧ browserStore p1' = browserStore p1) as (url & p1' & -> & Hb).
  { destruct (recording s) as [[| blob blobs] |]; [by exists EmptyString, p1 | |
      by exists EmptyString, p1].
    destruct (storeRecording_outcome remote (sessionId s) (blob :: blobs))
      as (url & titles & -> & _).
    by exists url, (toast titles p1). }
  cbn [session setSession setActiveTab toast setBrowserStore browserStore sessionId
       recordingUrl role skillLevel jobDescription transcript InterviewSession.feedback].
  rewrite Hb. unfold p1. cbn [browserStore setIsProcessing].
  rewrite saveSession_local by done.
  cbn [browserStore setIsProcessing setBrowserStore setActiveTab toast sessionId
       interviewSessions clockReads].
  unfold getSession. rewrite Hlocal. cbn [negb interviewSessions].
  split; [| split].
  - rewrite length_assign, get_assign. by rewrite bool_decide_eq_true_2.
  - exists url. rewrite get_assign. by rewrite bool_decide_eq_true_2.
  - intros other Hother. rewrite !get_assign. by rewrite !bool_decide_eq_false_2.
Qed.

Import Scenarios Examples.

(** X20 at work. *)
Lemma starting_an_interview_saves_a_fresh_record_witness :
  activeTab (startInterview offline "Data Scientist" "Advanced" EmptyString freshPage) =
    "session".
Proof.
  destruct (starting_an_interview_saves_a_fresh_record offline "Data Scientist" "Advanced"
              EmptyString freshPage freshSession) as (Htab & _).
  - reflexivity.
  - exact Htab.
Defined.

(** X21 at work. *)
Lemma completing_an_interview_always_reaches_feedback_witness :
  activeTab (completeInterview unreachable offline (Some getDefaultFeedback) freshPage) =
    "feedback".
Proof.
  destruct (completing_an_interview_always_reaches_feedback unreachable offline
              (Some getDefaultFeedback) freshPage freshSession) as (Htab & _).
  - reflexivity.
  - exact Htab.
Defined.

(** X23 at work: one session in the browser after the interview. *)
Lemma a_session_is_stored_once_witness :
  length (interviewSessions (browserStore
    (completeInterview unreachable offline (Some getDefaultFeedback)
       (startInterview offline "Data Scientist" "Advanced" EmptyString freshPage)))) = 1.
Proof.
  destruct (a_session_is_stored_once unreachable offline "Data Scientist" "Advanced"
              EmptyString (Some getDefaultFeedback) freshPage freshSession) as (Hlen & _).
  - reflexivity.
  - reflexivity.
  - discriminate.
  - rewrite Hlen. reflexivity.
Defined.

End InterviewPageFacts.
